(** * seq_primer_clip: primer matching and clipping

    A shallow embedding of [tools/seq_primer_clip/seq_primer_clip.py].

    Python [str] values are lists of characters; [s[a:b]] is [slice a b s].
    Characters are 8-bit codes: on the 7-bit ASCII range, which is where
    sequence files live, [upper] is Python's [str.upper].  Exceptions are
    values of [exn] carried by [result]; the generator [make_reg_ex_mm]
    is the list of the patterns it yields, in the order it yields them.

    The regular expressions the script builds use only literals, ".",
    character classes of letters, "^", "$" and a top-level "|": [re_compile]
    reads that fragment of Python's [re] syntax and [re_search] is
    [Pattern.search] on it (leftmost start, first alternative that matches
    there). *)

From Stdlib Require Import Ascii String Sorted.
From stdpp Require Import gmap strings list fin_maps.

Open Scope char_scope.
Open Scope nat_scope.
Open Scope list_scope.

(** ** Python strings *)

Abbreviation str := (list ascii).

Definition s_ (x : string) : str := list_ascii_of_string x.

Definition slice {A} (a b : nat) (l : list A) : list A := drop a (take b l).

(** [s.upper()].  Strings are lists of 8-bit character codes and [upper]
    acts on the ASCII letters, as [str.upper] does on ASCII text, the
    alphabet of primers and reads.  On other characters [str.upper] can
    give more characters than it takes (the sharp s becomes two), which
    this map does not follow.  The statements on FASTQ and FASTA reads are
    therefore worded on the upper-cased sequence and assume nothing of its
    length; those on primers concern primers over the letters of the
    table. *)
Definition upper_char (c : ascii) : ascii :=
  let n := nat_of_ascii c in
  if (97 <=? n) && (n <=? 122) then ascii_of_nat (n - 32) else c.

Definition upper (s : str) : str := map upper_char s.

(** [sep.join(items)] *)
Fixpoint join (sep : str) (items : list str) : str :=
  match items with
  | [] => []
  | [x] => x
  | x :: rest => x ++ sep ++ join sep rest
  end.

(** ** Exceptions *)

Inductive exn : Type :=
| NotImplementedError
| KeyError (key : str)
| TypeError
| ValueError
| SystemExit
| re_error.

Inductive result (A : Type) : Type :=
| Ok (a : A)
| Raise (e : exn).
Arguments Ok {A} a.
Arguments Raise {A} e.

#[global] Instance result_ret : MRet result := fun A a => Ok a.

#[global] Instance result_bind : MBind result := fun A B k r =>
  match r with
  | Ok a => k a
  | Raise e => Raise e
  end.

(** Run [f] over [l], left to right, stopping at the first exception. *)
Fixpoint for_each {A B} (f : A -> result B) (l : list A) : result (list B) :=
  match l with
  | [] => Ok []
  | a :: l' => b ← f a; bs ← for_each f l'; Ok (b :: bs)
  end.

(** ** The ambiguity table *)

Definition ambiguous_dna_values : list (ascii * str) :=
  [ ("A", s_ "A"); ("C", s_ "C"); ("G", s_ "G"); ("T", s_ "T");
    ("M", s_ "ACM"); ("R", s_ "AGR"); ("W", s_ "ATW"); ("S", s_ "CGS");
    ("Y", s_ "CTY"); ("K", s_ "GTK");
    ("V", s_ "ACGMRSV"); ("H", s_ "ACTMWYH");
    ("D", s_ "AGTRWKD"); ("B", s_ "CGTSYKB");
    ("X", s_ "."); ("N", s_ ".") ].

Definition ambiguous_dna_re : list (ascii * str) :=
  map (fun '(letter, values) =>
         if length values =? 1 then (letter, values)
         else (letter, s_ "[" ++ values ++ s_ "]"))
      ambiguous_dna_values.

(** [d[letter]] on a dict with one entry per key. *)
Fixpoint getitem (d : list (ascii * str)) (letter : ascii) : result str :=
  match d with
  | [] => Raise (KeyError [letter])
  | (k, v) :: d' => if Ascii.eqb k letter then Ok v else getitem d' letter
  end.

(** ** Pattern generation *)

Fixpoint make_reg_ex (seq : str) : result str :=
  match seq with
  | [] => Ok []
  | letter :: seq' =>
      r ← getitem ambiguous_dna_re letter;
      rs ← make_reg_ex seq';
      Ok (r ++ rs)
  end.

(** [seq[:i] + "N" + seq[i+1:]] *)
Definition mask1 (seq : str) (i : nat) : str :=
  take i seq ++ s_ "N" ++ drop (i + 1) seq.

(** [seq[:i] + "N" + seq[i+1:i+1+k] + "N" + seq[i+k+2:]] *)
Definition mask2 (seq : str) (i k : nat) : str :=
  take i seq ++ s_ "N" ++ slice (i + 1) (i + 1 + k) seq ++ s_ "N"
    ++ drop (i + k + 2) seq.

(** The body of [make_reg_ex_mm]; [depth] bounds the nesting of the
    recursive calls, which is at most [mm] (see [make_reg_ex_mm_depth]). *)
Fixpoint make_reg_ex_mm_rec (depth : nat) (seq : str) (mm : nat)
  : result (list str) :=
  if 2 <? mm then Raise NotImplementedError else
  let seq := upper seq in
  exact ← make_reg_ex seq;
  truncated ←
    match depth with
    | 0 => Ok []
    | S depth' =>
        for_each (fun i =>
          heads ← make_reg_ex_mm_rec depth' (drop i seq) (mm - i);
          tails ← make_reg_ex_mm_rec depth'
                      (take (length seq - i) seq) (mm - i);
          Ok (map (app (s_ "^")) heads ++ map (app (s_ "$")) tails))
          (List.seq 1 mm)
    end;
  one ←
    (if 1 <=? mm
     then for_each (fun i => make_reg_ex (mask1 seq i)) (List.seq 0 (length seq))
     else Ok []);
  two ←
    (if 2 <=? mm
     then for_each (fun i =>
            for_each (fun k => make_reg_ex (mask2 seq i k))
                     (List.seq 0 (length (drop (i + 1) seq))))
            (List.seq 0 (length seq))
     else Ok []);
  Ok (exact :: concat truncated ++ one ++ concat two).

Definition make_reg_ex_mm (seq : str) (mm : nat) : result (list str) :=
  make_reg_ex_mm_rec mm seq mm.

(** ** Regular expressions: the fragment of [re] the script uses *)

Inductive atom : Type :=
| AT_BEGINNING                (* ^ *)
| AT_END                      (* $ *)
| ANY                         (* . *)
| LITERAL (c : ascii)
| IN (cs : str).              (* [cs] *)

(** A compiled pattern: the branches of the top-level alternation, in order. *)
Abbreviation regex := (list (list atom)).

Definition is_alnum (c : ascii) : bool :=
  let n := nat_of_ascii c in
  ((48 <=? n) && (n <=? 57)) || ((65 <=? n) && (n <=? 90))
  || ((97 <=? n) && (n <=? 122)).

(** The parser reads the pattern left to right.  Outside a class it returns
    the atoms of the current branch and the branches after it; inside a class
    ([in_class = true]) it returns first the class members up to "]".
    Anything outside the fragment is [None]. *)
Fixpoint re_parse (in_class : bool) (p : str)
  : option (str * (list atom * regex)) :=
  match p with
  | [] => if in_class then None else Some ([], ([], []))
  | c :: p' =>
      if in_class then
        if Ascii.eqb c "]" then
          '(_, r) ← re_parse false p'; Some ([], r)
        else if is_alnum c then
          '(cs, r) ← re_parse true p'; Some (c :: cs, r)
        else None
      else if Ascii.eqb c "|" then
        '(_, (branch, branches)) ← re_parse false p';
        Some ([], ([], branch :: branches))
      else if Ascii.eqb c "[" then
        '(cs, (branch, branches)) ← re_parse true p';
        match cs with
        | [] => None
        | _ => Some ([], (IN cs :: branch, branches))
        end
      else
        '(_, (branch, branches)) ← re_parse false p';
        if Ascii.eqb c "^" then Some ([], (AT_BEGINNING :: branch, branches))
        else if Ascii.eqb c "$" then Some ([], (AT_END :: branch, branches))
        else if Ascii.eqb c "." then Some ([], (ANY :: branch, branches))
        else if is_alnum c then Some ([], (LITERAL c :: branch, branches))
        else None
  end.

Definition re_compile (p : str) : option regex :=
  '(_, (branch, branches)) ← re_parse false p; Some (branch :: branches).

Definition newline : ascii := ascii_of_nat 10.

(** "$" holds at the end of the string and just before a final newline. *)
Definition at_end (rest : str) : bool :=
  match rest with
  | [] => true
  | [c] => Ascii.eqb c newline
  | _ => false
  end.

(** Match one branch at offset [pos], where [rest] is the string from [pos]
    on; the result is the offset where the match ends. *)
Fixpoint match_here (branch : list atom) (pos : nat) (rest : str)
  : option nat :=
  match branch with
  | [] => Some pos
  | AT_BEGINNING :: b => if pos =? 0 then match_here b pos rest else None
  | AT_END :: b => if at_end rest then match_here b pos rest else None
  | ANY :: b =>
      match rest with
      | c :: rest' =>
          if Ascii.eqb c newline then None else match_here b (S pos) rest'
      | [] => None
      end
  | LITERAL x :: b =>
      match rest with
      | c :: rest' => if Ascii.eqb c x then match_here b (S pos) rest' else None
      | [] => None
      end
  | IN cs :: b =>
      match rest with
      | c :: rest' =>
          if existsb (Ascii.eqb c) cs then match_here b (S pos) rest' else None
      | [] => None
      end
  end.

(** The first branch, in alternation order, that matches at [pos]. *)
Fixpoint match_first (rx : regex) (pos : nat) (rest : str) : option nat :=
  match rx with
  | [] => None
  | b :: rx' =>
      match match_here b pos rest with
      | Some e => Some e
      | None => match_first rx' pos rest
      end
  end.

Fixpoint search_from (rx : regex) (pos : nat) (rest : str)
  : option (nat * nat) :=
  match match_first rx pos rest with
  | Some e => Some (pos, e)
  | None =>
      match rest with
      | [] => None
      | _ :: rest' => search_from rx (S pos) rest'
      end
  end.

(** [rx.search(s)]: [Some (start, end)] for a match object, [None] for
    [None]. *)
Definition re_search (rx : regex) (s : str) : option (nat * nat) :=
  search_from rx 0 s.

(** ** Loading the primers *)

Record fasta_record : Type := FastaRecord {
  fa_identifier : str;
  fa_sequence : str }.

(** [sorted(l, key=lambda p: -len(p))]: a stable sort, longest first. *)
Fixpoint insert_by_len (p : str) (l : list str) : list str :=
  match l with
  | [] => [p]
  | q :: l' =>
      if length q <=? length p then p :: q :: l' else q :: insert_by_len p l'
  end.

Definition sorted_by_len (l : list str) : list str :=
  foldr insert_by_len [] l.

(** The patterns [load_primers_as_re] adds to its set, in the order it adds
    them.  [reverse_complement] is Biopython's. *)
Definition primer_patterns (reverse_complement : str → str)
    (records : list fasta_record) (mm : nat) (rc : bool)
  : result (list str) :=
  pats ← for_each (fun record =>
            let seq := if rc then reverse_complement (fa_sequence record)
                       else fa_sequence record in
            make_reg_ex_mm seq mm) records;
  Ok (concat pats).

(** An iteration order of a Python set: given the elements in the order
    they were added, the order in which iterating the set visits them.
    Python promises only that each element is visited once. *)
Definition set_order (iter : list str → list str) : Prop :=
  ∀ added, NoDup (iter added) ∧ ∀ p, p ∈ iter added ↔ p ∈ added.

Section Load.

Variable reverse_complement : str → str.
Variable set_iter : list str → list str.

Definition load_primers_as_re (records : list fasta_record) (mm : nat)
    (rc : bool) : result (nat * regex) :=
  added ← primer_patterns reverse_complement records mm rc;
  let count := length records in
  let primers := sorted_by_len (set_iter added) in
  match re_compile (join (s_ "|") primers) with
  | Some rx => Ok (count, rx)
  | None => Raise re_error
  end.

End Load.

(** ** Run statistics *)

Record counters : Type := Counters {
  short_neg : nat;
  short_clipped : nat;
  clipped : nat;
  negs : nat }.

Definition no_counts : counters := Counters 0 0 0 0.

Definition incr_short_neg (c : counters) : counters :=
  Counters (short_neg c + 1) (short_clipped c) (clipped c) (negs c).
Definition incr_short_clipped (c : counters) : counters :=
  Counters (short_neg c) (short_clipped c + 1) (clipped c) (negs c).
Definition incr_clipped (c : counters) : counters :=
  Counters (short_neg c) (short_clipped c) (clipped c + 1) (negs c).
Definition incr_negs (c : counters) : counters :=
  Counters (short_neg c) (short_clipped c) (clipped c) (negs c + 1).

Definition sum_counters (c : counters) : nat :=
  clipped c + short_clipped c + negs c + short_neg c.

(** ** FASTQ and FASTA

    The records are galaxy_utils' [fastqSequencingRead] and [fastaSequence];
    for both, [len(record)] is [len(record.sequence)].  A loop state is the
    counters and what the writer has written so far. *)

Record fastq_record : Type := FastqRecord {
  fq_identifier : str;
  fq_sequence : str;
  fq_description : str;
  fq_quality : str }.

Definition fq_set_sequence (r : fastq_record) (s : str) : fastq_record :=
  FastqRecord (fq_identifier r) s (fq_description r) (fq_quality r).
Definition fq_set_quality (r : fastq_record) (q : str) : fastq_record :=
  FastqRecord (fq_identifier r) (fq_sequence r) (fq_description r) q.
Definition fa_set_sequence (r : fasta_record) (s : str) : fasta_record :=
  FastaRecord (fa_identifier r) s.

Section Loops.

Variable primer : regex.
Variable min_len : nat.
Variable keep_negatives : bool.

Definition fastq_forward_step (st : counters * list fastq_record)
    (record : fastq_record) : counters * list fastq_record :=
  let '(n, written) := st in
  let seq := upper (fq_sequence record) in
  match re_search primer seq with
  | Some (_, cut) =>
      let record := fq_set_sequence record (drop cut seq) in
      if min_len <=? length (fq_sequence record) then
        let record := fq_set_quality record (drop cut (fq_quality record)) in
        (incr_clipped n, written ++ [record])
      else (incr_short_clipped n, written)
  | None =>
      if keep_negatives then
        if min_len <=? length (fq_sequence record)
        then (incr_negs n, written ++ [record])
        else (incr_short_neg n, written)
      else (n, written)
  end.

Definition fastq_reverse_step (st : counters * list fastq_record)
    (record : fastq_record) : counters * list fastq_record :=
  let '(n, written) := st in
  let seq := upper (fq_sequence record) in
  match re_search primer seq with
  | Some (cut, _) =>
      let record := fq_set_sequence record (take cut seq) in
      if min_len <=? length (fq_sequence record) then
        let record := fq_set_quality record (take cut (fq_quality record)) in
        (incr_clipped n, written ++ [record])
      else (incr_short_clipped n, written)
  | None =>
      if keep_negatives then
        if min_len <=? length (fq_sequence record)
        then (incr_negs n, written ++ [record])
        else (incr_short_neg n, written)
      else (n, written)
  end.

Definition fasta_forward_step (st : counters * list fasta_record)
    (record : fasta_record) : counters * list fasta_record :=
  let '(n, written) := st in
  let seq := upper (fa_sequence record) in
  match re_search primer seq with
  | Some (_, cut) =>
      let record := fa_set_sequence record (drop cut seq) in
      if min_len <=? length (fa_sequence record)
      then (incr_clipped n, written ++ [record])
      else (incr_short_clipped n, written)
  | None =>
      if keep_negatives then
        if min_len <=? length (fa_sequence record)
        then (incr_negs n, written ++ [record])
        else (incr_short_neg n, written)
      else (n, written)
  end.

Definition fasta_reverse_step (st : counters * list fasta_record)
    (record : fasta_record) : counters * list fasta_record :=
  let '(n, written) := st in
  let seq := upper (fa_sequence record) in
  match re_search primer seq with
  | Some (cut, _) =>
      let record := fa_set_sequence record (take cut seq) in
      if min_len <=? length (fa_sequence record)
      then (incr_clipped n, written ++ [record])
      else (incr_short_clipped n, written)
  | None =>
      if keep_negatives then
        if min_len <=? length (fa_sequence record)
        then (incr_negs n, written ++ [record])
        else (incr_short_neg n, written)
      else (n, written)
  end.

Definition clip_fastq (forward : bool) (n : counters)
    (reader : list fastq_record) : counters * list fastq_record :=
  if forward then foldl fastq_forward_step (n, []) reader
  else foldl fastq_reverse_step (n, []) reader.

Definition clip_fasta (forward : bool) (n : counters)
    (reader : list fasta_record) : counters * list fasta_record :=
  if forward then foldl fasta_forward_step (n, []) reader
  else foldl fasta_reverse_step (n, []) reader.

End Loops.

(** ** SFF

    The records are Biopython [SeqRecord]s as [SffIterator] builds them: the
    full read, its qualities, and the [annotations] dict holding the clip
    values together with the flow data. *)

Inductive annotation : Type :=
| ann_int (n : Z)
| ann_str (s : str)
| ann_ints (l : list Z).

Record sff_record : Type := SffRecord {
  sff_id : str;
  sff_seq : str;
  sff_phred_quality : list Z;
  sff_annotations : gmap string annotation }.

Definition sff_set_annotation (r : sff_record) (key : string) (v : annotation)
  : sff_record :=
  SffRecord (sff_id r) (sff_seq r) (sff_phred_quality r)
            (<[key := v]> (sff_annotations r)).

(** [record.annotations[key]] *)
Definition annotations_getitem (r : sff_record) (key : string)
  : result annotation :=
  match sff_annotations r !! key with
  | None => Raise (KeyError (s_ key))
  | Some v => Ok v
  end.

(** A bound of a slice: [str.__getitem__] takes integers only. *)
Definition slice_bound (v : annotation) : result Z :=
  match v with
  | ann_int n => Ok n
  | _ => Raise TypeError
  end.

(** The integer [record.annotations[key]] holds, for the statements about
    records that hold one. *)
Definition annotation_int (r : sff_record) (key : string) : result Z :=
  match sff_annotations r !! key with
  | None => Raise (KeyError (s_ key))
  | Some (ann_int n) => Ok n
  | Some _ => Raise TypeError
  end.

(** A slice bound as Python reads it: negative counts from the end, and
    everything is clamped to the string. *)
Definition slice_index (len : nat) (i : Z) : nat :=
  if (i <? 0)%Z then Z.to_nat (Z.of_nat len + i) else Z.to_nat i.

(** [s[a:b]] for integers [a] and [b]. *)
Definition slice_int {A} (a b : Z) (l : list A) : list A :=
  slice (slice_index (length l) a) (slice_index (length l) b) l.

Section SffLoops.

Variable primer : regex.
Variable min_len : nat.
Variable keep_negatives : bool.

(** The body of the loops.  Both clip values are read from the
    annotations before the slice asks for integers, so a missing key is
    reported before a value of the wrong type. *)
Definition sff_forward_step (st : counters * list sff_record)
    (record : sff_record) : result (counters * list sff_record) :=
  let '(n, yielded) := st in
  left_clip ← annotations_getitem record "clip_qual_left";
  right_clip ← annotations_getitem record "clip_qual_right";
  left_clip ← slice_bound left_clip;
  right_clip ← slice_bound right_clip;
  let seq := upper (slice_int left_clip right_clip (sff_seq record)) in
  match re_search primer seq with
  | Some (_, e) =>
      if min_len <=? length seq - e then
        let record := sff_set_annotation record "clip_qual_left"
                        (ann_int (left_clip + Z.of_nat e)) in
        Ok (incr_clipped n, yielded ++ [record])
      else Ok (incr_short_clipped n, yielded)
  | None =>
      if keep_negatives then
        if min_len <=? length seq
        then Ok (incr_negs n, yielded ++ [record])
        else Ok (incr_short_neg n, yielded)
      else Ok (n, yielded)
  end.

Definition sff_reverse_step (st : counters * list sff_record)
    (record : sff_record) : result (counters * list sff_record) :=
  let '(n, yielded) := st in
  left_clip ← annotations_getitem record "clip_qual_left";
  right_clip ← annotations_getitem record "clip_qual_right";
  left_clip ← slice_bound left_clip;
  right_clip ← slice_bound right_clip;
  let seq := upper (slice_int left_clip right_clip (sff_seq record)) in
  match re_search primer seq with
  | Some (new_len, _) =>
      if min_len <=? new_len then
        let record := sff_set_annotation record "clip_qual_right"
                        (ann_int (left_clip + Z.of_nat new_len)) in
        Ok (incr_clipped n, yielded ++ [record])
      else Ok (incr_short_clipped n, yielded)
  | None =>
      if keep_negatives then
        if min_len <=? length seq
        then Ok (incr_negs n, yielded ++ [record])
        else Ok (incr_short_neg n, yielded)
      else Ok (n, yielded)
  end.

(** A [for] loop whose body may raise. *)
Fixpoint for_loop {S A} (body : S → A → result S) (st : S) (l : list A)
  : result S :=
  match l with
  | [] => Ok st
  | a :: l' => st' ← body st a; for_loop body st' l'
  end.

Definition process (forward : bool) (n : counters)
    (records : list sff_record) : result (counters * list sff_record) :=
  if forward then for_loop sff_forward_step (n, []) records
  else for_loop sff_reverse_step (n, []) records.

End SffLoops.

(** ** The script *)

Inductive primer_type : Type := forward_primer | reverse_primer | rc_primer.

Inductive reads : Type :=
| sff_reads (l : list sff_record)
| fastq_reads (l : list fastq_record)
| fasta_reads (l : list fasta_record).

(** The checks on the mismatch count after [int(mm)]. *)
Definition check_mm (mm : Z) : result nat :=
  if (mm <? 0)%Z then Raise SystemExit
  else if bool_decide (mm ∈ [0; 1; 2]%Z) then Ok (Z.to_nat mm)
  else Raise NotImplementedError.

Definition check_min_len (min_len : Z) : result nat :=
  if (min_len <? 0)%Z then Raise SystemExit else Ok (Z.to_nat min_len).

(** [SffWriter.write_file] of Biopython, on records as [SffIterator] builds
    them: it takes the first record for the header of the file, and raises
    [ValueError] when there is none. *)
Definition write_file (records : list sff_record) : result unit :=
  match records with
  | [] => Raise ValueError
  | _ :: _ => Ok tt
  end.

Section Script.

Variable reverse_complement : str → str.
Variable set_iter : list str → list str.

(** The run from the parsed arguments on: the counters that are printed and
    the records that are written. *)
Definition script (input : reads) (primer_fasta : list fasta_record)
    (type : primer_type) (mm min_len : Z) (keep_negatives : bool)
  : result (counters * reads) :=
  mm ← check_mm mm;
  min_len ← check_min_len min_len;
  let '(forward, rc) :=
    match type with
    | forward_primer => (true, false)
    | reverse_primer => (false, false)
    | rc_primer => (false, true)
    end in
  '(count, primer) ←
    load_primers_as_re reverse_complement set_iter primer_fasta mm rc;
  match input with
  | sff_reads records =>
      '(n, out) ← process primer min_len keep_negatives forward no_counts
                    records;
      _ ← write_file out;
      Ok (n, sff_reads out)
  | fastq_reads reader =>
      let '(n, out) := clip_fastq primer min_len keep_negatives forward
                         no_counts reader in
      Ok (n, fastq_reads out)
  | fasta_reads reader =>
      let '(n, out) := clip_fasta primer min_len keep_negatives forward
                         no_counts reader in
      Ok (n, fasta_reads out)
  end.

End Script.

(** ** Vocabulary of the properties *)

(** What the loops do with a record no pattern matches, as the
    keep-unmatched policy words it: [after] is the loop state that follows
    the state [(n, written)] for a record of effective length [len]. *)
Definition unmatched_policy {R} (keep : bool) (min_len len : nat)
    (n : counters) (written : list R) (record : R)
    (after : counters * list R) : Prop :=
  (keep = false → after = (n, written)) ∧
  (keep = true → len ≥ min_len → after = (incr_negs n, written ++ [record])) ∧
  (keep = true → len < min_len → after = (incr_short_neg n, written)).

(** The sequence the SFF loops search: the read inside its clip window,
    upper-cased. *)
Definition sff_window (record : sff_record) : result str :=
  left_clip ← annotations_getitem record "clip_qual_left";
  right_clip ← annotations_getitem record "clip_qual_right";
  left_clip ← slice_bound left_clip;
  right_clip ← slice_bound right_clip;
  Ok (upper (slice_int left_clip right_clip (sff_seq record))).

(** The annotation a clip moves. *)
Definition clip_key (forward : bool) : string :=
  if forward then "clip_qual_left"%string else "clip_qual_right"%string.

(** [r'] is [r] except, possibly, for the annotation [key]. *)
Definition same_but_annotation (key : string) (r r' : sff_record) : Prop :=
  sff_id r' = sff_id r ∧ sff_seq r' = sff_seq r ∧
  sff_phred_quality r' = sff_phred_quality r ∧
  ∀ k, k ≠ key → sff_annotations r' !! k = sff_annotations r !! k.

(** A record moves a counter when a pattern matches its sequence or when
    unmatched records are kept. *)
Definition counted (primer : regex) (keep : bool) (seq : str) : bool :=
  match re_search primer seq with
  | Some _ => true
  | None => keep
  end.

Definition sff_counted (primer : regex) (keep : bool) (record : sff_record)
  : bool :=
  match sff_window record with
  | Ok seq => counted primer keep seq
  | Raise _ => false
  end.

(** [n'] is [n] with exactly one of the four counters one higher. *)
Definition moves_one (n n' : counters) : Prop :=
  n' = incr_clipped n ∨ n' = incr_short_clipped n ∨
  n' = incr_negs n ∨ n' = incr_short_neg n.

Definition count_if {A} (f : A → bool) (l : list A) : nat :=
  length (List.filter f l).

(** The atom that [re_compile] reads from the table's expression for
    [letter] (for a letter of the table). *)
Definition letter_atom (letter : ascii) : atom :=
  match getitem ambiguous_dna_values letter with
  | Ok [c] => if Ascii.eqb c "." then ANY else LITERAL c
  | Ok values => IN values
  | Raise _ => LITERAL letter
  end.

Definition valid_letter (letter : ascii) : bool :=
  match getitem ambiguous_dna_re letter with
  | Ok _ => true
  | Raise _ => false
  end.

(** The pattern text [p] reads as the atoms [a]: whatever follows [p],
    parsing [p] puts [a] in front of the branch that follows. *)
Definition parses_as (p : str) (a : list atom) : Prop :=
  ∀ rest branch branches,
    re_parse false rest = Some ([], (branch, branches)) →
    re_parse false (p ++ rest) = Some ([], (a ++ branch, branches)).

(** The patterns [make_reg_ex_mm] yields for the upper-cased primer [seq]
    and the budget [mm], one rule per [yield] of the source. *)
Inductive yields (seq : str) : nat → str → Prop :=
| yields_exact mm p :
    make_reg_ex seq = Ok p → yields seq mm p
| yields_head mm i p :
    1 ≤ i ≤ mm → yields (drop i seq) (mm - i) p →
    yields seq mm (s_ "^" ++ p)
| yields_tail mm i p :
    1 ≤ i ≤ mm → yields (take (length seq - i) seq) (mm - i) p →
    yields seq mm (s_ "$" ++ p)
| yields_one mm i p :
    1 ≤ mm → i < length seq → make_reg_ex (mask1 seq i) = Ok p →
    yields seq mm p
| yields_two mm i k p :
    2 ≤ mm → i < length seq → k < length (drop (i + 1) seq) →
    make_reg_ex (mask2 seq i k) = Ok p →
    yields seq mm p.

(** Every letter of [seq] is a key of the ambiguity table. *)
Definition valid_seq (seq : str) : bool := forallb valid_letter seq.

(** The sequence a primer record is searched as. *)
Definition primer_seq (reverse_complement : str → str) (rc : bool)
    (record : fasta_record) : str :=
  if rc then reverse_complement (fa_sequence record) else fa_sequence record.

(** Whether an atom that consumes a character accepts [c]. *)
Definition atom_accepts (a : atom) (c : ascii) : bool :=
  match a with
  | ANY => negb (Ascii.eqb c newline)
  | LITERAL x => Ascii.eqb c x
  | IN cs => existsb (Ascii.eqb c) cs
  | AT_BEGINNING | AT_END => false
  end.

(** The letters of [w], as the table reads them, accept a prefix of
    [rest] character by character. *)
Fixpoint letters_match (w rest : str) : bool :=
  match w, rest with
  | [], _ => true
  | letter :: w', c :: rest' =>
      atom_accepts (letter_atom letter) c && letters_match w' rest'
  | _ :: _, [] => false
  end.

Definition is_anchor (a : atom) : bool :=
  match a with
  | AT_BEGINNING | AT_END => true
  | _ => false
  end.

(** Only the four bases, no ambiguity code. *)
Definition unambiguous (seq : str) : bool :=
  forallb (λ c, existsb (Ascii.eqb c) (s_ "ACGT")) seq.

(** [s.find(sub)], with [None] for Python's [-1]: the plain substring
    search, which tries every offset from the left. *)
Fixpoint find_from (sub : str) (pos : nat) (rest : str) : option nat :=
  if bool_decide (sub `prefix_of` rest) then Some pos
  else match rest with
       | [] => None
       | _ :: rest' => find_from sub (S pos) rest'
       end.

Definition find (sub s : str) : option nat := find_from sub 0 s.


(** What one pass of a loop does to its state, for the properties of whole
    runs: it writes nothing and leaves the sum of [clipped] and [negs], or
    it writes one record [r'] with the identifier of the record read and
    raises that sum by one; [related r r'] is what else is claimed of the
    record written. *)
Definition step_writes {R} (ident : R → str) (related : R → R → Prop)
    (body : counters * list R → R → result (counters * list R)) : Prop :=
  ∀ n w r n' w',
    body (n, w) r = Ok (n', w') →
    (w' = w ∧ clipped n' + negs n' = clipped n + negs n) ∨
    (∃ r', w' = w ++ [r'] ∧ ident r' = ident r ∧
           clipped n' + negs n' = clipped n + negs n + 1 ∧ related r r').

(** What an SFF loop yields for the record [r]: [r] itself when nothing
    matches, and otherwise [r] with the clip value of the orientation moved
    to the match, in both cases only when [min_len] bases are left. *)
Definition sff_clip (primer : regex) (min_len : nat) (forward : bool)
    (r r' : sff_record) : Prop :=
  ∃ left_clip right_clip,
    annotation_int r "clip_qual_left" = Ok left_clip ∧
    annotation_int r "clip_qual_right" = Ok right_clip ∧
    let seq := upper (slice_int left_clip right_clip (sff_seq r)) in
    match re_search primer seq with
    | Some (s, e) =>
        if forward
        then min_len ≤ length seq - e ∧
             r' = sff_set_annotation r "clip_qual_left"
                    (ann_int (left_clip + Z.of_nat e))
        else min_len ≤ s ∧
             r' = sff_set_annotation r "clip_qual_right"
                    (ann_int (left_clip + Z.of_nat s))
    | None => min_len ≤ length seq ∧ r' = r
    end.

(** The two flags the script derives from the primer type. *)
Definition is_forward (type : primer_type) : bool :=
  match type with forward_primer => true | _ => false end.

Definition is_rc (type : primer_type) : bool :=
  match type with rc_primer => true | _ => false end.

(** The record holds an integer under both clip keys. *)
Definition clip_values (record : sff_record) : Prop :=
  ∃ l rc,
    sff_annotations record !! "clip_qual_left"%string = Some (ann_int l) ∧
    sff_annotations record !! "clip_qual_right"%string = Some (ann_int rc).

(** The exception the loops raise on a record without them: the keys are
    looked up left first, and the values are used after both lookups. *)
Definition clip_error (record : sff_record) (e : exn) : Prop :=
  match sff_annotations record !! "clip_qual_left"%string,
        sff_annotations record !! "clip_qual_right"%string with
  | None, _ => e = KeyError (s_ "clip_qual_left")
  | Some _, None => e = KeyError (s_ "clip_qual_right")
  | Some (ann_int _), Some (ann_int _) => False
  | Some _, Some _ => e = TypeError
  end.

(** * Properties *)

(** The clip values of [record], case by case: what is left is the case of
    two integers, when the goal or a hypothesis says the step returned. *)
Ltac sff_clips record l r :=
  unfold annotation_int, annotations_getitem in *;
  destruct (sff_annotations record !! "clip_qual_left"%string) as [[l| |]|];
  destruct (sff_annotations record !! "clip_qual_right"%string) as [[r| |]|];
  cbn [mbind result_bind slice_bound] in *; try done.


(** ** Searching *)

Lemma match_here_bounds b pos rest e :
  match_here b pos rest = Some e → pos ≤ e ≤ pos + length rest.
Proof.
  revert pos rest.
  induction b as [|a b IH]; intros pos rest H; simpl in H.
  - injection H as <-. lia.
  - destruct a.
    + destruct (pos =? 0); [apply IH in H; lia | discriminate].
    + destruct (at_end rest); [apply IH in H; lia | discriminate].
    + destruct rest as [|c r]; [discriminate|].
      destruct (Ascii.eqb c newline); [discriminate|].
      apply IH in H. simpl. lia.
    + destruct rest as [|c' r]; [discriminate|].
      destruct (Ascii.eqb c' c); [|discriminate].
      apply IH in H. simpl. lia.
    + destruct rest as [|c' r]; [discriminate|].
      destruct (existsb _ cs); [|discriminate].
      apply IH in H. simpl. lia.
Qed.

Lemma match_first_Some rx pos rest e :
  match_first rx pos rest = Some e →
  ∃ b, b ∈ rx ∧ match_here b pos rest = Some e.
Proof.
  induction rx as [|b rx IH]; simpl; [discriminate|].
  destruct (match_here b pos rest) as [e'|] eqn:Hb.
  - intros [= <-]. exists b. split; [left | done].
  - intros H. destruct (IH H) as (b' & Hin & Hm).
    exists b'. split; [by right | done].
Qed.

Lemma match_first_None rx pos rest :
  match_first rx pos rest = None ↔
  ∀ b, b ∈ rx → match_here b pos rest = None.
Proof.
  induction rx as [|b rx IH]; simpl.
  - split; [intros _ b Hb; by apply elem_of_nil in Hb | done].
  - destruct (match_here b pos rest) as [e|] eqn:Hb.
    + split; [discriminate|]. intros H.
      rewrite (H b) in Hb; [discriminate | left].
    + rewrite IH. split.
      * intros H b' [->|Hin]%elem_of_cons; auto.
      * intros H b' Hin. apply H. by right.
Qed.

Lemma search_from_bounds rx pos rest s e :
  search_from rx pos rest = Some (s, e) →
  pos ≤ s ∧ s ≤ e ∧ e ≤ pos + length rest.
Proof.
  revert pos. induction rest as [|c rest IH]; intros pos; simpl.
  - destruct (match_first rx pos []) as [e'|] eqn:Hm; [|discriminate].
    intros [= <- <-]. apply match_first_Some in Hm as (b & _ & Hm).
    apply match_here_bounds in Hm. simpl in Hm. lia.
  - destruct (match_first rx pos (c :: rest)) as [e'|] eqn:Hm.
    + intros [= <- <-]. apply match_first_Some in Hm as (b & _ & Hm).
      apply match_here_bounds in Hm. simpl in Hm. lia.
    + intros H. apply IH in H. lia.
Qed.

(** A match lies inside the string. *)
Lemma re_search_bounds rx s st e :
  re_search rx s = Some (st, e) → st ≤ e ∧ e ≤ length s.
Proof.
  intros H. apply search_from_bounds in H. lia.
Qed.

(** The match found is the first branch that matches at the leftmost
    offset where any branch matches. *)
Lemma search_from_Some rx pos rest s e :
  search_from rx pos rest = Some (s, e) →
  match_first rx s (drop (s - pos) rest) = Some e ∧
  ∀ k, pos ≤ k < s → match_first rx k (drop (k - pos) rest) = None.
Proof.
  revert pos. induction rest as [|c rest IH]; intros pos; simpl.
  - destruct (match_first rx pos []) as [e'|] eqn:Hm; [|discriminate].
    intros [= <- <-]. rewrite Nat.sub_diag. split; [done | lia].
  - destruct (match_first rx pos (c :: rest)) as [e'|] eqn:Hm.
    + intros [= <- <-]. rewrite Nat.sub_diag. split; [done | lia].
    + intros H. pose proof (search_from_bounds _ _ _ _ _ H) as Hb.
      apply IH in H as [H1 H2].
      replace (s - pos) with (S (s - S pos)) by lia. split; [done|].
      intros k Hk. destruct (decide (k = pos)) as [->|Hne].
      * by rewrite Nat.sub_diag.
      * replace (k - pos) with (S (k - S pos)) by lia. apply H2. lia.
Qed.

Lemma search_from_None rx pos rest :
  search_from rx pos rest = None ↔
  ∀ k, k ≤ length rest → match_first rx (pos + k) (drop k rest) = None.
Proof.
  revert pos. induction rest as [|c rest IH]; intros pos; simpl.
  - destruct (match_first rx pos []) as [e'|] eqn:Hm.
    + split; [discriminate|]. intros H. specialize (H 0 (le_n _)).
      rewrite Nat.add_0_r in H. simpl in H. congruence.
    + split; [|done]. intros _ k Hk. assert (k = 0) as -> by lia.
      by rewrite Nat.add_0_r.
  - destruct (match_first rx pos (c :: rest)) as [e'|] eqn:Hm.
    + split; [discriminate|]. intros H. specialize (H 0 (Nat.le_0_l _)).
      rewrite Nat.add_0_r in H. simpl in H. congruence.
    + rewrite IH. split.
      * intros H [|k] Hk; [by rewrite Nat.add_0_r|].
        replace (pos + S k) with (S pos + k) by lia. apply H. lia.
      * intros H k Hk. replace (S pos + k) with (pos + S k) by lia.
        apply (H (S k)). lia.
Qed.

(** Whether anything matches does not depend on the order of the branches. *)
Lemma re_search_None rx s :
  re_search rx s = None ↔
  ∀ b k, b ∈ rx → k ≤ length s → match_here b k (drop k s) = None.
Proof.
  unfold re_search. rewrite search_from_None. split.
  - intros H b k Hb Hk. specialize (H k Hk). simpl in H.
    by eapply match_first_None in H.
  - intros H k Hk. simpl. apply match_first_None. intros b Hb. by apply H.
Qed.

Lemma re_search_is_Some rx s b k e :
  b ∈ rx → k ≤ length s → match_here b k (drop k s) = Some e →
  is_Some (re_search rx s).
Proof.
  intros Hb Hk Hm. destruct (re_search rx s) eqn:Hs; [done|].
  rewrite re_search_None in Hs. rewrite (Hs b k Hb Hk) in Hm. discriminate.
Qed.

Lemma re_search_Some rx s st e :
  re_search rx s = Some (st, e) →
  (∃ b, b ∈ rx ∧ match_here b st (drop st s) = Some e) ∧
  ∀ b k, b ∈ rx → k < st → match_here b k (drop k s) = None.
Proof.
  intros H. apply search_from_Some in H as [H1 H2].
  rewrite Nat.sub_0_r in H1. split.
  - by apply match_first_Some.
  - intros b k Hb Hk. specialize (H2 k). rewrite Nat.sub_0_r in H2.
    eapply match_first_None in H2; [done | lia | done].
Qed.
(** ** Strings *)

Lemma length_upper s : length (upper s) = length s.
Proof. apply length_map. Qed.

Lemma upper_drop k s : upper (drop k s) = drop k (upper s).
Proof. unfold upper. by rewrite <- fmap_drop. Qed.

Lemma upper_take k s : upper (take k s) = take k (upper s).
Proof. unfold upper. by rewrite <- fmap_take. Qed.

Lemma slice_to_end {A} k (l : list A) : slice k (length l) l = drop k l.
Proof. unfold slice. by rewrite firstn_all. Qed.

Lemma slice_from_start {A} k (l : list A) : slice 0 k l = take k l.
Proof. done. Qed.

(** ** The clip decision *)

(** C2.  Let [seq] be the upper-cased sequence of a FASTQ record, the
    sequence the loops search and cut, and [len] its length.  When the
    search finds the span [[s, e)]: the forward loop keeps the region
    [[e, len)] of [seq], of length [len - e], and the reverse loop keeps the
    region [[0, s)], of length [s], the qualities being cut at the same
    offset; in both the record is written, and counted as clipped, exactly
    when the kept length is at least [min_len], and is otherwise counted in
    [short_clipped] and not written.  Nothing is assumed of upper-casing:
    the lengths are those of [seq]. *)
Theorem orientation_cut primer min_len keep n written record seq s e :
  seq = upper (fq_sequence record) →
  re_search primer seq = Some (s, e) →
  (s ≤ e ∧ e ≤ length seq) ∧
  (∀ kept,
     kept = FastqRecord (fq_identifier record)
              (slice e (length seq) seq)
              (fq_description record) (drop e (fq_quality record)) →
     length (fq_sequence kept) = length seq - e ∧
     (length seq - e ≥ min_len →
      fastq_forward_step primer min_len keep (n, written) record =
        (incr_clipped n, written ++ [kept])) ∧
     (length seq - e < min_len →
      fastq_forward_step primer min_len keep (n, written) record =
        (incr_short_clipped n, written))) ∧
  (∀ kept,
     kept = FastqRecord (fq_identifier record)
              (slice 0 s seq)
              (fq_description record) (take s (fq_quality record)) →
     length (fq_sequence kept) = s ∧
     (s ≥ min_len →
      fastq_reverse_step primer min_len keep (n, written) record =
        (incr_clipped n, written ++ [kept])) ∧
     (s < min_len →
      fastq_reverse_step primer min_len keep (n, written) record =
        (incr_short_clipped n, written))).
Proof.
  intros -> Hs. pose proof (re_search_bounds _ _ _ _ Hs) as [Hse He].
  split; [done|].
  split; intros kept ->; cbn [fq_sequence].
  - rewrite slice_to_end, length_drop. split; [done|].
    unfold fastq_forward_step. rewrite Hs.
    cbn [fq_set_sequence fq_set_quality fq_sequence fq_identifier
         fq_description fq_quality].
    rewrite length_drop.
    split; intros Hlen.
    + by apply Nat.leb_le in Hlen as ->.
    + by apply Nat.leb_gt in Hlen as ->.
  - rewrite slice_from_start, length_take. split; [lia|].
    unfold fastq_reverse_step. rewrite Hs.
    cbn [fq_set_sequence fq_set_quality fq_sequence fq_identifier
         fq_description fq_quality].
    rewrite length_take.
    replace (s `min` length (upper (fq_sequence record))) with s by lia.
    split; intros Hlen.
    + by apply Nat.leb_le in Hlen as ->.
    + by apply Nat.leb_gt in Hlen as ->.
Qed.

(** The example of the specification: a match at [[3, 8)] in a read of 20
    bases keeps [[8, 20)], twelve bases, under forward orientation. *)
Lemma orientation_cut_witness :
  re_search [[LITERAL "C"; LITERAL "C"; LITERAL "G"; LITERAL "G"; LITERAL "A"]]
    (upper (s_ "tttCCGGAttttACGTACGT")) = Some (3, 8) ∧
  fastq_forward_step
    [[LITERAL "C"; LITERAL "C"; LITERAL "G"; LITERAL "G"; LITERAL "A"]]
    12 false (no_counts, [])
    (FastqRecord (s_ "read") (s_ "tttCCGGAttttACGTACGT") []
                 (s_ "ABCDEFGHIJKLMNOPQRST")) =
  (incr_clipped no_counts,
   [FastqRecord (s_ "read") (s_ "TTTTACGTACGT") [] (s_ "IJKLMNOPQRST")]).
Proof.
  split; [reflexivity|].
  refine (proj1 (proj2 (proj1 (proj2 (orientation_cut
    [[LITERAL "C"; LITERAL "C"; LITERAL "G"; LITERAL "G"; LITERAL "A"]]
    12 false no_counts []
    (FastqRecord (s_ "read") (s_ "tttCCGGAttttACGTACGT") []
                 (s_ "ABCDEFGHIJKLMNOPQRST"))
    (s_ "TTTCCGGATTTTACGTACGT") 3 8 _ _)) _ _)) _).
  - reflexivity.
  - reflexivity.
  - reflexivity.
  - simpl. lia.
Defined.

(** C5.  A record that no pattern matches is never written when
    keep-unmatched is off; when it is on, the record is written unchanged
    and counted in [negs] exactly when its effective length is at least
    [min_len], and is otherwise counted in [short_neg] and not written.
    This holds in the FASTQ, FASTA and SFF loops, in both orientations. *)
Theorem keep_unmatched_policy primer min_len keep n :
  (∀ written record,
     re_search primer (upper (fq_sequence record)) = None →
     unmatched_policy keep min_len (length (fq_sequence record)) n written
       record (fastq_forward_step primer min_len keep (n, written) record) ∧
     unmatched_policy keep min_len (length (fq_sequence record)) n written
       record (fastq_reverse_step primer min_len keep (n, written) record)) ∧
  (∀ written record,
     re_search primer (upper (fa_sequence record)) = None →
     unmatched_policy keep min_len (length (fa_sequence record)) n written
       record (fasta_forward_step primer min_len keep (n, written) record) ∧
     unmatched_policy keep min_len (length (fa_sequence record)) n written
       record (fasta_reverse_step primer min_len keep (n, written) record)) ∧
  (∀ yielded record seq,
     sff_window record = Ok seq → re_search primer seq = None →
     (∃ after,
        sff_forward_step primer min_len keep (n, yielded) record = Ok after ∧
        unmatched_policy keep min_len (length seq) n yielded record after) ∧
     (∃ after,
        sff_reverse_step primer min_len keep (n, yielded) record = Ok after ∧
        unmatched_policy keep min_len (length seq) n yielded record after)).
Proof.
  assert (Hpol : ∀ R len (written : list R) record,
    unmatched_policy keep min_len len n written record
      (if keep then
         if min_len <=? len then (incr_negs n, written ++ [record])
         else (incr_short_neg n, written)
       else (n, written))).
  { intros R len written record. unfold unmatched_policy.
    destruct keep; (split; [|split]); try done.
    - intros _ Hlen. by apply Nat.leb_le in Hlen as ->.
    - intros _ Hlen. by apply Nat.leb_gt in Hlen as ->. }
  split; [|split].
  - intros written record Hs.
    unfold fastq_forward_step, fastq_reverse_step. rewrite Hs.
    split; apply Hpol.
  - intros written record Hs.
    unfold fasta_forward_step, fasta_reverse_step. rewrite Hs.
    split; apply Hpol.
  - intros yielded record seq Hw Hs. unfold sff_window in Hw.
    unfold sff_forward_step, sff_reverse_step.
    sff_clips record l r.
    injection Hw as <-. simpl. rewrite Hs.
    split; eexists; (split; [|apply Hpol]); by repeat case_match.
Qed.

Lemma keep_unmatched_policy_witness :
  re_search [[LITERAL "A"]] (upper (s_ "ttt")) = None ∧
  fastq_forward_step [[LITERAL "A"]] 2 true (no_counts, [])
    (FastqRecord (s_ "read") (s_ "ttt") [] (s_ "III")) =
  (incr_negs no_counts, [FastqRecord (s_ "read") (s_ "ttt") [] (s_ "III")]).
Proof.
  split; [reflexivity|].
  refine (proj1 (proj2 (proj1 (proj1
    (keep_unmatched_policy [[LITERAL "A"]] 2 true no_counts) []
    (FastqRecord (s_ "read") (s_ "ttt") [] (s_ "III")) _))) _ _).
  - reflexivity.
  - reflexivity.
  - simpl. lia.
Defined.

(** C10.  In the FASTA and FASTQ loops a record written as clipped carries
    the kept region of [seq], the upper-cased form of its sequence: what is
    written of the sequence is upper-cased, whatever the case of the input.
    A record written under the keep-unmatched policy is the input record
    itself, its sequence in its original case.  The regions and lengths of
    a clipped record are those of [seq], those of an unmatched record
    those of the sequence as read. *)
Theorem written_sequence_case primer min_len keep n :
  (∀ written record seq s e,
     seq = upper (fq_sequence record) →
     re_search primer seq = Some (s, e) →
     (length seq - e ≥ min_len →
      (fastq_forward_step primer min_len keep (n, written) record).2 =
      written ++ [fq_set_quality
         (fq_set_sequence record (slice e (length seq) seq))
         (drop e (fq_quality record))]) ∧
     (s ≥ min_len →
      (fastq_reverse_step primer min_len keep (n, written) record).2 =
      written ++ [fq_set_quality
         (fq_set_sequence record (slice 0 s seq))
         (take s (fq_quality record))])) ∧
  (∀ written record seq s e,
     seq = upper (fa_sequence record) →
     re_search primer seq = Some (s, e) →
     (length seq - e ≥ min_len →
      (fasta_forward_step primer min_len keep (n, written) record).2 =
      written ++ [fa_set_sequence record (slice e (length seq) seq)]) ∧
     (s ≥ min_len →
      (fasta_reverse_step primer min_len keep (n, written) record).2 =
      written ++ [fa_set_sequence record (slice 0 s seq)])) ∧
  (∀ written record,
     re_search primer (upper (fq_sequence record)) = None →
     keep = true → length (fq_sequence record) ≥ min_len →
     (fastq_forward_step primer min_len keep (n, written) record).2 =
       written ++ [record] ∧
     (fastq_reverse_step primer min_len keep (n, written) record).2 =
       written ++ [record]) ∧
  (∀ written record,
     re_search primer (upper (fa_sequence record)) = None →
     keep = true → length (fa_sequence record) ≥ min_len →
     (fasta_forward_step primer min_len keep (n, written) record).2 =
       written ++ [record] ∧
     (fasta_reverse_step primer min_len keep (n, written) record).2 =
       written ++ [record]).
Proof.
  split; [|split; [|split]].
  - intros written record seq s e -> Hs.
    pose proof (re_search_bounds _ _ _ _ Hs) as [Hse He].
    unfold fastq_forward_step, fastq_reverse_step. rewrite Hs.
    cbn [fq_set_sequence fq_set_quality fq_sequence fq_identifier
         fq_description fq_quality].
    rewrite length_drop, length_take, slice_to_end, slice_from_start.
    split; intros Hlen.
    + by apply Nat.leb_le in Hlen as ->.
    + replace (s `min` length (upper (fq_sequence record))) with s by lia.
      by apply Nat.leb_le in Hlen as ->.
  - intros written record seq s e -> Hs.
    pose proof (re_search_bounds _ _ _ _ Hs) as [Hse He].
    unfold fasta_forward_step, fasta_reverse_step. rewrite Hs.
    cbn [fa_set_sequence fa_sequence fa_identifier].
    rewrite length_drop, length_take, slice_to_end, slice_from_start.
    split; intros Hlen.
    + by apply Nat.leb_le in Hlen as ->.
    + replace (s `min` length (upper (fa_sequence record))) with s by lia.
      by apply Nat.leb_le in Hlen as ->.
  - intros written record Hs -> Hlen.
    unfold fastq_forward_step, fastq_reverse_step. rewrite Hs.
    by apply Nat.leb_le in Hlen as ->.
  - intros written record Hs -> Hlen.
    unfold fasta_forward_step, fasta_reverse_step. rewrite Hs.
    by apply Nat.leb_le in Hlen as ->.
Qed.

Lemma written_sequence_case_witness :
  re_search [[LITERAL "A"; LITERAL "C"]] (upper (s_ "ttacgg")) = Some (2, 4) ∧
  (fasta_forward_step [[LITERAL "A"; LITERAL "C"]] 1 false (no_counts, [])
     (FastaRecord (s_ "read") (s_ "ttacgg"))).2 =
  [FastaRecord (s_ "read") (s_ "GG")].
Proof.
  split; [reflexivity|].
  refine (proj1 (proj1 (proj2
    (written_sequence_case [[LITERAL "A"; LITERAL "C"]] 1 false no_counts))
    [] (FastaRecord (s_ "read") (s_ "ttacgg")) (s_ "TTACGG") 2 4 _ _) _).
  - reflexivity.
  - reflexivity.
  - simpl. lia.
Defined.

(** ** SFF records *)

Lemma same_but_annotation_refl key r : same_but_annotation key r r.
Proof. by repeat split. Qed.

Lemma same_but_annotation_set key r v :
  same_but_annotation key r (sff_set_annotation r key v).
Proof.
  repeat split. intros k Hk. simpl. by rewrite lookup_insert_ne.
Qed.

(** One pass of an SFF loop yields nothing or one record, which is the
    input record up to the clip annotation of the orientation. *)
Lemma sff_step_frame primer min_len keep (forward : bool) n yielded record n'
    yielded' :
  (if forward then sff_forward_step primer min_len keep (n, yielded) record
   else sff_reverse_step primer min_len keep (n, yielded) record)
  = Ok (n', yielded') →
  yielded' = yielded ∨
  ∃ r', yielded' = yielded ++ [r'] ∧
        same_but_annotation (clip_key forward) record r'.
Proof.
  destruct forward; unfold sff_forward_step, sff_reverse_step;
    (sff_clips record l r);
    simpl; intros H; repeat case_match; simplify_eq; auto;
    right; eexists; (split; [done|]);
    auto using same_but_annotation_refl, same_but_annotation_set.
Qed.

Lemma sff_loop_frame primer min_len keep (forward : bool) records :
  ∀ n yielded n' out,
  for_loop (if forward then sff_forward_step primer min_len keep
            else sff_reverse_step primer min_len keep) (n, yielded) records
  = Ok (n', out) →
  ∀ r', r' ∈ out →
    r' ∈ yielded ∨
    ∃ r, r ∈ records ∧ same_but_annotation (clip_key forward) r r'.
Proof.
  induction records as [|record records IH]; intros n yielded n' out; simpl.
  - intros [= <- <-] r' Hr'. by left.
  - destruct ((if forward then _ else _) (n, yielded) record)
      as [[n1 y1]|] eqn:Hstep; [|done].
    simpl. intros Hloop r' Hr'.
    destruct (IH _ _ _ _ Hloop r' Hr') as [Hin|(r & Hin & Hsame)].
    + assert (Hstep' :
        (if forward
         then sff_forward_step primer min_len keep (n, yielded) record
         else sff_reverse_step primer min_len keep (n, yielded) record)
        = Ok (n1, y1)) by (by destruct forward).
      apply sff_step_frame in Hstep' as [->|(r1 & -> & Hsame)]; [by left|].
      apply elem_of_app in Hin as [Hin|Hin%list_elem_of_singleton];
        [by left|subst r1].
      right. exists record. split; [left | done].
    + right. exists r. split; [by right | done].
Qed.

(** C9.  Every record an SFF run yields is one of the input records with
    the same identifier, the same full sequence, the same qualities and the
    same annotations (so the same flow data), except for [clip_qual_left]
    in a forward run and [clip_qual_right] in a reverse run. *)
Theorem sff_only_clip_window_changes primer min_len keep forward n records
    n' out r' :
  process primer min_len keep forward n records = Ok (n', out) →
  r' ∈ out →
  ∃ r, r ∈ records ∧ same_but_annotation (clip_key forward) r r'.
Proof.
  intros Hrun Hin. unfold process in Hrun.
  assert (Hloop :
    for_loop (if forward then sff_forward_step primer min_len keep
              else sff_reverse_step primer min_len keep) (n, []) records
    = Ok (n', out)) by (by destruct forward).
  destruct (sff_loop_frame _ _ _ _ _ _ _ _ _ Hloop r' Hin) as [Hnil|H];
    [by apply elem_of_nil in Hnil | done].
Qed.

Lemma sff_only_clip_window_changes_witness :
  ∃ r,
    r ∈ [SffRecord (s_ "read") (s_ "ttACgg") [30; 30; 30; 30; 30; 30]%Z
           (<["clip_qual_left"%string := ann_int 0]>
              (<["clip_qual_right"%string := ann_int 6]>
                 (<["flow_chars"%string := ann_str (s_ "TACG")]> ∅)))] ∧
    same_but_annotation "clip_qual_left" r
      (SffRecord (s_ "read") (s_ "ttACgg") [30; 30; 30; 30; 30; 30]%Z
         (<["clip_qual_left"%string := ann_int 4]>
            (<["clip_qual_right"%string := ann_int 6]>
               (<["flow_chars"%string := ann_str (s_ "TACG")]> ∅)))).
Proof.
  apply (sff_only_clip_window_changes [[LITERAL "A"; LITERAL "C"]] 1 false
           true no_counts _ (incr_clipped no_counts)
           [SffRecord (s_ "read") (s_ "ttACgg") [30; 30; 30; 30; 30; 30]%Z
              (<["clip_qual_left"%string := ann_int 4]>
                 (<["clip_qual_right"%string := ann_int 6]>
                    (<["flow_chars"%string := ann_str (s_ "TACG")]> ∅)))]).
  - vm_compute. reflexivity.
  - left.
Defined.

(** ** Counting *)

Lemma total_incr n :
  sum_counters (incr_clipped n) = sum_counters n + 1 ∧
  sum_counters (incr_short_clipped n) = sum_counters n + 1 ∧
  sum_counters (incr_negs n) = sum_counters n + 1 ∧
  sum_counters (incr_short_neg n) = sum_counters n + 1.
Proof. unfold sum_counters. simpl. lia. Qed.

Ltac count_step :=
  repeat case_match; simplify_eq; simpl;
  pose proof total_incr as Htotal;
  repeat match goal with
         | |- context [sum_counters (?f ?n)] =>
             lazymatch f with
             | incr_clipped => rewrite (proj1 (Htotal n))
             | incr_short_clipped => rewrite (proj1 (proj2 (Htotal n)))
             | incr_negs => rewrite (proj1 (proj2 (proj2 (Htotal n))))
             | incr_short_neg => rewrite (proj2 (proj2 (proj2 (Htotal n))))
             end
         end;
  try lia.

Lemma fastq_step_total primer min_len keep (forward : bool) st record :
  sum_counters ((if forward then fastq_forward_step primer min_len keep
          else fastq_reverse_step primer min_len keep) st record).1 =
  sum_counters st.1 +
  (if counted primer keep (upper (fq_sequence record)) then 1 else 0).
Proof.
  destruct st as [n written].
  destruct forward; unfold fastq_forward_step, fastq_reverse_step, counted;
    count_step.
Qed.

Lemma fasta_step_total primer min_len keep (forward : bool) st record :
  sum_counters ((if forward then fasta_forward_step primer min_len keep
          else fasta_reverse_step primer min_len keep) st record).1 =
  sum_counters st.1 +
  (if counted primer keep (upper (fa_sequence record)) then 1 else 0).
Proof.
  destruct st as [n written].
  destruct forward; unfold fasta_forward_step, fasta_reverse_step, counted;
    count_step.
Qed.

Lemma sff_step_total primer min_len keep (forward : bool) st record st' :
  (if forward then sff_forward_step primer min_len keep
   else sff_reverse_step primer min_len keep) st record = Ok st' →
  sum_counters st'.1 =
  sum_counters st.1 + (if sff_counted primer keep record then 1 else 0).
Proof.
  destruct st as [n yielded].
  destruct forward;
    unfold sff_forward_step, sff_reverse_step, sff_counted, sff_window,
      counted;
    (sff_clips record l r);
    simpl; intros H; count_step.
Qed.

Lemma foldl_total {R} (step : counters * list R → R → counters * list R)
    (f : R → bool) :
  (∀ st r, sum_counters (step st r).1 = sum_counters st.1 + (if f r then 1 else 0)) →
  ∀ reader st,
    sum_counters (foldl step st reader).1 = sum_counters st.1 + count_if f reader.
Proof.
  intros Hstep. unfold count_if.
  induction reader as [|r reader IH]; intros st; simpl; [lia|].
  rewrite IH, Hstep. destruct (f r); simpl; lia.
Qed.

Lemma for_loop_total {R} (body : counters * list R → R → result (counters * list R))
    (f : R → bool) :
  (∀ st r st', body st r = Ok st' →
               sum_counters st'.1 = sum_counters st.1 + (if f r then 1 else 0)) →
  ∀ records st st',
    for_loop body st records = Ok st' →
    sum_counters st'.1 = sum_counters st.1 + count_if f records.
Proof.
  intros Hstep. unfold count_if.
  induction records as [|r records IH]; intros st st'; simpl.
  - intros [= <-]. lia.
  - destruct (body st r) as [st1|] eqn:Hb; [|done]. simpl.
    intros Hl. rewrite (IH _ _ Hl), (Hstep _ _ _ Hb).
    destruct (f r); simpl; lia.
Qed.

Lemma count_if_all {A} (f : A → bool) l :
  (∀ x, x ∈ l → f x = true) → count_if f l = length l.
Proof.
  unfold count_if. induction l as [|x l IH]; intros H; simpl; [done|].
  rewrite (H x) by left. simpl. f_equal. apply IH.
  intros y Hy. apply H. by right.
Qed.

(** An SFF run that does not raise found the clip values of every record. *)
Lemma for_loop_sff_window primer min_len keep (forward : bool) records :
  ∀ st st',
  for_loop (if forward then sff_forward_step primer min_len keep
            else sff_reverse_step primer min_len keep) st records = Ok st' →
  ∀ r, r ∈ records → ∃ seq, sff_window r = Ok seq.
Proof.
  induction records as [|record records IH]; intros st st'; simpl.
  - intros _ r Hr. by apply elem_of_nil in Hr.
  - destruct ((if forward then _ else _) st record) as [st1|] eqn:Hb; [|done].
    simpl. intros Hl r [->|Hr]%elem_of_cons; [|by eapply IH].
    destruct st as [n y]. unfold sff_window.
    destruct forward; unfold sff_forward_step, sff_reverse_step in Hb;
      (sff_clips record l rr);
      simpl; eauto.
Qed.

Ltac moves_step :=
  unfold moves_one; repeat case_match; simplify_eq; simpl; auto.

Lemma fastq_step_moves primer min_len keep (forward : bool) n written record :
  if counted primer keep (upper (fq_sequence record))
  then moves_one n
         ((if forward then fastq_forward_step primer min_len keep
           else fastq_reverse_step primer min_len keep) (n, written) record).1
  else ((if forward then fastq_forward_step primer min_len keep
         else fastq_reverse_step primer min_len keep) (n, written) record).1
       = n.
Proof.
  destruct forward; unfold fastq_forward_step, fastq_reverse_step, counted;
    moves_step.
Qed.

Lemma fasta_step_moves primer min_len keep (forward : bool) n written record :
  if counted primer keep (upper (fa_sequence record))
  then moves_one n
         ((if forward then fasta_forward_step primer min_len keep
           else fasta_reverse_step primer min_len keep) (n, written) record).1
  else ((if forward then fasta_forward_step primer min_len keep
         else fasta_reverse_step primer min_len keep) (n, written) record).1
       = n.
Proof.
  destruct forward; unfold fasta_forward_step, fasta_reverse_step, counted;
    moves_step.
Qed.

Lemma sff_step_moves primer min_len keep (forward : bool) n yielded record n'
    yielded' :
  (if forward then sff_forward_step primer min_len keep
   else sff_reverse_step primer min_len keep) (n, yielded) record
  = Ok (n', yielded') →
  if sff_counted primer keep record then moves_one n n' else n' = n.
Proof.
  destruct forward;
    unfold sff_forward_step, sff_reverse_step, sff_counted, sff_window,
      counted;
    (sff_clips record l r);
    simpl; intros H; moves_step.
Qed.

(** C7, as the loops have it.  A record moves exactly one of the four
    counters when a pattern matches it or when keep-unmatched is on, and
    none when nothing matches and keep-unmatched is off.  So after a run,
    in either orientation and for each format, the four counters have
    grown by the number of such records; with keep-unmatched on that is the
    number of records read. *)
Theorem counters_count_matched_or_kept primer min_len keep (forward : bool)
    n :
  ((∀ written record,
      if counted primer keep (upper (fq_sequence record))
      then moves_one n
             ((if forward then fastq_forward_step primer min_len keep
               else fastq_reverse_step primer min_len keep)
                (n, written) record).1
      else ((if forward then fastq_forward_step primer min_len keep
             else fastq_reverse_step primer min_len keep)
              (n, written) record).1 = n) ∧
   (∀ written record,
      if counted primer keep (upper (fa_sequence record))
      then moves_one n
             ((if forward then fasta_forward_step primer min_len keep
               else fasta_reverse_step primer min_len keep)
                (n, written) record).1
      else ((if forward then fasta_forward_step primer min_len keep
             else fasta_reverse_step primer min_len keep)
              (n, written) record).1 = n) ∧
   (∀ yielded record n' yielded',
      (if forward then sff_forward_step primer min_len keep
       else sff_reverse_step primer min_len keep) (n, yielded) record
      = Ok (n', yielded') →
      if sff_counted primer keep record then moves_one n n' else n' = n)) ∧
  (∀ reader,
     sum_counters (clip_fastq primer min_len keep forward n reader).1 =
     sum_counters n +
     count_if (λ r, counted primer keep (upper (fq_sequence r))) reader) ∧
  (∀ reader,
     sum_counters (clip_fasta primer min_len keep forward n reader).1 =
     sum_counters n +
     count_if (λ r, counted primer keep (upper (fa_sequence r))) reader) ∧
  (∀ records n' out,
     process primer min_len keep forward n records = Ok (n', out) →
     sum_counters n' =
     sum_counters n + count_if (sff_counted primer keep) records) ∧
  (keep = true →
   (∀ reader,
      sum_counters (clip_fastq primer min_len keep forward n reader).1 =
      sum_counters n + length reader) ∧
   (∀ reader,
      sum_counters (clip_fasta primer min_len keep forward n reader).1 =
      sum_counters n + length reader) ∧
   (∀ records n' out,
      process primer min_len keep forward n records = Ok (n', out) →
      sum_counters n' = sum_counters n + length records)).
Proof.
  assert (Hfq : ∀ reader,
     sum_counters (clip_fastq primer min_len keep forward n reader).1 =
     sum_counters n +
     count_if (λ r, counted primer keep (upper (fq_sequence r))) reader).
  { intros reader. unfold clip_fastq.
    pose proof (foldl_total _ _
      (fastq_step_total primer min_len keep forward) reader (n, [])) as H.
    by destruct forward. }
  assert (Hfa : ∀ reader,
     sum_counters (clip_fasta primer min_len keep forward n reader).1 =
     sum_counters n +
     count_if (λ r, counted primer keep (upper (fa_sequence r))) reader).
  { intros reader. unfold clip_fasta.
    pose proof (foldl_total _ _
      (fasta_step_total primer min_len keep forward) reader (n, [])) as H.
    by destruct forward. }
  assert (Hloop : ∀ records n' out,
     process primer min_len keep forward n records = Ok (n', out) →
     for_loop (if forward then sff_forward_step primer min_len keep
               else sff_reverse_step primer min_len keep) (n, []) records
     = Ok (n', out)).
  { intros records n' out. unfold process. by destruct forward. }
  assert (Hsff : ∀ records n' out,
     process primer min_len keep forward n records = Ok (n', out) →
     sum_counters n' =
     sum_counters n + count_if (sff_counted primer keep) records).
  { intros records n' out Hrun%Hloop.
    apply (for_loop_total _ _
      (sff_step_total primer min_len keep forward)) in Hrun. done. }
  split.
  { split; [|split].
    - intros written record. apply fastq_step_moves.
    - intros written record. apply fasta_step_moves.
    - intros yielded record n' yielded'. apply sff_step_moves. }
  split; [done|]. split; [done|]. split; [done|].
  intros ->. split; [|split].
  - intros reader. rewrite Hfq, count_if_all; [done|].
    intros r _. unfold counted. by destruct (re_search _ _).
  - intros reader. rewrite Hfa, count_if_all; [done|].
    intros r _. unfold counted. by destruct (re_search _ _).
  - intros records n' out Hrun. rewrite (Hsff _ _ _ Hrun).
    rewrite count_if_all; [done|]. intros r Hr.
    apply Hloop in Hrun.
    destruct (for_loop_sff_window _ _ _ _ _ _ _ Hrun r Hr) as [seq Hw].
    unfold sff_counted, counted. rewrite Hw. by destruct (re_search _ _).
Qed.

Lemma counters_count_matched_or_kept_witness :
  sum_counters
    (clip_fastq [[LITERAL "A"; LITERAL "C"]] 3 true true no_counts
       [FastqRecord (s_ "r1") (s_ "ttacgggg") [] (s_ "IIIIIIII");
        FastqRecord (s_ "r2") (s_ "tt") [] (s_ "II");
        FastqRecord (s_ "r3") (s_ "ggggac") [] (s_ "IIIIII")]).1 =
  sum_counters no_counts + 3.
Proof.
  apply (proj1 (proj2 (proj2 (proj2 (proj2
    (counters_count_matched_or_kept [[LITERAL "A"; LITERAL "C"]] 3 true true
       no_counts)))) eq_refl)).
Defined.

(** With keep-unmatched off, a read without the primer moves no counter:
    one record is processed and the four counters sum to zero. *)
Lemma unmatched_record_not_counted :
  script (fun s => s) remove_dups
    (fastq_reads [FastqRecord (s_ "read") (s_ "TTTT") [] (s_ "IIII")])
    [FastaRecord (s_ "primer") (s_ "AACCGG")] forward_primer 0 0 false
  = Ok (Counters 0 0 0 0, fastq_reads []) ∧
  sum_counters (Counters 0 0 0 0) = 0 ∧
  length [FastqRecord (s_ "read") (s_ "TTTT") [] (s_ "IIII")] = 1.
Proof. repeat split. Qed.

(** ** Reading the generated patterns *)

Lemma parses_as_nil : parses_as [] [].
Proof. by intros rest branch branches H. Qed.

Lemma parses_as_app p q a b :
  parses_as p a → parses_as q b → parses_as (p ++ q) (a ++ b).
Proof.
  intros Hp Hq rest branch branches H.
  rewrite <- !app_assoc. apply Hp, Hq, H.
Qed.

Lemma parses_as_unique p a b : parses_as p a → parses_as p b → a = b.
Proof.
  intros Ha Hb.
  specialize (Ha [] [] [] eq_refl). specialize (Hb [] [] [] eq_refl).
  rewrite Ha in Hb. injection Hb as Hb. by rewrite !app_nil_r in Hb.
Qed.

Lemma parses_as_caret : parses_as (s_ "^") [AT_BEGINNING].
Proof. intros rest branch branches H. simpl. by rewrite H. Qed.

Lemma parses_as_dollar : parses_as (s_ "$") [AT_END].
Proof. intros rest branch branches H. simpl. by rewrite H. Qed.

Lemma getitem_re_parses letter r :
  getitem ambiguous_dna_re letter = Ok r → parses_as r [letter_atom letter].
Proof.
  unfold letter_atom, ambiguous_dna_re, ambiguous_dna_values.
  cbn -[Ascii.eqb].
  repeat match goal with
         | |- context [Ascii.eqb ?k letter] =>
             destruct (Ascii.eqb_spec k letter) as [<-|?];
             [intros [= <-]; intros rest branch branches H; simpl;
              by rewrite H|]
         end.
  done.
Qed.

Lemma result_bind_Ok {A B} (m : result A) (k : A → result B) b :
  m ≫= k = Ok b ↔ ∃ a, m = Ok a ∧ k a = Ok b.
Proof.
  destruct m as [a|e]; simpl; split.
  - intros H. by exists a.
  - by intros (a' & [= <-] & H).
  - done.
  - by intros (a' & [=] & _).
Qed.

Lemma make_reg_ex_parses seq p :
  make_reg_ex seq = Ok p → parses_as p (map letter_atom seq).
Proof.
  revert p. induction seq as [|letter seq IH]; intros p; simpl.
  - intros [= <-]. apply parses_as_nil.
  - intros (r & Hr & H)%result_bind_Ok.
    apply result_bind_Ok in H as (rs & Hrs & [= <-]).
    apply (parses_as_app r rs [_]); [by apply getitem_re_parses | by apply IH].
Qed.

Lemma re_parse_join p a l rx :
  parses_as p a → Forall2 parses_as l rx →
  re_parse false (join (s_ "|") (p :: l)) = Some ([], (a, rx)).
Proof.
  intros Hp Hl. revert p a Hp.
  induction Hl as [|q b l rx Hq Hl IH]; intros p a Hp.
  - simpl. specialize (Hp [] [] [] eq_refl).
    by rewrite !app_nil_r in Hp.
  - change (join (s_ "|") (p :: q :: l))
      with (p ++ s_ "|" ++ join (s_ "|") (q :: l)).
    specialize (IH q b Hq).
    assert (Hbar : re_parse false (s_ "|" ++ join (s_ "|") (q :: l))
                   = Some ([], ([], b :: rx))).
    { change (s_ "|" ++ ?x) with ("|" :: x).
      cbn [re_parse]. rewrite IH. reflexivity. }
    apply Hp in Hbar. by rewrite app_nil_r in Hbar.
Qed.

(** Compiling the alternation of patterns that read as [rx] gives [rx];
    the empty alternation is the empty pattern, a single empty branch. *)
Lemma re_compile_join l rx :
  Forall2 parses_as l rx →
  re_compile (join (s_ "|") l) = Some (if l is [] then [[]] else rx).
Proof.
  intros [|p a l' rx' Hp Hl]; [done|].
  unfold re_compile. by rewrite (re_parse_join p a l' rx').
Qed.

Lemma upper_char_idemp c : upper_char (upper_char c) = upper_char c.
Proof. by destruct c as [[] [] [] [] [] [] [] []]. Qed.

Lemma upper_idemp s : upper (upper s) = upper s.
Proof.
  unfold upper. rewrite map_map. apply map_ext, upper_char_idemp.
Qed.

Lemma for_each_elem {A B} (f : A → result B) l bs :
  for_each f l = Ok bs →
  ∀ b, b ∈ bs ↔ ∃ a, a ∈ l ∧ f a = Ok b.
Proof.
  revert bs. induction l as [|a l IH]; intros bs; simpl.
  - intros [= <-] b. split; [by intros ?%elem_of_nil|].
    by intros (a & ?%elem_of_nil & _).
  - intros (b0 & Hfa & H)%result_bind_Ok.
    apply result_bind_Ok in H as (bs0 & Hbs & [= <-]).
    intros b. rewrite elem_of_cons, (IH bs0 Hbs).
    split.
    + intros [->|(a' & Hin & Hf)]; [exists a | exists a'];
        (split; [|done]); [left | by right].
    + intros (a' & [->|Hin]%elem_of_cons & Hf).
      * left. congruence.
      * right. by exists a'.
Qed.

Lemma elem_of_concat {A} (x : A) (ls : list (list A)) :
  x ∈ concat ls ↔ ∃ l, l ∈ ls ∧ x ∈ l.
Proof.
  rewrite list_elem_of_In, in_concat. split.
  - intros (l & Hl & Hx). exists l. by rewrite !list_elem_of_In.
  - intros (l & Hl & Hx). exists l. by rewrite <- !list_elem_of_In.
Qed.

Lemma upper_drop_upper i seq : upper (drop i (upper seq)) = drop i (upper seq).
Proof. by rewrite upper_drop, upper_idemp. Qed.

Lemma upper_take_upper i seq : upper (take i (upper seq)) = take i (upper seq).
Proof. by rewrite upper_take, upper_idemp. Qed.

Lemma make_reg_ex_mm_rec_unfold depth seq mm :
  make_reg_ex_mm_rec depth seq mm =
  if 2 <? mm then Raise NotImplementedError else
  exact ← make_reg_ex (upper seq);
  truncated ←
    match depth with
    | 0 => Ok []
    | S depth' =>
        for_each (fun i =>
          heads ← make_reg_ex_mm_rec depth' (drop i (upper seq)) (mm - i);
          tails ← make_reg_ex_mm_rec depth'
                    (take (length (upper seq) - i) (upper seq)) (mm - i);
          Ok (map (app (s_ "^")) heads ++ map (app (s_ "$")) tails))
          (List.seq 1 mm)
    end;
  one ←
    (if 1 <=? mm
     then for_each (fun i => make_reg_ex (mask1 (upper seq) i))
            (List.seq 0 (length (upper seq)))
     else Ok []);
  two ←
    (if 2 <=? mm
     then for_each (fun i =>
            for_each (fun k => make_reg_ex (mask2 (upper seq) i k))
                     (List.seq 0 (length (drop (i + 1) (upper seq)))))
            (List.seq 0 (length (upper seq)))
     else Ok []);
  Ok (exact :: concat truncated ++ one ++ concat two).
Proof. by destruct depth. Qed.

(** The patterns of one call of [make_reg_ex_mm] are those of [yields]. *)
Lemma make_reg_ex_mm_rec_yields depth :
  ∀ s mm pats,
    mm ≤ depth → make_reg_ex_mm_rec depth s mm = Ok pats →
    ∀ p, p ∈ pats ↔ yields (upper s) mm p.
Proof.
  induction depth as [|depth IH]; intros s mm pats Hd H p.
  - assert (mm = 0) as -> by lia. simpl in H.
    apply result_bind_Ok in H as (exact & Hexact & [= <-]).
    rewrite list_elem_of_singleton. split.
    + intros ->. by apply yields_exact.
    + intros Hy. inversion Hy; subst; try lia. congruence.
  - rewrite make_reg_ex_mm_rec_unfold in H.
    destruct (2 <? mm) eqn:Hmm; [done|].
    apply result_bind_Ok in H as (exact & Hexact & H).
    apply result_bind_Ok in H as (truncated & Htr & H).
    apply result_bind_Ok in H as (one & Hone & H).
    apply result_bind_Ok in H as (two & Htwo & [= <-]).
    pose proof (for_each_elem _ _ _ Htr) as Htr'.
    assert (Hone' : ∀ q, q ∈ one ↔
      1 ≤ mm ∧ ∃ i, i < length (upper s) ∧
                     make_reg_ex (mask1 (upper s) i) = Ok q).
    { intros q. destruct (1 <=? mm) eqn:H1.
      - apply Nat.leb_le in H1. rewrite (for_each_elem _ _ _ Hone q).
        setoid_rewrite elem_of_seq. split.
        + intros (i & Hi & Hq). split; [done|]. exists i. split; [lia|done].
        + intros (_ & i & Hi & Hq). exists i. split; [lia|done].
      - apply Nat.leb_gt in H1. injection Hone as <-. split.
        + by intros ?%elem_of_nil.
        + intros [? _]. lia. }
    assert (Htwo' : ∀ q, q ∈ concat two ↔
      2 ≤ mm ∧ ∃ i k, i < length (upper s) ∧
                       k < length (drop (i + 1) (upper s)) ∧
                       make_reg_ex (mask2 (upper s) i k) = Ok q).
    { intros q. rewrite elem_of_concat. destruct (2 <=? mm) eqn:H2.
      - apply Nat.leb_le in H2. split.
        + intros (row & Hrow & Hq).
          apply (for_each_elem _ _ _ Htwo) in Hrow as (i & Hi & Hrow).
          apply (for_each_elem _ _ _ Hrow) in Hq as (k & Hk & Hq).
          apply elem_of_seq in Hi, Hk. split; [done|].
          exists i, k. repeat split; [lia|lia|done].
        + intros (_ & i & k & Hi & Hk & Hq).
          assert (Hin : i ∈ seq 0 (length (upper s)))
            by (apply elem_of_seq; lia).
          destruct (for_each (λ k, make_reg_ex (mask2 (upper s) i k))
                      (seq 0 (length (drop (i + 1) (upper s)))))
            as [row|e] eqn:Hrow.
          * exists row. split.
            -- apply (for_each_elem _ _ _ Htwo). by exists i.
            -- apply (for_each_elem _ _ _ Hrow). exists k.
               split; [apply elem_of_seq; lia | done].
          * exfalso. clear -Htwo Hin Hrow.
            revert two Htwo Hin. generalize (seq 0 (length (upper s))).
            intros l. induction l as [|j l IHl]; intros two Htwo Hin.
            -- by apply elem_of_nil in Hin.
            -- simpl in Htwo.
               apply result_bind_Ok in Htwo as (r0 & Hr0 & Htwo).
               apply result_bind_Ok in Htwo as (rs & Hrs & _).
               apply elem_of_cons in Hin as [->|Hin]; [congruence|].
               by eapply IHl.
      - apply Nat.leb_gt in H2. injection Htwo as <-. split.
        + by intros (row & ?%elem_of_nil & _).
        + intros [? _]. lia. }
    rewrite elem_of_cons, !elem_of_app, Hone', Htwo', elem_of_concat.
    split.
    + intros [->|[(l & Hl & Hp)|[(H1 & i & Hi & Hp)|(H2 & i & k & Hi & Hk & Hp)]]].
      * by apply yields_exact.
      * apply Htr' in Hl as (i & Hi & Hl). apply elem_of_seq in Hi.
        apply result_bind_Ok in Hl as (heads & Hheads & Hl).
        apply result_bind_Ok in Hl as (tails & Htails & [= <-]).
        apply elem_of_app in Hp as [Hp|Hp];
          apply list_elem_of_fmap in Hp as (p' & -> & Hp').
        -- apply (IH (drop i (upper s)) (mm - i) heads) in Hp'; [|lia|exact Hheads].
           rewrite upper_drop_upper in Hp'.
           apply yields_head with i; [lia | done].
        -- apply (IH (take (length (upper s) - i) (upper s)) (mm - i) tails) in Hp';
             [|lia|exact Htails].
           rewrite upper_take_upper in Hp'.
           apply yields_tail with i; [lia | done].
      * by apply yields_one with i.
      * by apply yields_two with i k.
    + intros Hy. inversion Hy as [mm' p' Hp|mm' i p' Hi Hp|mm' i p' Hi Hp
                                  |mm' i p' H1 Hi Hp|mm' i k p' H2 Hi Hk Hp];
        subst.
      * left. congruence.
      * right. left.
        assert (Hin : i ∈ seq 1 mm) by (apply elem_of_seq; lia).
        assert (Hf : ∃ l, l ∈ truncated ∧
          (heads ← make_reg_ex_mm_rec depth (drop i (upper s)) (mm - i);
           tails ← make_reg_ex_mm_rec depth
                     (take (length (upper s) - i) (upper s)) (mm - i);
           Ok (map (app (s_ "^")) heads ++ map (app (s_ "$")) tails))
          = Ok l).
        { clear -Htr Hin. revert truncated Htr Hin. generalize (seq 1 mm).
          intros l. induction l as [|j l IHl]; intros truncated Htr Hin.
          - by apply elem_of_nil in Hin.
          - simpl in Htr.
            apply result_bind_Ok in Htr as (r0 & Hr0 & Htr).
            apply result_bind_Ok in Htr as (rs & Hrs & [= <-]).
            apply elem_of_cons in Hin as [->|Hin].
            + exists r0. split; [left | done].
            + destruct (IHl _ Hrs Hin) as (l' & Hl' & Hf).
              exists l'. split; [by right | done]. }
        destruct Hf as (l & Hl & Hf). exists l. split; [done|].
        apply result_bind_Ok in Hf as (heads & Hheads & Hf).
        apply result_bind_Ok in Hf as (tails & Htails & [= <-]).
        apply elem_of_app. left. apply list_elem_of_fmap. exists p'.
        split; [done|]. apply (IH _ (mm - i) _ ltac:(lia) Hheads).
        by rewrite upper_drop_upper.
      * right. left.
        assert (Hin : i ∈ seq 1 mm) by (apply elem_of_seq; lia).
        assert (Hf : ∃ l, l ∈ truncated ∧
          (heads ← make_reg_ex_mm_rec depth (drop i (upper s)) (mm - i);
           tails ← make_reg_ex_mm_rec depth
                     (take (length (upper s) - i) (upper s)) (mm - i);
           Ok (map (app (s_ "^")) heads ++ map (app (s_ "$")) tails))
          = Ok l).
        { clear -Htr Hin. revert truncated Htr Hin. generalize (seq 1 mm).
          intros l. induction l as [|j l IHl]; intros truncated Htr Hin.
          - by apply elem_of_nil in Hin.
          - simpl in Htr.
            apply result_bind_Ok in Htr as (r0 & Hr0 & Htr).
            apply result_bind_Ok in Htr as (rs & Hrs & [= <-]).
            apply elem_of_cons in Hin as [->|Hin].
            + exists r0. split; [left | done].
            + destruct (IHl _ Hrs Hin) as (l' & Hl' & Hf).
              exists l'. split; [by right | done]. }
        destruct Hf as (l & Hl & Hf). exists l. split; [done|].
        apply result_bind_Ok in Hf as (heads & Hheads & Hf).
        apply result_bind_Ok in Hf as (tails & Htails & [= <-]).
        apply elem_of_app. right. apply list_elem_of_fmap. exists p'.
        split; [done|]. apply (IH _ (mm - i) _ ltac:(lia) Htails).
        by rewrite upper_take_upper.
      * right. right. left. split; [done|]. by exists i.
      * right. right. right. split; [done|]. by exists i, k.
Qed.

(** ** When generation succeeds *)

Lemma for_each_Ok_elem {A B} (f : A → result B) l bs a :
  for_each f l = Ok bs → a ∈ l → ∃ b, f a = Ok b ∧ b ∈ bs.
Proof.
  revert bs. induction l as [|a0 l IH]; intros bs H Hin.
  - by apply elem_of_nil in Hin.
  - simpl in H. apply result_bind_Ok in H as (b0 & Hb0 & H).
    apply result_bind_Ok in H as (bs0 & Hbs0 & [= <-]).
    apply elem_of_cons in Hin as [->|Hin].
    + exists b0. split; [done | left].
    + destruct (IH _ Hbs0 Hin) as (b & Hb & Hbin).
      exists b. split; [done | by right].
Qed.

Lemma for_each_total {A B} (f : A → result B) l :
  (∀ a, a ∈ l → ∃ b, f a = Ok b) → ∃ bs, for_each f l = Ok bs.
Proof.
  induction l as [|a l IH]; intros H; simpl; [by eexists|].
  destruct (H a) as [b Hb]; [left|]. rewrite Hb.
  destruct IH as [bs Hbs]; [intros a' Ha'; apply H; by right|].
  rewrite Hbs. by eexists.
Qed.

Lemma for_each_Raise {A B} (f : A → result B) l e :
  for_each f l = Raise e → ∃ a, a ∈ l ∧ f a = Raise e.
Proof.
  induction l as [|a l IH]; simpl; [done|].
  destruct (f a) as [b|e'] eqn:Hfa.
  - destruct (for_each f l) as [bs|e'']; [done|].
    intros [= <-]. destruct IH as (a' & Hin & Hf); [done|].
    exists a'. split; [by right | done].
  - intros [= <-]. exists a. split; [left | done].
Qed.

Lemma make_reg_ex_Ok seq :
  valid_seq seq = true ↔ ∃ p, make_reg_ex seq = Ok p.
Proof.
  unfold valid_seq. induction seq as [|letter seq IH].
  - split; [by eexists | done].
  - cbn [forallb make_reg_ex]. rewrite andb_true_iff, IH.
    unfold valid_letter.
    destruct (getitem ambiguous_dna_re letter) as [r|e] eqn:Hr.
    + split.
      * intros [_ [rs Hrs]]. exists (r ++ rs). by rewrite Hrs.
      * intros [p (r' & _ & (rs & Hrs & _)%result_bind_Ok)%result_bind_Ok].
        split; [done | by exists rs].
    + split; [by intros [? _]|].
      by intros [p (r' & ? & _)%result_bind_Ok].
Qed.

Lemma getitem_Raise d letter e :
  getitem d letter = Raise e → e = KeyError [letter].
Proof.
  induction d as [|[k v] d IH]; simpl; [by intros [= <-]|].
  by destruct (Ascii.eqb k letter).
Qed.

Lemma make_reg_ex_Raise seq e :
  make_reg_ex seq = Raise e → ∃ key, e = KeyError key.
Proof.
  induction seq as [|letter seq IH]; [done|]. cbn [make_reg_ex].
  destruct (getitem ambiguous_dna_re letter) as [r|e'] eqn:Hr.
  - destruct (make_reg_ex seq) as [rs|e'']; [done|].
    intros [= <-]. by apply IH.
  - intros [= <-]. apply getitem_Raise in Hr. by eexists.
Qed.

Lemma valid_seq_app a b :
  valid_seq (a ++ b) = valid_seq a && valid_seq b.
Proof. apply forallb_app. Qed.

Lemma valid_seq_take i seq : valid_seq seq = true → valid_seq (take i seq) = true.
Proof.
  intros H. rewrite <- (take_drop i seq), valid_seq_app in H.
  by apply andb_true_iff in H as [? _].
Qed.

Lemma valid_seq_drop i seq : valid_seq seq = true → valid_seq (drop i seq) = true.
Proof.
  intros H. rewrite <- (take_drop i seq), valid_seq_app in H.
  by apply andb_true_iff in H as [_ ?].
Qed.

Lemma valid_seq_mask1 seq i :
  valid_seq seq = true → valid_seq (mask1 seq i) = true.
Proof.
  intros H. unfold mask1. rewrite !valid_seq_app.
  by rewrite valid_seq_take, valid_seq_drop.
Qed.

Lemma valid_seq_mask2 seq i k :
  valid_seq seq = true → valid_seq (mask2 seq i k) = true.
Proof.
  intros H. unfold mask2, slice. rewrite !valid_seq_app.
  by rewrite !valid_seq_take, !valid_seq_drop by auto using valid_seq_take.
Qed.

Lemma result_bind_l {A B} (a : A) (k : A → result B) : Ok a ≫= k = k a.
Proof. done. Qed.

Lemma result_bind_raise {A B} e (k : A → result B) : Raise e ≫= k = Raise e.
Proof. done. Qed.

Ltac bind_step := rewrite ?result_bind_l, ?result_bind_raise; cbv beta.

(** With a budget of at most two and a primer over the table's letters,
    generation returns. *)
Lemma make_reg_ex_mm_rec_Ok depth :
  ∀ s mm, mm ≤ 2 → valid_seq (upper s) = true →
          ∃ pats, make_reg_ex_mm_rec depth s mm = Ok pats.
Proof.
  induction depth as [|depth IH]; intros s mm Hmm Hv.
  all: assert (Hone : ∃ one,
      (if 1 <=? mm
       then for_each (λ i, make_reg_ex (mask1 (upper s) i))
              (seq 0 (length (upper s)))
       else Ok []) = Ok one)
    by (destruct (1 <=? mm); [|by eexists];
        apply for_each_total; intros i _;
        by apply make_reg_ex_Ok, valid_seq_mask1).
  all: assert (Htwo : ∃ two,
      (if 2 <=? mm
       then for_each (λ i,
              for_each (λ k, make_reg_ex (mask2 (upper s) i k))
                (seq 0 (length (drop (i + 1) (upper s)))))
              (seq 0 (length (upper s)))
       else Ok []) = Ok two)
    by (destruct (2 <=? mm); [|by eexists];
        apply for_each_total; intros i _;
        apply for_each_total; intros k _;
        by apply make_reg_ex_Ok, valid_seq_mask2).
  all: rewrite make_reg_ex_mm_rec_unfold.
  all: apply Nat.ltb_ge in Hmm as Hlt; rewrite Hlt.
  all: destruct (proj1 (make_reg_ex_Ok _) Hv) as [exact ->]; bind_step.
  all: destruct Hone as [one Hone]; destruct Htwo as [two Htwo].
  - rewrite Hone. bind_step. rewrite Htwo. bind_step. by eexists.
  - assert (Htr : ∃ truncated,
      for_each (λ i,
        heads ← make_reg_ex_mm_rec depth (drop i (upper s)) (mm - i);
        tails ← make_reg_ex_mm_rec depth
                  (take (length (upper s) - i) (upper s)) (mm - i);
        Ok (map (app (s_ "^")) heads ++ map (app (s_ "$")) tails))
        (seq 1 mm) = Ok truncated).
    { apply for_each_total. intros i _.
      destruct (IH (drop i (upper s)) (mm - i)) as [heads ->];
        [lia | by rewrite upper_drop_upper; apply valid_seq_drop|].
      destruct (IH (take (length (upper s) - i) (upper s)) (mm - i))
        as [tails ->];
        [lia | by rewrite upper_take_upper; apply valid_seq_take|].
      by eexists. }
    destruct Htr as [truncated ->]. bind_step.
    rewrite Hone. bind_step. rewrite Htwo. bind_step. by eexists.
Qed.

(** With a budget of at most two, generation raises nothing but the
    [KeyError] of a letter that is not in the table. *)
Lemma make_reg_ex_mm_rec_Raise depth :
  ∀ s mm e, mm ≤ 2 → make_reg_ex_mm_rec depth s mm = Raise e →
            ∃ key, e = KeyError key.
Proof.
  induction depth as [|depth IH]; intros s mm e Hmm.
  all: assert (Hone : ∀ e1,
      (if 1 <=? mm
       then for_each (λ i, make_reg_ex (mask1 (upper s) i))
              (seq 0 (length (upper s)))
       else Ok []) = Raise e1 → ∃ key, e1 = KeyError key)
    by (intros e1; destruct (1 <=? mm); [|done];
        intros (i & _ & Hi)%for_each_Raise;
        by apply make_reg_ex_Raise in Hi).
  all: assert (Htwo : ∀ e2,
      (if 2 <=? mm
       then for_each (λ i,
              for_each (λ k, make_reg_ex (mask2 (upper s) i k))
                (seq 0 (length (drop (i + 1) (upper s)))))
              (seq 0 (length (upper s)))
       else Ok []) = Raise e2 → ∃ key, e2 = KeyError key)
    by (intros e2; destruct (2 <=? mm); [|done];
        intros (i & _ & (k & _ & Hk)%for_each_Raise)%for_each_Raise;
        by apply make_reg_ex_Raise in Hk).
  all: rewrite make_reg_ex_mm_rec_unfold.
  all: apply Nat.ltb_ge in Hmm as Hlt; rewrite Hlt.
  all: destruct (make_reg_ex (upper s)) as [exact|e0] eqn:Hexact;
       [|intros [= <-]; by apply make_reg_ex_Raise in Hexact]; bind_step.
  - destruct (if 1 <=? mm then _ else _) as [one|e1];
      [|intros [= <-]; by apply Hone]; bind_step.
    destruct (if 2 <=? mm then _ else _) as [two|e2];
      [done | intros [= <-]; by apply Htwo].
  - destruct (for_each _ (seq 1 mm)) as [truncated|e3] eqn:Htr.
    + bind_step.
      destruct (if 1 <=? mm then _ else _) as [one|e1];
        [|intros [= <-]; by apply Hone]; bind_step.
      destruct (if 2 <=? mm then _ else _) as [two|e2];
        [done | intros [= <-]; by apply Htwo].
    + intros [= <-]. apply for_each_Raise in Htr as (i & _ & Hi).
      destruct (make_reg_ex_mm_rec depth (drop i (upper s)) (mm - i))
        as [heads|e4] eqn:Hheads.
      * destruct (make_reg_ex_mm_rec depth
                    (take (length (upper s) - i) (upper s)) (mm - i))
          as [tails|e5] eqn:Htails; [done|].
        injection Hi as <-. eapply IH; [|exact Htails]. lia.
      * injection Hi as <-. eapply IH; [|exact Hheads]. lia.
Qed.

Lemma for_each_ext_in {A B} (f g : A → result B) l :
  (∀ a, a ∈ l → f a = g a) → for_each f l = for_each g l.
Proof.
  induction l as [|a l IH]; intros H; simpl; [done|].
  rewrite (H a) by left. rewrite IH; [done|].
  intros a' Ha'. apply H. by right.
Qed.

(** The depth given to [make_reg_ex_mm_rec] is enough as soon as it is at
    least the budget: a deeper call returns the same patterns. *)
Lemma make_reg_ex_mm_depth depth :
  ∀ depth' s mm,
    mm ≤ depth → mm ≤ depth' →
    make_reg_ex_mm_rec depth s mm = make_reg_ex_mm_rec depth' s mm.
Proof.
  induction depth as [|depth IH]; intros depth' s mm Hd Hd';
    rewrite (make_reg_ex_mm_rec_unfold _ s mm);
    rewrite (make_reg_ex_mm_rec_unfold depth' s mm).
  - assert (mm = 0) as -> by lia. by destruct depth'.
  - destruct depth' as [|depth'].
    + assert (mm = 0) as -> by lia. done.
    + destruct (2 <? mm); [done|].
      destruct (make_reg_ex (upper s)) as [exact|e]; [bind_step | done].
      f_equal. apply for_each_ext_in. intros i Hi%elem_of_seq.
      rewrite (IH depth' (drop i (upper s)) (mm - i)) by lia.
      by rewrite (IH depth' (take (length (upper s) - i) (upper s))
                    (mm - i)) by lia.
Qed.

(** ** From the primer file to the branches of the compiled pattern *)

Lemma yields_parses seq mm p : yields seq mm p → ∃ a, parses_as p a.
Proof.
  induction 1 as [s mm p Hp|s mm i p Hi _ [a IH]|s mm i p Hi _ [a IH]
                  |s mm i p _ _ Hp|s mm i k p _ _ _ Hp].
  - eexists. by apply make_reg_ex_parses.
  - eexists. apply parses_as_app; [apply parses_as_caret | exact IH].
  - eexists. apply parses_as_app; [apply parses_as_dollar | exact IH].
  - eexists. by apply make_reg_ex_parses.
  - eexists. by apply make_reg_ex_parses.
Qed.

Lemma insert_by_len_perm p l : insert_by_len p l ≡ₚ p :: l.
Proof.
  induction l as [|q l IH]; simpl; [done|].
  destruct (length q <=? length p); [done|].
  rewrite IH. apply Permutation_swap.
Qed.

Lemma sorted_by_len_perm l : sorted_by_len l ≡ₚ l.
Proof.
  unfold sorted_by_len. induction l as [|p l IH]; simpl; [done|].
  by rewrite insert_by_len_perm, IH.
Qed.

(** The patterns come out longest first. *)
Lemma insert_by_len_sorted p l :
  StronglySorted (λ a b, length b ≤ length a) l →
  StronglySorted (λ a b, length b ≤ length a) (insert_by_len p l).
Proof.
  induction 1 as [|q l Hs IH Hq]; simpl.
  - repeat constructor.
  - destruct (Nat.leb_spec (length q) (length p)) as [Hle|Hlt].
    + constructor; [by constructor|].
      constructor; [done|]. eapply Forall_impl; [exact Hq|].
      simpl. intros. lia.
    + constructor; [done|].
      rewrite insert_by_len_perm. constructor; [lia | done].
Qed.

Lemma sorted_by_len_sorted l :
  StronglySorted (λ a b, length b ≤ length a) (sorted_by_len l).
Proof.
  unfold sorted_by_len. induction l as [|p l IH]; simpl; [constructor|].
  by apply insert_by_len_sorted.
Qed.

Lemma Forall2_parses_exists l :
  (∀ p, p ∈ l → ∃ a, parses_as p a) → ∃ rx, Forall2 parses_as l rx.
Proof.
  induction l as [|p l IH]; intros H; [by exists []|].
  destruct (H p) as [a Ha]; [left|].
  destruct IH as [rx Hrx]; [intros q Hq; apply H; by right|].
  exists (a :: rx). by constructor.
Qed.

Lemma Forall2_parses_elem l rx a :
  Forall2 parses_as l rx → a ∈ rx ↔ ∃ p, p ∈ l ∧ parses_as p a.
Proof.
  induction 1 as [|p b l rx Hp _ IH].
  - split; [by intros ?%elem_of_nil | by intros (p & ?%elem_of_nil & _)].
  - rewrite elem_of_cons, IH. split.
    + intros [->|(q & Hq & Hqa)]; [exists p | exists q];
        (split; [|done]); [left | by right].
    + intros (q & [->|Hq]%elem_of_cons & Hqa).
      * left. by eapply parses_as_unique.
      * right. by exists q.
Qed.

(** The patterns added to the set are those each primer yields. *)
Lemma primer_patterns_elem reverse_complement records mm rc added :
  primer_patterns reverse_complement records mm rc = Ok added →
  ∀ p, p ∈ added ↔
       ∃ record, record ∈ records ∧
                 yields (upper (primer_seq reverse_complement rc record)) mm p.
Proof.
  unfold primer_patterns.
  intros (pats & Hpats & [= <-])%result_bind_Ok p.
  rewrite elem_of_concat. split.
  - intros (l & Hl & Hp).
    apply (for_each_elem _ _ _ Hpats) in Hl as (record & Hrec & Hl).
    exists record. split; [done|].
    by apply (make_reg_ex_mm_rec_yields mm
                (primer_seq reverse_complement rc record) mm l).
  - intros (record & Hrec & Hy).
    destruct (for_each_Ok_elem _ _ _ _ Hpats Hrec) as (l & Hl & Hin).
    exists l. split; [done|].
    by apply (make_reg_ex_mm_rec_yields mm
                (primer_seq reverse_complement rc record) mm l).
Qed.

Lemma primer_patterns_nil reverse_complement records mm rc added :
  primer_patterns reverse_complement records mm rc = Ok added →
  added = [] ↔ records = [].
Proof.
  intros H. split.
  - intros ->. destruct records as [|record records]; [done|].
    exfalso.
    unfold primer_patterns in H.
    apply result_bind_Ok in H as (pats & Hpats & [= Hc]).
    destruct (for_each_Ok_elem _ _ _ record Hpats) as (l & Hl & Hin);
      [left|].
    unfold make_reg_ex_mm in Hl. rewrite make_reg_ex_mm_rec_unfold in Hl.
    destruct (2 <? mm); [done|].
    apply result_bind_Ok in Hl as (exact & _ & Hl).
    apply result_bind_Ok in Hl as (tr & _ & Hl).
    apply result_bind_Ok in Hl as (one & _ & Hl).
    apply result_bind_Ok in Hl as (two & _ & [= <-]).
    assert (Hx : exact ∈ concat pats).
    { apply elem_of_concat. eexists. split; [exact Hin | left]. }
    rewrite Hc in Hx. by apply elem_of_nil in Hx.
  - intros ->. unfold primer_patterns in H. simpl in H. by injection H as <-.
Qed.

(** What [load_primers_as_re] compiles: for an empty primer file the empty
    pattern, and otherwise one branch for each pattern some primer yields,
    in some order. *)
Lemma load_primers_as_re_branches reverse_complement set_iter records mm rc
    count rx :
  set_order set_iter →
  load_primers_as_re reverse_complement set_iter records mm rc
    = Ok (count, rx) →
  count = length records ∧
  (records = [] → rx = [[]]) ∧
  (records ≠ [] →
   ∀ a, a ∈ rx ↔
        ∃ record p,
          record ∈ records ∧
          yields (upper (primer_seq reverse_complement rc record)) mm p ∧
          parses_as p a).
Proof.
  intros Hord. unfold load_primers_as_re.
  intros (added & Hadded & H)%result_bind_Ok.
  pose proof (primer_patterns_elem _ _ _ _ _ Hadded) as Helem.
  pose proof (primer_patterns_nil _ _ _ _ _ Hadded) as Hnil.
  destruct (Hord added) as [_ Hiter].
  assert (Hl : ∀ p, p ∈ sorted_by_len (set_iter added) ↔ p ∈ added).
  { intros p. by rewrite sorted_by_len_perm, Hiter. }
  destruct (Forall2_parses_exists (sorted_by_len (set_iter added)))
    as [rx' Hrx'].
  { intros p Hp. apply Hl, Helem in Hp as (record & _ & Hy).
    by eapply yields_parses. }
  rewrite (re_compile_join _ _ Hrx') in H. injection H as <- <-.
  split; [done|]. split.
  - intros Hrec. apply Hnil in Hrec.
    destruct (sorted_by_len (set_iter added)) as [|p l] eqn:Hs; [done|].
    exfalso. assert (Hp : p ∈ added) by (apply Hl; left).
    rewrite Hrec in Hp. by apply elem_of_nil in Hp.
  - intros Hrec a.
    destruct (sorted_by_len (set_iter added)) as [|p0 l] eqn:Hs.
    + exfalso. apply Hrec, Hnil.
      destruct added as [|p added']; [done|].
      assert (Hp : p ∈ []) by (apply Hl; left). by apply elem_of_nil in Hp.
    + rewrite (Forall2_parses_elem _ _ a Hrx'). split.
      * intros (p & Hp & Hpa). apply Hl, Helem in Hp as (record & Hin & Hy).
        by exists record, p.
      * intros (record & p & Hin & Hy & Hpa). exists p. split; [|done].
        apply Hl, Helem. by exists record.
Qed.

(** Whatever the primers, the pattern text handed to [re.compile] is in
    the fragment [re_compile] reads. *)
Lemma primer_patterns_compile reverse_complement set_iter records mm rc added :
  set_order set_iter →
  primer_patterns reverse_complement records mm rc = Ok added →
  ∃ rx, re_compile (join (s_ "|") (sorted_by_len (set_iter added))) = Some rx.
Proof.
  intros Hord Hadded.
  pose proof (primer_patterns_elem _ _ _ _ _ Hadded) as Helem.
  destruct (Hord added) as [_ Hiter].
  destruct (Forall2_parses_exists (sorted_by_len (set_iter added)))
    as [rx' Hrx'].
  { intros p Hp. rewrite sorted_by_len_perm in Hp.
    apply Hiter, Helem in Hp as (record & _ & Hy). by eapply yields_parses. }
  rewrite (re_compile_join _ _ Hrx'). by eexists.
Qed.

Lemma load_primers_as_re_Raise reverse_complement set_iter records mm rc e :
  set_order set_iter → mm ≤ 2 →
  load_primers_as_re reverse_complement set_iter records mm rc = Raise e →
  ∃ key, e = KeyError key.
Proof.
  intros Hord Hmm. unfold load_primers_as_re.
  destruct (primer_patterns reverse_complement records mm rc)
    as [added|e'] eqn:Hadded.
  - bind_step.
    destruct (primer_patterns_compile _ _ _ _ _ _ Hord Hadded) as [rx ->].
    done.
  - intros [= <-]. unfold primer_patterns in Hadded.
    destruct (for_each _ records) as [pats|e''] eqn:Hpats; [done|].
    injection Hadded as <-.
    apply for_each_Raise in Hpats as (record & _ & Hr).
    by eapply make_reg_ex_mm_rec_Raise.
Qed.

Lemma load_primers_as_re_Ok reverse_complement set_iter records mm rc :
  set_order set_iter → mm ≤ 2 →
  (∀ record, record ∈ records →
     valid_seq (upper (primer_seq reverse_complement rc record)) = true) →
  ∃ rx, load_primers_as_re reverse_complement set_iter records mm rc
        = Ok (length records, rx).
Proof.
  intros Hord Hmm Hv. unfold load_primers_as_re.
  assert (Hadded : ∃ added,
    primer_patterns reverse_complement records mm rc = Ok added).
  { unfold primer_patterns.
    destruct (for_each_total
      (λ record, make_reg_ex_mm
         (if rc then reverse_complement (fa_sequence record)
          else fa_sequence record) mm) records) as [pats ->].
    - intros record Hrec. by apply make_reg_ex_mm_rec_Ok, Hv.
    - by eexists. }
  destruct Hadded as [added Hadded]. rewrite Hadded. bind_step.
  destruct (primer_patterns_compile _ _ _ _ _ _ Hord Hadded) as [rx ->].
  by eexists.
Qed.

(** C8.  A mismatch count above two makes pattern generation raise
    [NotImplementedError], and with it the load of any primer and the
    whole script, before a single read is looked at.  For the counts 0, 1
    and 2 that error never occurs: generation and the build of the matcher
    return, the one exception left being the [KeyError] of a primer letter
    outside the ambiguity table. *)
Theorem mismatch_count_limit :
  (∀ seq mm, 2 < mm → make_reg_ex_mm seq mm = Raise NotImplementedError) ∧
  (∀ reverse_complement set_iter records mm rc,
     2 < mm → records ≠ [] →
     load_primers_as_re reverse_complement set_iter records mm rc
       = Raise NotImplementedError) ∧
  (∀ reverse_complement set_iter input primer_fasta type mm min_len keep,
     (2 < mm)%Z →
     script reverse_complement set_iter input primer_fasta type mm min_len
       keep = Raise NotImplementedError) ∧
  (∀ mm, (0 ≤ mm ≤ 2)%Z → check_mm mm = Ok (Z.to_nat mm)) ∧
  (∀ seq mm,
     mm ≤ 2 →
     (∀ e, make_reg_ex_mm seq mm = Raise e → ∃ key, e = KeyError key) ∧
     (valid_seq (upper seq) = true →
      ∃ pats, make_reg_ex_mm seq mm = Ok pats)) ∧
  (∀ reverse_complement set_iter records mm rc,
     set_order set_iter → mm ≤ 2 →
     (∀ e, load_primers_as_re reverse_complement set_iter records mm rc
             = Raise e → ∃ key, e = KeyError key) ∧
     ((∀ record, record ∈ records →
         valid_seq (upper (primer_seq reverse_complement rc record)) = true) →
      ∃ rx, load_primers_as_re reverse_complement set_iter records mm rc
            = Ok (length records, rx))).
Proof.
  assert (Hgen : ∀ seq mm,
    2 < mm → make_reg_ex_mm seq mm = Raise NotImplementedError).
  { intros s mm Hmm. unfold make_reg_ex_mm.
    rewrite make_reg_ex_mm_rec_unfold. by apply Nat.ltb_lt in Hmm as ->. }
  split; [done|]. split; [|split; [|split; [|split]]].
  - intros rc_fn set_iter [|record records] mm rc Hmm Hne; [done|].
    unfold load_primers_as_re, primer_patterns. cbn [for_each].
    by rewrite Hgen.
  - intros rc_fn set_iter input primer_fasta type mm min_len keep Hmm.
    unfold script, check_mm.
    destruct (mm <? 0)%Z eqn:Hneg; [lia|].
    rewrite bool_decide_eq_false_2; [done|].
    rewrite !elem_of_cons, elem_of_nil. lia.
  - intros mm Hmm. unfold check_mm.
    destruct (mm <? 0)%Z eqn:Hneg; [lia|].
    rewrite bool_decide_eq_true_2; [done|].
    rewrite !elem_of_cons. lia.
  - intros s mm Hmm. split.
    + intros e. by apply make_reg_ex_mm_rec_Raise.
    + by apply make_reg_ex_mm_rec_Ok.
  - intros rc_fn set_iter records mm rc Hord Hmm. split.
    + intros e. by apply load_primers_as_re_Raise.
    + by apply load_primers_as_re_Ok.
Qed.

Lemma mismatch_count_limit_witness :
  ∃ pats, make_reg_ex_mm (s_ "acgtmrwsykvhdbxn") 2 = Ok pats.
Proof.
  apply (proj2 (proj1 (proj2 (proj2 (proj2 (proj2 mismatch_count_limit))))
                  (s_ "acgtmrwsykvhdbxn") 2 (le_n 2))).
  reflexivity.
Defined.

(** ** How the branches match *)

Lemma letter_atom_consumes letter : is_anchor (letter_atom letter) = false.
Proof.
  unfold letter_atom.
  destruct (getitem ambiguous_dna_values letter) as [[|c [|c' v]]|e];
    try done.
  by destruct (Ascii.eqb c ".").
Qed.

Lemma match_here_letters w : ∀ pos rest,
  match_here (map letter_atom w) pos rest =
  if letters_match w rest then Some (pos + length w) else None.
Proof.
  induction w as [|letter w IH]; intros pos rest; simpl.
  - by rewrite Nat.add_0_r.
  - pose proof (letter_atom_consumes letter) as Hc.
    destruct (letter_atom letter) as [| | |x|cs]; try done;
      destruct rest as [|c rest]; simpl; try done.
    + destruct (Ascii.eqb c newline); simpl; [done|].
      rewrite IH. by replace (S pos + length w) with (pos + S (length w)) by lia.
    + destruct (Ascii.eqb c x); simpl; [|done].
      rewrite IH. by replace (S pos + length w) with (pos + S (length w)) by lia.
    + destruct (existsb (Ascii.eqb c) cs); simpl; [|done].
      rewrite IH. by replace (S pos + length w) with (pos + S (length w)) by lia.
Qed.

Lemma letters_match_length w rest :
  letters_match w rest = true → length w ≤ length rest.
Proof.
  revert rest. induction w as [|letter w IH]; intros [|c rest]; simpl;
    try done; try lia.
  intros [_ H]%andb_true_iff. apply IH in H. lia.
Qed.

Lemma letters_match_app_r w rest extra :
  letters_match w rest = true → letters_match w (rest ++ extra) = true.
Proof.
  revert rest. induction w as [|letter w IH]; intros [|c rest]; simpl;
    try done.
  intros [H1 H2]%andb_true_iff. by rewrite H1, IH.
Qed.

Lemma letters_match_app w1 w2 r1 r2 :
  length w1 = length r1 →
  letters_match (w1 ++ w2) (r1 ++ r2) =
  letters_match w1 r1 && letters_match w2 r2.
Proof.
  revert r1. induction w1 as [|letter w1 IH]; intros [|c r1]; simpl;
    try done.
  intros [= Hlen]. by rewrite IH, andb_assoc.
Qed.

(** Position by position. *)
Lemma letters_match_lookup w rest :
  letters_match w rest = true ↔
  length w ≤ length rest ∧
  ∀ q letter c, w !! q = Some letter → rest !! q = Some c →
                atom_accepts (letter_atom letter) c = true.
Proof.
  revert rest. induction w as [|letter w IH]; intros rest; simpl.
  - split; [|done]. intros _. split; [lia|]. by intros q ? ? ?.
  - destruct rest as [|c rest]; simpl.
    + split; [done | intros [? _]; lia].
    + rewrite andb_true_iff, IH. split.
      * intros (Ha & Hlen & Hq). split; [lia|].
        intros [|q] l' c'; simpl; [by intros [= <-] [= <-]|]. apply Hq.
      * intros (Hlen & Hq). split; [by apply (Hq 0)|]. split; [lia|].
        intros q l' c'. apply (Hq (S q)).
Qed.

(** No letter of the table accepts a newline. *)
Lemma valid_letter_rejects_newline letter :
  valid_letter letter = true →
  atom_accepts (letter_atom letter) newline = false.
Proof.
  unfold valid_letter, letter_atom, ambiguous_dna_re, ambiguous_dna_values.
  cbn -[Ascii.eqb atom_accepts].
  repeat match goal with
         | |- context [Ascii.eqb ?k letter] =>
             destruct (Ascii.eqb_spec k letter) as [<-|?]; [done|]
         end.
  done.
Qed.

Lemma letters_match_at_end w rest :
  valid_seq w = true → w ≠ [] → at_end rest = true →
  letters_match w rest = false.
Proof.
  destruct w as [|letter w]; [done|]. intros Hv _ Hend.
  apply andb_true_iff in Hv as [Hv _].
  destruct rest as [|c [|c' rest]]; simpl in *; try done.
  apply Ascii.eqb_eq in Hend as ->.
  by rewrite valid_letter_rejects_newline.
Qed.

Lemma unambiguous_letter letter :
  existsb (Ascii.eqb letter) (s_ "ACGT") = true →
  letter_atom letter = LITERAL letter ∧ valid_letter letter = true.
Proof.
  simpl. rewrite !orb_true_iff.
  intros [H|[H|[H|[H|H]]]]; try done; apply Ascii.eqb_eq in H as ->; done.
Qed.

Lemma unambiguous_valid seq : unambiguous seq = true → valid_seq seq = true.
Proof.
  unfold unambiguous, valid_seq. rewrite !forallb_forall.
  intros H c Hc. by apply unambiguous_letter, H.
Qed.

Lemma letters_match_unambiguous w rest :
  unambiguous w = true →
  letters_match w rest = bool_decide (w `prefix_of` rest).
Proof.
  revert rest. induction w as [|letter w IH]; intros rest Hu.
  - symmetry. apply bool_decide_eq_true_2. apply prefix_nil.
  - apply andb_true_iff in Hu as [Hl Hu].
    destruct rest as [|c rest]; cbn [letters_match].
    + symmetry. apply bool_decide_eq_false_2. intros [k Hk]. done.
    + destruct (unambiguous_letter _ Hl) as [-> _].
      rewrite (IH rest Hu). cbn [atom_accepts].
      destruct (Ascii.eqb_spec c letter) as [->|Hne].
      * rewrite andb_true_l. apply bool_decide_ext. split.
        -- by apply prefix_cons.
        -- by intros ?%prefix_cons_inv_2.
      * rewrite andb_false_l. symmetry. apply bool_decide_eq_false_2.
        by intros ?%prefix_cons_inv_1.
Qed.

(** ** Exact matching *)

Lemma set_order_singleton set_iter p :
  set_order set_iter → set_iter [p] = [p].
Proof.
  intros Hord. destruct (Hord [p]) as [Hnd Hin].
  destruct (set_iter [p]) as [|q l].
  - assert (Hp : p ∈ []) by (apply Hin; left). by apply elem_of_nil in Hp.
  - assert (q = p) as -> by (apply list_elem_of_singleton, Hin; left).
    apply NoDup_cons in Hnd as [Hq Hnd].
    destruct l as [|q' l]; [done|].
    assert (q' = p) as -> by (apply list_elem_of_singleton, Hin; right; left).
    exfalso. apply Hq. left.
Qed.

(** With no mismatch allowed, one primer compiles to one branch, its
    letters read through the table. *)
Lemma load_one_primer_exact reverse_complement set_iter record :
  set_order set_iter →
  valid_seq (upper (fa_sequence record)) = true →
  load_primers_as_re reverse_complement set_iter [record] 0 false =
  Ok (1, [map letter_atom (upper (fa_sequence record))]).
Proof.
  intros Hord Hv. unfold load_primers_as_re, primer_patterns.
  cbn [for_each]. unfold make_reg_ex_mm.
  rewrite make_reg_ex_mm_rec_unfold. cbn [Nat.ltb Nat.leb].
  destruct (proj1 (make_reg_ex_Ok _) Hv) as [exact Hexact].
  rewrite Hexact. repeat (bind_step; cbn [concat app]).
  rewrite (set_order_singleton _ _ Hord).
  cbn [sorted_by_len foldr insert_by_len length].
  rewrite (re_compile_join [exact] [map letter_atom (upper (fa_sequence record))]).
  - done.
  - repeat constructor. by apply make_reg_ex_parses.
Qed.

Lemma search_from_literal w : ∀ pos rest,
  unambiguous w = true →
  search_from [map letter_atom w] pos rest =
  (i ← find_from w pos rest; Some (i, i + length w)).
Proof.
  intros pos rest Hu. revert pos.
  induction rest as [|c rest IH]; intros pos;
    cbn [search_from match_first find_from];
    rewrite match_here_letters, letters_match_unambiguous by done;
    destruct (bool_decide _); auto.
Qed.

Lemma find_from_Some sub pos rest i :
  find_from sub pos rest = Some i →
  pos ≤ i ∧ sub `prefix_of` drop (i - pos) rest ∧
  ∀ k, pos ≤ k < i → ¬ sub `prefix_of` drop (k - pos) rest.
Proof.
  revert pos. induction rest as [|c rest IH]; intros pos;
    cbn [find_from]; case_bool_decide as Hp; try done.
  - intros [= <-]. rewrite Nat.sub_diag. split; [done|]. split; [done|lia].
  - intros [= <-]. rewrite Nat.sub_diag. split; [done|]. split; [done|lia].
  - intros (Hle & Hpre & Hleft)%IH.
    replace (i - pos) with (S (i - S pos)) by lia.
    split; [lia|]. split; [done|].
    intros k Hk. destruct (decide (k = pos)) as [->|Hne].
    + by rewrite Nat.sub_diag.
    + replace (k - pos) with (S (k - S pos)) by lia. apply Hleft. lia.
Qed.

Lemma find_from_None sub pos rest :
  find_from sub pos rest = None →
  ∀ k, ¬ sub `prefix_of` drop k rest.
Proof.
  revert pos. induction rest as [|c rest IH]; intros pos;
    cbn [find_from]; case_bool_decide as Hp; try done.
  - intros _ k. by rewrite drop_nil.
  - intros H [|k]; [done|]. simpl. by eapply IH.
Qed.

(** [find] returns the leftmost offset at which [sub] occurs, and [None]
    when it occurs nowhere. *)
Lemma find_spec sub s :
  match find sub s with
  | Some i => sub `prefix_of` drop i s ∧ ∀ k, k < i → ¬ sub `prefix_of` drop k s
  | None => ∀ before after, s ≠ before ++ sub ++ after
  end.
Proof.
  unfold find. destruct (find_from sub 0 s) as [i|] eqn:Hf.
  - apply find_from_Some in Hf as (_ & Hpre & Hleft).
    rewrite Nat.sub_0_r in Hpre. split; [done|].
    intros k Hk. specialize (Hleft k). rewrite Nat.sub_0_r in Hleft.
    apply Hleft. lia.
  - intros before after ->.
    apply (find_from_None _ _ _ Hf (length before)).
    rewrite drop_app_length. by exists after.
Qed.

Lemma find_is_Some sub s :
  is_Some (find sub s) ↔ ∃ before after, s = before ++ sub ++ after.
Proof.
  pose proof (find_spec sub s) as H.
  destruct (find sub s) as [i|]; split.
  - intros _. destruct H as [[after Hafter] _].
    exists (take i s), after. by rewrite <- Hafter, take_drop.
  - by intros _.
  - by intros [? ?].
  - intros (before & after & Hs). by destruct (H before after).
Qed.

(** C3.  With no mismatch allowed and a primer of the four bases only,
    the compiled matcher is the plain substring search for the upper-cased
    primer: the search returns the span of the leftmost occurrence that
    [find] returns, and so finds a match exactly when the upper-cased
    primer is a contiguous substring of the target. *)
Theorem exact_match_is_substring_search reverse_complement set_iter record :
  set_order set_iter →
  unambiguous (upper (fa_sequence record)) = true →
  ∃ rx,
    load_primers_as_re reverse_complement set_iter [record] 0 false
      = Ok (1, rx) ∧
    ∀ target,
      re_search rx target =
        (i ← find (upper (fa_sequence record)) target;
         Some (i, i + length (fa_sequence record))) ∧
      (is_Some (re_search rx target) ↔
       ∃ before after,
         target = before ++ upper (fa_sequence record) ++ after).
Proof.
  intros Hord Hu. eexists. split.
  - apply load_one_primer_exact; [done | by apply unambiguous_valid].
  - intros target.
    assert (Hs : re_search [map letter_atom (upper (fa_sequence record))]
                   target =
                 (i ← find (upper (fa_sequence record)) target;
                  Some (i, i + length (fa_sequence record)))).
    { unfold re_search, find. rewrite search_from_literal by done.
      by rewrite length_upper. }
    split; [done|]. rewrite Hs, <- find_is_Some.
    destruct (find _ target); simpl; [|done].
    split; intros _; by eexists.
Qed.

Lemma remove_dups_order : set_order remove_dups.
Proof.
  intros added. split; [apply NoDup_remove_dups|].
  intros p. apply elem_of_remove_dups.
Qed.

Lemma exact_match_is_substring_search_witness :
  ∃ rx,
    load_primers_as_re (λ s, s) remove_dups
      [FastaRecord (s_ "primer") (s_ "aaccgg")] 0 false = Ok (1, rx) ∧
    ∀ target,
      re_search rx target =
        (i ← find (upper (s_ "aaccgg")) target;
         Some (i, i + length (s_ "aaccgg"))) ∧
      (is_Some (re_search rx target) ↔
       ∃ before after, target = before ++ upper (s_ "aaccgg") ++ after).
Proof.
  apply (exact_match_is_substring_search (λ s, s) remove_dups
           (FastaRecord (s_ "primer") (s_ "aaccgg"))).
  - apply remove_dups_order.
  - reflexivity.
Defined.

(** ** One mismatch *)

Lemma mask1_insert seq i :
  i < length seq → mask1 seq i = <[i := "N"]> seq.
Proof.
  intros Hi. unfold mask1. rewrite insert_take_drop by done.
  by rewrite Nat.add_1_r.
Qed.

Lemma length_mask1 seq i : i < length seq → length (mask1 seq i) = length seq.
Proof. intros Hi. by rewrite mask1_insert, length_insert. Qed.

Lemma unambiguous_app a b :
  unambiguous (a ++ b) = unambiguous a && unambiguous b.
Proof. apply forallb_app. Qed.

Lemma unambiguous_take i seq :
  unambiguous seq = true → unambiguous (take i seq) = true.
Proof.
  intros H. rewrite <- (take_drop i seq), unambiguous_app in H.
  by apply andb_true_iff in H as [? _].
Qed.

Lemma unambiguous_drop i seq :
  unambiguous seq = true → unambiguous (drop i seq) = true.
Proof.
  intros H. rewrite <- (take_drop i seq), unambiguous_app in H.
  by apply andb_true_iff in H as [_ ?].
Qed.

Lemma unambiguous_lookup seq q letter :
  unambiguous seq = true → seq !! q = Some letter →
  existsb (Ascii.eqb letter) (s_ "ACGT") = true.
Proof.
  intros Hu Hq. unfold unambiguous in Hu. rewrite forallb_forall in Hu.
  apply Hu, list_elem_of_In. by eapply list_elem_of_lookup_2.
Qed.

Lemma unambiguous_accepts letter c :
  existsb (Ascii.eqb letter) (s_ "ACGT") = true →
  atom_accepts (letter_atom letter) c = true → c = letter.
Proof.
  intros Hl. destruct (unambiguous_letter _ Hl) as [-> _]. simpl.
  by intros ?%Ascii.eqb_eq.
Qed.

Lemma letters_match_refl w : unambiguous w = true → letters_match w w = true.
Proof.
  intros Hu. rewrite letters_match_unambiguous by done.
  by apply bool_decide_eq_true_2.
Qed.

(** An unambiguous word that accepts a target of its own length is that
    target. *)
Lemma letters_match_same_length w target :
  unambiguous w = true → length target = length w →
  letters_match w target = true → target = w.
Proof.
  intros Hu Hlen Hm. rewrite letters_match_unambiguous in Hm by done.
  apply bool_decide_eq_true_1 in Hm as [k Hk].
  rewrite Hk, length_app in Hlen.
  assert (k = []) as -> by (apply nil_length_inv; lia).
  by rewrite app_nil_r in Hk.
Qed.

Lemma yields_0 seq p : yields seq 0 p ↔ make_reg_ex seq = Ok p.
Proof.
  split; [|apply yields_exact].
  intros Hy. inversion Hy; subst; try lia. done.
Qed.

(** With several primers and no mismatch allowed, a target matches
    exactly when one of the upper-cased primers is a substring of it. *)
Lemma exact_match_any_primer reverse_complement set_iter records rc count rx
    target :
  set_order set_iter → records ≠ [] →
  (∀ r, r ∈ records →
        unambiguous (upper (primer_seq reverse_complement rc r)) = true) →
  load_primers_as_re reverse_complement set_iter records 0 rc
    = Ok (count, rx) →
  is_Some (re_search rx target) ↔
  ∃ r before after,
    r ∈ records ∧
    target = before ++ upper (primer_seq reverse_complement rc r) ++ after.
Proof.
  intros Hord Hne Hu Hload.
  destruct (load_primers_as_re_branches _ _ _ _ _ _ _ Hord Hload)
    as (_ & _ & Hbr).
  specialize (Hbr Hne). split.
  - intros [[st e] Hs].
    apply re_search_Some in Hs as [(b & Hb & Hm) _].
    apply Hbr in Hb as (r & p & Hr & Hy%yields_0 & Hp).
    rewrite (parses_as_unique _ _ _ Hp (make_reg_ex_parses _ _ Hy)) in Hm.
    rewrite match_here_letters in Hm.
    destruct (letters_match _ (drop st target)) eqn:Hlm; [|done].
    rewrite letters_match_unambiguous in Hlm by auto.
    apply bool_decide_eq_true_1 in Hlm as [after Hafter].
    exists r, (take st target), after. split; [done|].
    by rewrite <- Hafter, take_drop.
  - intros (r & before & after & Hr & ->).
    destruct (proj1 (make_reg_ex_Ok
                (upper (primer_seq reverse_complement rc r)))) as [p Hp];
      [by apply unambiguous_valid, Hu|].
    apply (re_search_is_Some rx _
             (map letter_atom (upper (primer_seq reverse_complement rc r)))
             (length before)
             (length before +
              length (upper (primer_seq reverse_complement rc r)))).
    + apply Hbr. exists r, p. split; [done|].
      split; [by apply yields_0 | by apply make_reg_ex_parses].
    + rewrite length_app. lia.
    + rewrite match_here_letters, drop_app_length.
      rewrite letters_match_unambiguous by auto.
      rewrite bool_decide_eq_true_2; [done|]. by exists after.
Qed.

(** The patterns for a budget of one: the primer, the primer without its
    first base behind "^", the primer without its last base behind "$",
    and the primer with one position masked. *)
Lemma yields_1 seq p :
  yields seq 1 p ↔
  make_reg_ex seq = Ok p ∨
  (∃ p', p = s_ "^" ++ p' ∧ make_reg_ex (drop 1 seq) = Ok p') ∨
  (∃ p', p = s_ "$" ++ p' ∧
         make_reg_ex (take (length seq - 1) seq) = Ok p') ∨
  (∃ i, i < length seq ∧ make_reg_ex (mask1 seq i) = Ok p).
Proof.
  split.
  - intros Hy.
    inversion Hy as [mm p' Hp|mm i p' Hi Hp|mm i p' Hi Hp
                     |mm i p' H1 Hi Hp|mm i k p' H2 Hi Hk Hp]; subst.
    + by left.
    + assert (i = 1) as -> by lia. apply yields_0 in Hp.
      right. left. by exists p'.
    + assert (i = 1) as -> by lia. apply yields_0 in Hp.
      right. right. left. by exists p'.
    + right. right. right. by exists i.
    + lia.
  - intros [Hp|[(p' & -> & Hp)|[(p' & -> & Hp)|(i & Hi & Hp)]]].
    + by apply yields_exact.
    + apply yields_head with 1; [lia|]. by apply yields_0.
    + apply yields_tail with 1; [lia|]. by apply yields_0.
    + by apply yields_one with i.
Qed.

(** C4, as the patterns have it.  With one mismatch allowed and a primer
    of the four bases only, a target that is the upper-cased primer with
    one position replaced by any base matches.  A target of the primer's
    length that differs from it at two positions is matched by none of the
    full-length patterns; it still matches exactly when the primer without
    its first base starts the target, the case the pattern for a primer
    running off the start of the read accepts. *)
Theorem one_mismatch_tolerance reverse_complement set_iter record :
  set_order set_iter →
  unambiguous (upper (fa_sequence record)) = true →
  ∃ rx,
    load_primers_as_re reverse_complement set_iter [record] 1 false
      = Ok (1, rx) ∧
    (∀ i c,
       i < length (fa_sequence record) → c ≠ newline →
       is_Some (re_search rx (<[i := c]> (upper (fa_sequence record))))) ∧
    (∀ target i j,
       length target = length (fa_sequence record) →
       i ≠ j → i < length target → j < length target →
       target !! i ≠ upper (fa_sequence record) !! i →
       target !! j ≠ upper (fa_sequence record) !! j →
       (is_Some (re_search rx target) ↔
        drop 1 (upper (fa_sequence record)) `prefix_of` target)).
Proof.
  intros Hord Hu.
  pose proof (unambiguous_valid _ Hu) as Hv.
  pose proof (length_upper (fa_sequence record)) as Hlen.
  remember (upper (fa_sequence record)) as U eqn:HU.
  destruct (load_primers_as_re_Ok reverse_complement set_iter [record] 1 false
              Hord) as [rx Hload]; [lia | |].
  { intros r ->%list_elem_of_singleton. unfold primer_seq. by rewrite <- HU. }
  exists rx. split; [done|].
  destruct (load_primers_as_re_branches _ _ _ _ _ _ _ Hord Hload)
    as (_ & _ & Hbr).
  specialize (Hbr ltac:(done)).
  assert (Hin : ∀ a, a ∈ rx ↔ ∃ p, yields U 1 p ∧ parses_as p a).
  { intros a. rewrite Hbr. split.
    - intros (r & p & ->%list_elem_of_singleton & Hy & Hp).
      unfold primer_seq in Hy. rewrite <- HU in Hy. by exists p.
    - intros (p & Hy & Hp). exists record, p. split; [left|].
      unfold primer_seq. by rewrite <- HU. }
  clear Hbr Hload. split.
  - intros i c Hi Hc. rewrite <- Hlen in Hi.
    destruct (proj1 (make_reg_ex_Ok (mask1 U i))) as [p Hp];
      [by apply valid_seq_mask1|].
    apply (re_search_is_Some rx _ (map letter_atom (mask1 U i)) 0
             (0 + length (mask1 U i))).
    + apply Hin. exists p. split; [by apply yields_one with i|].
      by apply make_reg_ex_parses.
    + lia.
    + rewrite match_here_letters, drop_0.
      unfold mask1. rewrite (insert_take_drop U i c Hi), Nat.add_1_r.
      rewrite letters_match_app by done.
      rewrite letters_match_refl by (by apply unambiguous_take).
      cbn [s_ list_ascii_of_string app letters_match].
      rewrite letters_match_refl by (by apply unambiguous_drop).
      replace (atom_accepts (letter_atom "N") c) with true; [done|].
      change (letter_atom "N") with ANY. simpl.
      by destruct (Ascii.eqb_spec c newline).
  - intros target i j Ht Hij Hi Hj Hdi Hdj. rewrite <- Hlen in Ht. split.
    + intros [[st e] Hs].
      apply re_search_Some in Hs as [(b & Hb & Hm) _].
      apply Hin in Hb as (p & Hy & Hp).
      apply yields_1 in Hy
        as [Hy|[(p' & -> & Hy)|[(p' & -> & Hy)|(i' & Hi' & Hy)]]].
      * exfalso.
        rewrite (parses_as_unique _ _ _ Hp (make_reg_ex_parses _ _ Hy)) in Hm.
        rewrite match_here_letters in Hm.
        destruct (letters_match U (drop st target)) eqn:Hlm; [|done].
        pose proof (letters_match_length _ _ Hlm) as Hl.
        rewrite length_drop in Hl. assert (st = 0) as -> by lia.
        apply letters_match_same_length in Hlm; [|done|done].
        rewrite drop_0 in Hlm. by subst target.
      * rewrite (parses_as_unique _ _ _ Hp
                   (parses_as_app _ _ _ _ parses_as_caret
                      (make_reg_ex_parses _ _ Hy))) in Hm.
        cbn [app match_here] in Hm.
        destruct (st =? 0) eqn:Hst; [|done].
        apply Nat.eqb_eq in Hst as ->. rewrite drop_0 in Hm.
        rewrite match_here_letters in Hm.
        destruct (letters_match (drop 1 U) target) eqn:Hlm; [|done].
        rewrite letters_match_unambiguous in Hlm
          by (by apply unambiguous_drop).
        by apply bool_decide_eq_true_1 in Hlm.
      * exfalso.
        rewrite (parses_as_unique _ _ _ Hp
                   (parses_as_app _ _ _ _ parses_as_dollar
                      (make_reg_ex_parses _ _ Hy))) in Hm.
        cbn [app match_here] in Hm.
        destruct (at_end (drop st target)) eqn:Hend; [|done].
        rewrite match_here_letters in Hm.
        rewrite letters_match_at_end in Hm; [done| | |done].
        -- by apply valid_seq_take.
        -- intros Hnil%(f_equal length).
           rewrite length_take in Hnil. simpl in Hnil. lia.
      * exfalso.
        rewrite (parses_as_unique _ _ _ Hp (make_reg_ex_parses _ _ Hy)) in Hm.
        rewrite match_here_letters in Hm.
        destruct (letters_match (mask1 U i') (drop st target)) eqn:Hlm;
          [|done].
        pose proof (letters_match_length _ _ Hlm) as Hl.
        rewrite length_drop, length_mask1 in Hl by done.
        assert (st = 0) as -> by lia. rewrite drop_0 in Hlm.
        apply letters_match_lookup in Hlm as [_ Hlm].
        assert (Hsame : ∀ q, q ≠ i' → q < length target →
                             target !! q = U !! q).
        { intros q Hq Hlt.
          destruct (lookup_lt_is_Some_2 target q Hlt) as [c Hc].
          destruct (lookup_lt_is_Some_2 U q ltac:(lia)) as [l Hl'].
          rewrite Hc, Hl'. f_equal.
          apply (unambiguous_accepts l c).
          - by eapply unambiguous_lookup.
          - apply (Hlm q); [|done].
            rewrite mask1_insert by done.
            by rewrite list_lookup_insert_ne. }
        destruct (decide (i = i')) as [->|Hne].
        -- apply Hdj, Hsame; [congruence | done].
        -- by apply Hdi, Hsame.
    + intros Hpre.
      destruct (proj1 (make_reg_ex_Ok (drop 1 U))) as [p Hp];
        [by apply valid_seq_drop|].
      apply (re_search_is_Some rx _
               (AT_BEGINNING :: map letter_atom (drop 1 U)) 0
               (0 + length (drop 1 U))).
      * apply Hin. exists (s_ "^" ++ p). split.
        -- apply yields_1. right. left. by exists p.
        -- apply (parses_as_app _ _ [_]); [apply parses_as_caret|].
           by apply make_reg_ex_parses.
      * lia.
      * rewrite drop_0. cbn [match_here Nat.eqb]. rewrite match_here_letters.
        rewrite letters_match_unambiguous by (by apply unambiguous_drop).
        by rewrite bool_decide_eq_true_2.
Qed.

Lemma one_mismatch_tolerance_witness :
  ∃ rx,
    load_primers_as_re (λ s, s) remove_dups
      [FastaRecord (s_ "primer") (s_ "ccgactcgag")] 1 false = Ok (1, rx) ∧
    (∀ i c,
       i < length (s_ "ccgactcgag") → c ≠ newline →
       is_Some (re_search rx (<[i := c]> (upper (s_ "ccgactcgag"))))) ∧
    (∀ target i j,
       length target = length (s_ "ccgactcgag") →
       i ≠ j → i < length target → j < length target →
       target !! i ≠ upper (s_ "ccgactcgag") !! i →
       target !! j ≠ upper (s_ "ccgactcgag") !! j →
       (is_Some (re_search rx target) ↔
        drop 1 (upper (s_ "ccgactcgag")) `prefix_of` target)).
Proof.
  apply (one_mismatch_tolerance (λ s, s) remove_dups
           (FastaRecord (s_ "primer") (s_ "ccgactcgag"))).
  - apply remove_dups_order.
  - reflexivity.
Defined.

(** The primer AC with one mismatch allowed, and the target CA, which
    differs from it at both positions: the pattern "^C", the primer
    without its first base, matches at the start of the target. *)
Lemma two_substitutions_still_match :
  <[0 := "C"]> (<[1 := "A"]> (s_ "AC")) = s_ "CA" ∧
  match load_primers_as_re (λ s, s) remove_dups
          [FastaRecord (s_ "primer") (s_ "AC")] 1 false with
  | Ok (_, rx) => re_search rx (s_ "CA")
  | Raise _ => None
  end = Some (0, 1).
Proof. split; reflexivity. Qed.

(** ** The shape of the generated branches *)

(** Every generated pattern reads as a run of anchors followed by the
    letters of a word that lost at most [mm] bases of the primer. *)
Lemma yields_shape seq mm p :
  yields seq mm p →
  ∃ anchors w,
    parses_as p (anchors ++ map letter_atom w) ∧
    forallb is_anchor anchors = true ∧
    valid_seq w = true ∧
    length seq ≤ length w + mm.
Proof.
  induction 1 as [s mm p Hp|s mm i p Hi _ (anchors & w & Hpa & Ha & Hv & Hl)
                  |s mm i p Hi _ (anchors & w & Hpa & Ha & Hv & Hl)
                  |s mm i p _ Hi Hp|s mm i k p _ Hi Hk Hp].
  - exists [], s. split; [by apply make_reg_ex_parses|].
    split; [done|]. split; [apply make_reg_ex_Ok; by eexists | lia].
  - exists (AT_BEGINNING :: anchors), w. split.
    { apply (parses_as_app _ _ [_]); [apply parses_as_caret | done]. }
    split; [done|]. split; [done|]. rewrite length_drop in Hl. lia.
  - exists (AT_END :: anchors), w. split.
    { apply (parses_as_app _ _ [_]); [apply parses_as_dollar | done]. }
    split; [done|]. split; [done|]. rewrite length_take in Hl. lia.
  - exists [], (mask1 s i). split; [by apply make_reg_ex_parses|].
    split; [done|]. split; [apply make_reg_ex_Ok; by eexists|].
    rewrite length_mask1 by done. lia.
  - exists [], (mask2 s i k). split; [by apply make_reg_ex_parses|].
    split; [done|]. split; [apply make_reg_ex_Ok; by eexists|].
    rewrite length_drop in Hk.
    unfold mask2, slice. rewrite !length_app, !length_drop, !length_take.
    simpl. lia.
Qed.

(** A branch of anchors and then letters matches only without "$" among
    the anchors, at offset 0 if "^" is among them, and where the letters
    accept what follows. *)
Lemma match_here_anchored anchors w : ∀ k rest e,
  forallb is_anchor anchors = true → valid_seq w = true → w ≠ [] →
  match_here (anchors ++ map letter_atom w) k rest = Some e →
  (AT_END ∉ anchors) ∧ (AT_BEGINNING ∈ anchors → k = 0) ∧
  letters_match w rest = true ∧ e = k + length w.
Proof.
  intros k rest e Ha Hv Hw.
  induction anchors as [|a anchors IH]; cbn [app].
  - rewrite match_here_letters.
    destruct (letters_match w rest); [|done]. intros [= <-].
    split; [by intros ?%elem_of_nil|].
    split; [by intros ?%elem_of_nil | done].
  - apply andb_true_iff in Ha as [Ha1 Ha].
    destruct a; try done; cbn [match_here].
    + destruct (Nat.eqb_spec k 0) as [->|?]; [|done].
      intros (Hend & _ & Hm & He)%(IH Ha).
      split; [by intros [?|?]%elem_of_cons|]. done.
    + destruct (at_end rest) eqn:Hend; [|done].
      intros (_ & _ & Hm & _)%(IH Ha).
      by rewrite letters_match_at_end in Hm.
Qed.

Lemma match_here_anchored_intro anchors w k rest :
  forallb is_anchor anchors = true →
  AT_END ∉ anchors → (AT_BEGINNING ∈ anchors → k = 0) →
  letters_match w rest = true →
  match_here (anchors ++ map letter_atom w) k rest = Some (k + length w).
Proof.
  intros Ha Hend Hbeg Hm.
  induction anchors as [|a anchors IH]; cbn [app].
  - by rewrite match_here_letters, Hm.
  - apply andb_true_iff in Ha as [Ha1 Ha].
    destruct a; try done; cbn [match_here].
    + rewrite Hbeg by left. cbn [Nat.eqb].
      rewrite Hbeg in IH by left. apply IH; [done| |done].
      intros ?. apply Hend. by right.
    + exfalso. apply Hend. left.
Qed.

(** A pattern behind "$" whose letters are not all gone never matches:
    at the end of the string no letter is left to accept. *)
Lemma dollar_first_never_matches p a anchors w k rest :
  parses_as p (anchors ++ map letter_atom w) →
  forallb is_anchor anchors = true → valid_seq w = true → w ≠ [] →
  parses_as (s_ "$" ++ p) a →
  match_here a k rest = None.
Proof.
  intros Hp Ha Hv Hw Hpa.
  rewrite (parses_as_unique _ _ _ Hpa
             (parses_as_app _ _ [_] _ parses_as_dollar Hp)).
  destruct (match_here _ k rest) as [e|] eqn:Hm; [|done].
  apply (match_here_anchored (AT_END :: anchors) w) in Hm as [Hend _];
    try done.
  exfalso. apply Hend. left.
Qed.

(** Whether a string matches does not depend on the iteration order of
    the pattern set. *)
Lemma search_order_independent reverse_complement iter1 iter2 records mm rc
    c1 rx1 c2 rx2 s :
  set_order iter1 → set_order iter2 →
  load_primers_as_re reverse_complement iter1 records mm rc = Ok (c1, rx1) →
  load_primers_as_re reverse_complement iter2 records mm rc = Ok (c2, rx2) →
  re_search rx1 s = None ↔ re_search rx2 s = None.
Proof.
  intros H1 H2 Hl1 Hl2.
  destruct (load_primers_as_re_branches _ _ _ _ _ _ _ H1 Hl1)
    as (_ & Hnil1 & Hbr1).
  destruct (load_primers_as_re_branches _ _ _ _ _ _ _ H2 Hl2)
    as (_ & Hnil2 & Hbr2).
  destruct records as [|record records].
  - by rewrite Hnil1, Hnil2.
  - rewrite !re_search_None.
    split; intros H b k Hb Hk; apply H; try done.
    + apply Hbr1; [done|]. by apply Hbr2.
    + apply Hbr2; [done|]. by apply Hbr1.
Qed.

(** ** A primer running off the end of the read *)

(** C1, where the code departs from it.  The patterns for a primer that
    lost its last [i] bases are built as "$" followed by the rest of the
    primer, so the end of the string is asked for before any base: as long
    as a base of the primer is left ([mm] below the primer's length) no
    such pattern matches anything, at any offset.  So the read
    ACGTACGTCCGACTCGA, which ends in the primer CCGACTCGAG less its last
    base, is not matched with one mismatch allowed, whatever the order of
    the pattern set: under reverse orientation it is kept unclipped as an
    unmatched read. *)
Theorem tail_truncation_never_matches reverse_complement set_iter :
  set_order set_iter →
  (∀ seq mm i p a k rest,
     1 ≤ i ≤ mm → mm < length seq →
     yields (take (length seq - i) seq) (mm - i) p →
     parses_as (s_ "$" ++ p) a →
     match_here a k rest = None) ∧
  script reverse_complement set_iter
    (fastq_reads [FastqRecord (s_ "read") (s_ "ACGTACGTCCGACTCGA") []
                    (s_ "IIIIIIIIIIIIIIIII")])
    [FastaRecord (s_ "primer") (s_ "CCGACTCGAG")] reverse_primer 1 0 true
  = Ok (Counters 0 0 0 1,
        fastq_reads [FastqRecord (s_ "read") (s_ "ACGTACGTCCGACTCGA") []
                       (s_ "IIIIIIIIIIIIIIIII")]).
Proof.
  intros Hord. split.
  - intros s mm i p a k rest Hi Hmm Hy Hpa.
    destruct (yields_shape _ _ _ Hy) as (anchors & w & Hp & Ha & Hv & Hl).
    rewrite length_take in Hl.
    apply (dollar_first_never_matches p a anchors w); try done.
    intros ->. simpl in Hl. lia.
  - destruct (load_primers_as_re_Ok reverse_complement set_iter
                [FastaRecord (s_ "primer") (s_ "CCGACTCGAG")] 1 false Hord)
      as [rx Hload]; [lia | |].
    { by intros r ->%list_elem_of_singleton. }
    assert (Hcanon : ∃ rx0,
      load_primers_as_re reverse_complement remove_dups
        [FastaRecord (s_ "primer") (s_ "CCGACTCGAG")] 1 false = Ok (1, rx0) ∧
      re_search rx0 (upper (s_ "ACGTACGTCCGACTCGA")) = None).
    { eexists. split; vm_compute; reflexivity. }
    destruct Hcanon as (rx0 & Hload0 & Hnone0).
    assert (Hnone : re_search rx (upper (s_ "ACGTACGTCCGACTCGA")) = None).
    { by apply (search_order_independent _ _ _ _ _ _ _ _ _ _ _
                  Hord remove_dups_order Hload Hload0). }
    unfold script. change (check_mm 1) with (Ok 1).
    change (check_min_len 0) with (Ok 0). bind_step.
    rewrite Hload. bind_step.
    unfold clip_fastq. cbn [foldl]. unfold fastq_reverse_step.
    cbn [fq_sequence]. rewrite Hnone. reflexivity.
Qed.

Lemma tail_truncation_never_matches_witness :
  script (λ s, s) remove_dups
    (fastq_reads [FastqRecord (s_ "read") (s_ "ACGTACGTCCGACTCGA") []
                    (s_ "IIIIIIIIIIIIIIIII")])
    [FastaRecord (s_ "primer") (s_ "CCGACTCGAG")] reverse_primer 1 0 true
  = Ok (Counters 0 0 0 1,
        fastq_reads [FastqRecord (s_ "read") (s_ "ACGTACGTCCGACTCGA") []
                       (s_ "IIIIIIIIIIIIIIIII")]).
Proof.
  exact (proj2 (tail_truncation_never_matches (λ s, s) remove_dups
                  remove_dups_order)).
Defined.

(** The docstring's example of the other end: with one mismatch allowed
    the primer CCGACTCGAG matches a read that starts CGACTCGAG. *)
Example head_truncation_matches :
  match load_primers_as_re (λ s, s) remove_dups
          [FastaRecord (s_ "primer") (s_ "CCGACTCGAG")] 1 false with
  | Ok (_, rx) => re_search rx (s_ "CGACTCGAGTTTT")
  | Raise _ => None
  end = Some (0, 9).
Proof. reflexivity. Qed.

(** ** Clipping again *)

Lemma drop_take_app {A} k s (l : list A) :
  k ≤ s → drop k l = drop k (take s l) ++ drop s l.
Proof.
  intros Hk. destruct (decide (s ≤ length l)) as [Hs|Hs].
  - rewrite <- (take_drop s l) at 1.
    rewrite drop_app_le; [done|]. rewrite length_take. lia.
  - rewrite take_ge, (drop_ge l s), app_nil_r by lia. done.
Qed.

(** Under reverse orientation, what is left of a match holds no match:
    with every primer longer than the mismatch budget, each branch needs
    at least one base, and a branch matching inside the kept region would
    have matched the whole read further left. *)
Lemma no_match_left_of_match reverse_complement set_iter records mm rc count
    rx seq s e :
  set_order set_iter → records ≠ [] →
  (∀ r, r ∈ records → mm < length (primer_seq reverse_complement rc r)) →
  load_primers_as_re reverse_complement set_iter records mm rc
    = Ok (count, rx) →
  re_search rx seq = Some (s, e) →
  re_search rx (take s seq) = None.
Proof.
  intros Hord Hne Hlong Hload Hs.
  destruct (load_primers_as_re_branches _ _ _ _ _ _ _ Hord Hload)
    as (_ & _ & Hbr).
  specialize (Hbr Hne).
  apply re_search_Some in Hs as [_ Hleft].
  apply re_search_None. intros b k Hb Hk.
  destruct (match_here b k (drop k (take s seq))) as [e'|] eqn:Hm; [|done].
  exfalso.
  pose proof Hb as Hb'.
  apply Hbr in Hb' as (r & p & Hr & Hy & Hp).
  destruct (yields_shape _ _ _ Hy) as (anchors & w & Hpa & Ha & Hv & Hl).
  rewrite (parses_as_unique _ _ _ Hp Hpa) in *.
  rewrite length_upper in Hl. specialize (Hlong r Hr).
  assert (Hw : w ≠ []) by (intros ->; simpl in Hl; lia).
  apply match_here_anchored in Hm as (Hend & Hbeg & Hlm & _); try done.
  pose proof (letters_match_length _ _ Hlm) as Hlen.
  rewrite length_drop, length_take in Hlen.
  assert (0 < length w) by (destruct w; [done | simpl; lia]).
  assert (Hks : k < s) by lia.
  specialize (Hleft _ k Hb Hks).
  rewrite (drop_take_app k s seq) in Hleft by lia.
  rewrite (match_here_anchored_intro anchors w k) in Hleft; try done.
  by apply letters_match_app_r.
Qed.

(** C6, as the loops have it.  Under reverse orientation, with a primer
    file that is not empty and primers longer than the mismatch budget, a
    record written as clipped holds no further match: a second pass over
    it clips nothing, and keeps it as unmatched when keep-unmatched is on
    (it is long enough, having been written) and drops it otherwise. *)
Theorem reverse_clip_leaves_no_match reverse_complement set_iter records mm
    rc count rx min_len keep n written record kept n2 written2 :
  set_order set_iter → records ≠ [] →
  (∀ r, r ∈ records → mm < length (primer_seq reverse_complement rc r)) →
  load_primers_as_re reverse_complement set_iter records mm rc
    = Ok (count, rx) →
  fastq_reverse_step rx min_len keep (n, written) record
    = (incr_clipped n, written ++ [kept]) →
  re_search rx (upper (fq_sequence kept)) = None ∧
  fastq_reverse_step rx min_len keep (n2, written2) kept =
    if keep then (incr_negs n2, written2 ++ [kept]) else (n2, written2).
Proof.
  intros Hord Hne Hlong Hload Hstep.
  assert (Hkept : ∃ s e,
    re_search rx (upper (fq_sequence record)) = Some (s, e) ∧
    fq_sequence kept = take s (upper (fq_sequence record)) ∧
    min_len ≤ length (fq_sequence kept)).
  { unfold fastq_reverse_step in Hstep.
    destruct (re_search rx (upper (fq_sequence record))) as [[s e]|].
    - exists s, e. split; [done|].
      cbn [fq_set_sequence fq_sequence] in Hstep.
      destruct (Nat.leb_spec min_len
                  (length (take s (upper (fq_sequence record)))))
        as [Hlen|Hlen].
      + apply (f_equal snd) in Hstep. cbn [snd] in Hstep.
        apply app_inj_tail in Hstep as [_ <-]. done.
      + apply (f_equal (λ st, clipped st.1)) in Hstep.
        simpl in Hstep. lia.
    - exfalso. apply (f_equal (λ st, clipped st.1)) in Hstep.
      destruct keep; [destruct (min_len <=? _)|]; simpl in Hstep; lia. }
  destruct Hkept as (s & e & Hs & Hseq & Hlen).
  assert (Hnone : re_search rx (upper (fq_sequence kept)) = None).
  { rewrite Hseq, upper_take_upper.
    by eapply no_match_left_of_match. }
  split; [done|].
  unfold fastq_reverse_step. rewrite Hnone.
  by apply Nat.leb_le in Hlen as ->.
Qed.

Lemma reverse_clip_leaves_no_match_witness :
  ∃ rx,
    load_primers_as_re (λ s, s) remove_dups
      [FastaRecord (s_ "primer") (s_ "AACCGG")] 1 false = Ok (1, rx) ∧
    fastq_reverse_step rx 2 true (no_counts, [])
      (FastqRecord (s_ "read") (s_ "ttttAACCGGtt") [] (s_ "ABCDEFGHIJKL"))
    = (incr_clipped no_counts,
       [] ++ [FastqRecord (s_ "read") (s_ "TTTT") [] (s_ "ABCD")]) ∧
    re_search rx (upper (s_ "TTTT")) = None ∧
    fastq_reverse_step rx 2 true (no_counts, [])
      (FastqRecord (s_ "read") (s_ "TTTT") [] (s_ "ABCD"))
    = (incr_negs no_counts,
       [] ++ [FastqRecord (s_ "read") (s_ "TTTT") [] (s_ "ABCD")]).
Proof.
  eexists. split; [vm_compute; reflexivity|].
  split; [vm_compute; reflexivity|].
  apply (reverse_clip_leaves_no_match (λ s, s) remove_dups
           [FastaRecord (s_ "primer") (s_ "AACCGG")] 1 false 1 _ 2 true
           no_counts []
           (FastqRecord (s_ "read") (s_ "ttttAACCGGtt") []
              (s_ "ABCDEFGHIJKL"))
           (FastqRecord (s_ "read") (s_ "TTTT") [] (s_ "ABCD"))
           no_counts []).
  - apply remove_dups_order.
  - done.
  - intros r ->%list_elem_of_singleton. simpl. lia.
  - vm_compute. reflexivity.
  - vm_compute. reflexivity.
Defined.

(** Under forward orientation a read that holds the primer twice is
    clipped twice: the first pass removes the first occurrence, and a
    second pass over what it wrote finds the other one. *)
Lemma second_pass_clips_again :
  script (λ s, s) remove_dups
    (fastq_reads [FastqRecord (s_ "read") (s_ "AACCGGTTAACCGGTT") []
                    (s_ "ABCDEFGHIJKLMNOP")])
    [FastaRecord (s_ "primer") (s_ "AACCGG")] forward_primer 0 0 true
  = Ok (Counters 0 0 1 0,
        fastq_reads [FastqRecord (s_ "read") (s_ "TTAACCGGTT") []
                       (s_ "GHIJKLMNOP")]) ∧
  script (λ s, s) remove_dups
    (fastq_reads [FastqRecord (s_ "read") (s_ "TTAACCGGTT") []
                    (s_ "GHIJKLMNOP")])
    [FastaRecord (s_ "primer") (s_ "AACCGG")] forward_primer 0 0 true
  = Ok (Counters 0 0 1 0,
        fastq_reads [FastqRecord (s_ "read") (s_ "TT") [] (s_ "OP")]).
Proof. split; reflexivity. Qed.

(** * Further properties of the code *)

(** ** The table and [make_reg_ex] *)

Lemma valid_letter_table c :
  valid_letter c = true ↔ c ∈ s_ "ACGTMRWSYKVHDBXN".
Proof.
  unfold valid_letter, ambiguous_dna_re, ambiguous_dna_values.
  cbn -[Ascii.eqb]. cbn [s_ list_ascii_of_string].
  rewrite !elem_of_cons, elem_of_nil.
  repeat match goal with
         | |- context [Ascii.eqb ?k c] =>
             destruct (Ascii.eqb_spec k c) as [<-|?]; [by intuition|]
         end.
  split; [done|]. intuition congruence.
Qed.

Lemma make_reg_ex_app a b :
  make_reg_ex (a ++ b) = (p ← make_reg_ex a; q ← make_reg_ex b; Ok (p ++ q)).
Proof.
  induction a as [|letter a IH]; cbn [app make_reg_ex].
  - bind_step. destruct (make_reg_ex b); [by bind_step | done].
  - destruct (getitem ambiguous_dna_re letter) as [r|e]; [|done].
    bind_step. rewrite IH.
    destruct (make_reg_ex a) as [p|e]; [|done]. bind_step.
    destruct (make_reg_ex b) as [q|e]; [|done]. bind_step.
    by rewrite app_assoc.
Qed.

(** X1.  [make_reg_ex] returns exactly for the sequences written with the
    sixteen upper-case letters of the table; on any other sequence it
    raises the [KeyError] of the first letter that is not one of them
    (a lower-case letter included). *)
Theorem make_reg_ex_key_error seq :
  (∀ c, valid_letter c = true ↔ c ∈ s_ "ACGTMRWSYKVHDBXN") ∧
  (valid_seq seq = true ↔ ∃ p, make_reg_ex seq = Ok p) ∧
  (∀ before c after,
     seq = before ++ c :: after →
     valid_seq before = true → valid_letter c = false →
     make_reg_ex seq = Raise (KeyError [c])).
Proof.
  split; [apply valid_letter_table|]. split; [apply make_reg_ex_Ok|].
  intros before c after -> Hb Hc. rewrite make_reg_ex_app.
  destruct (proj1 (make_reg_ex_Ok before) Hb) as [p ->]. bind_step.
  cbn [make_reg_ex]. unfold valid_letter in Hc.
  destruct (getitem ambiguous_dna_re c) as [r|e] eqn:Hr; [done|].
  by apply getitem_Raise in Hr as ->.
Qed.

Lemma make_reg_ex_key_error_witness :
  make_reg_ex (s_ "ACGuT") = Raise (KeyError [ "u" ]).
Proof.
  apply (proj2 (proj2 (make_reg_ex_key_error (s_ "ACGuT")))
           (s_ "ACG") "u" (s_ "T")); reflexivity.
Defined.

(** ** The masks of [make_reg_ex_mm] *)

Lemma mask2_insert seq i k :
  i + k + 1 < length seq →
  mask2 seq i k = <[i := "N"]> (<[i + k + 1 := "N"]> seq).
Proof.
  intros Hk. unfold mask2, slice.
  rewrite (insert_take_drop seq (i + k + 1) "N") by done.
  rewrite insert_app_l by (rewrite length_take; lia).
  rewrite (insert_take_drop (take (i + k + 1) seq) i "N")
    by (rewrite length_take; lia).
  rewrite take_take, Nat.min_l by lia.
  rewrite <- !app_assoc. cbn [s_ list_ascii_of_string app].
  replace (i + 1 + k) with (i + k + 1) by lia.
  replace (i + 1) with (S i) by lia.
  by replace (i + k + 2) with (S (i + k + 1)) by lia.
Qed.

(** X2.  Inside the loops of [make_reg_ex_mm] a mask is the primer with
    "N" written at one position, or at two distinct positions, and so has
    the primer's length: the two assertions on the length never fail.
    The double loop reaches every pair of positions. *)
Theorem masks_keep_length seq :
  (∀ i, i < length seq →
        mask1 seq i = <[i := "N"]> seq ∧
        length (mask1 seq i) = length seq) ∧
  (∀ i k, i < length seq → k < length (drop (i + 1) seq) →
          mask2 seq i k = <[i := "N"]> (<[i + k + 1 := "N"]> seq) ∧
          length (mask2 seq i k) = length seq) ∧
  (∀ i j, i < j < length seq →
          ∃ k, k < length (drop (i + 1) seq) ∧
               mask2 seq i k = <[i := "N"]> (<[j := "N"]> seq)).
Proof.
  split; [|split].
  - intros i Hi. split; [by apply mask1_insert | by apply length_mask1].
  - intros i k Hi Hk. rewrite length_drop in Hk.
    rewrite mask2_insert by lia. by rewrite !length_insert.
  - intros i j Hij. exists (j - i - 1). rewrite length_drop.
    split; [lia|]. rewrite mask2_insert by lia.
    by replace (i + (j - i - 1) + 1) with j by lia.
Qed.

Lemma masks_keep_length_witness :
  mask2 (s_ "ACGTA") 1 2 = s_ "ANGTN" ∧
  length (mask2 (s_ "ACGTA") 1 2) = length (s_ "ACGTA").
Proof.
  apply (proj1 (proj2 (masks_keep_length (s_ "ACGTA"))) 1 2); simpl; lia.
Defined.

(** ** Searching, continued *)


(** The search returns the leftmost offset where a branch matches. *)
Lemma re_search_start rx t b k e :
  b ∈ rx → k ≤ length t → match_here b k (drop k t) = Some e →
  ∃ s e', re_search rx t = Some (s, e') ∧ s ≤ k.
Proof.
  intros Hb Hk Hm.
  destruct (re_search_is_Some rx t b k e Hb Hk Hm) as [[s e'] Hs].
  exists s, e'. split; [done|].
  apply re_search_Some in Hs as [_ Hleft].
  destruct (decide (s ≤ k)) as [?|Hgt]; [done|].
  rewrite (Hleft b k Hb) in Hm by lia. done.
Qed.


(** ** Letters and the table *)




Lemma valid_letter_accepts_itself letter :
  valid_letter letter = true →
  atom_accepts (letter_atom letter) letter = true.
Proof.
  unfold valid_letter, letter_atom, ambiguous_dna_re, ambiguous_dna_values.
  cbn -[Ascii.eqb atom_accepts].
  repeat match goal with
         | |- context [Ascii.eqb ?k letter] =>
             destruct (Ascii.eqb_spec k letter) as [<-|?]; [done|]
         end.
  done.
Qed.

Lemma letters_match_self w : valid_seq w = true → letters_match w w = true.
Proof.
  induction w as [|letter w IH]; [done|]. simpl.
  intros [Hl Hw]%andb_true_iff. by rewrite valid_letter_accepts_itself, IH.
Qed.

(** ** What a loaded primer contributes *)

(** A primer that loaded is over the table's letters, and the budget is
    at most two. *)
Lemma load_primers_as_re_inv reverse_complement set_iter records mm rc count
    rx r :
  load_primers_as_re reverse_complement set_iter records mm rc
    = Ok (count, rx) →
  r ∈ records →
  mm ≤ 2 ∧ valid_seq (upper (primer_seq reverse_complement rc r)) = true.
Proof.
  unfold load_primers_as_re, primer_patterns.
  intros (added & (pats & Hpats & _)%result_bind_Ok & _)%result_bind_Ok Hr.
  destruct (for_each_Ok_elem _ _ _ _ Hpats Hr) as (l & Hl & _).
  unfold make_reg_ex_mm in Hl. rewrite make_reg_ex_mm_rec_unfold in Hl.
  destruct (Nat.ltb_spec 2 mm) as [?|Hmm]; [done|].
  apply result_bind_Ok in Hl as (exact & Hexact & _).
  split; [lia|]. apply make_reg_ex_Ok. by exists exact.
Qed.

(** Every pattern a primer yields is a branch of the compiled matcher. *)
Lemma load_primers_as_re_branch reverse_complement set_iter records mm rc
    count rx r p a :
  set_order set_iter →
  load_primers_as_re reverse_complement set_iter records mm rc
    = Ok (count, rx) →
  r ∈ records →
  yields (upper (primer_seq reverse_complement rc r)) mm p →
  parses_as p a → a ∈ rx.
Proof.
  intros Hord Hload Hr Hy Hp.
  destruct (load_primers_as_re_branches _ _ _ _ _ _ _ Hord Hload)
    as (_ & _ & Hbr).
  apply Hbr; [|by exists r, p].
  intros ->. by apply elem_of_nil in Hr.
Qed.

(** A mask accepts the primer with the masked positions rewritten. *)
Lemma letters_match_masked U M T :
  valid_seq U = true → length M = length U → length T = length U →
  (∀ q, (M !! q = U !! q ∧ T !! q = U !! q) ∨
        (M !! q = Some "N" ∧ ∃ c, T !! q = Some c ∧ c ≠ newline)) →
  letters_match M T = true.
Proof.
  intros Hv HM HT Hq. apply letters_match_lookup. split; [lia|].
  intros q letter c Hl Hc.
  destruct (Hq q) as [[HMq HTq]|[HMq (c' & HTq & Hc')]].
  - rewrite HMq in Hl. rewrite HTq, Hl in Hc. injection Hc as <-.
    apply valid_letter_accepts_itself.
    unfold valid_seq in Hv. rewrite forallb_forall in Hv.
    apply Hv, list_elem_of_In. by eapply list_elem_of_lookup_2.
  - rewrite HMq in Hl. injection Hl as <-.
    assert (c = c') as -> by congruence.
    change (letter_atom "N") with ANY. simpl.
    by destruct (Ascii.eqb_spec c' newline).
Qed.

(** X3.  Substitutions within the budget are tolerated wherever the
    primer lies in the read: with at least one mismatch allowed, the
    upper-cased primer with any one position rewritten matches, and with
    two allowed, so does the primer with any two positions rewritten (by
    anything but a newline), whatever comes before and after it. *)
Theorem substitutions_within_budget reverse_complement set_iter records mm rc
    count rx r :
  set_order set_iter →
  load_primers_as_re reverse_complement set_iter records mm rc
    = Ok (count, rx) →
  r ∈ records →
  (1 ≤ mm →
   ∀ i c before after,
     i < length (primer_seq reverse_complement rc r) → c ≠ newline →
     is_Some (re_search rx
       (before ++ <[i := c]> (upper (primer_seq reverse_complement rc r))
        ++ after))) ∧
  (2 ≤ mm →
   ∀ i j c d before after,
     i < j < length (primer_seq reverse_complement rc r) →
     c ≠ newline → d ≠ newline →
     is_Some (re_search rx
       (before ++
        <[i := c]> (<[j := d]> (upper (primer_seq reverse_complement rc r)))
        ++ after))).
Proof.
  intros Hord Hload Hr.
  destruct (load_primers_as_re_inv _ _ _ _ _ _ _ _ Hload Hr) as [Hmm Hv].
  pose proof (length_upper (primer_seq reverse_complement rc r)) as Hlen.
  remember (upper (primer_seq reverse_complement rc r)) as U eqn:HU.
  assert (Hfound : ∀ M T before after p,
    yields U mm p → make_reg_ex M = Ok p →
    letters_match M T = true →
    is_Some (re_search rx (before ++ T ++ after))).
  { intros M T before after p Hy Hp Hm.
    apply (re_search_is_Some rx _ (map letter_atom M) (length before)
             (length before + length M)).
    - apply (load_primers_as_re_branch _ _ _ _ _ _ _ r p _ Hord Hload Hr).
      + by rewrite <- HU.
      + by apply make_reg_ex_parses.
    - rewrite length_app. lia.
    - rewrite match_here_letters, drop_app_length.
      by rewrite letters_match_app_r. }
  split.
  - intros H1 i c before after Hi Hc. rewrite <- Hlen in Hi.
    destruct (proj1 (make_reg_ex_Ok (mask1 U i))) as [p Hp];
      [by apply valid_seq_mask1|].
    apply (Hfound (mask1 U i) _ _ _ p); [by apply yields_one with i | done |].
    rewrite mask1_insert by done.
    apply (letters_match_masked U); [done|by rewrite length_insert..|].
    intros q. destruct (decide (q = i)) as [->|Hne].
    + right. rewrite !list_lookup_insert_eq by done. eauto.
    + left. by rewrite !list_lookup_insert_ne.
  - intros H2 i j c d before after Hij Hc Hd. rewrite <- Hlen in Hij.
    destruct (proj1 (make_reg_ex_Ok (mask2 U i (j - i - 1)))) as [p Hp];
      [by apply valid_seq_mask2|].
    apply (Hfound (mask2 U i (j - i - 1)) _ _ _ p); [|done|].
    { apply yields_two with i (j - i - 1); [done|lia| |done].
      rewrite length_drop. lia. }
    rewrite mask2_insert by lia.
    replace (i + (j - i - 1) + 1) with j by lia.
    apply (letters_match_masked U); [done|by rewrite !length_insert..|].
    intros q. destruct (decide (q = i)) as [->|Hi].
    + right. rewrite !list_lookup_insert_eq by (rewrite length_insert; lia).
      eauto.
    + destruct (decide (q = j)) as [->|Hj].
      * right. rewrite !(list_lookup_insert_ne _ i j) by lia.
        rewrite !list_lookup_insert_eq by lia. eauto.
      * left. by rewrite !list_lookup_insert_ne.
Qed.

Lemma substitutions_within_budget_witness :
  ∃ rx,
    load_primers_as_re (λ s, s) remove_dups
      [FastaRecord (s_ "primer") (s_ "ACGTMN")] 2 false = Ok (1, rx) ∧
    is_Some (re_search rx (s_ "TTTT" ++ s_ "AGGTMC" ++ s_ "TT")).
Proof.
  eexists. split; [vm_compute; reflexivity|].
  apply (proj2 (substitutions_within_budget (λ s, s) remove_dups
           [FastaRecord (s_ "primer") (s_ "ACGTMN")] 2 false 1 _
           (FastaRecord (s_ "primer") (s_ "ACGTMN"))
           remove_dups_order ltac:(vm_compute; reflexivity)
           ltac:(left)) (le_n 2) 1 5 "G" "C" (s_ "TTTT") (s_ "TT")).
  - simpl. lia.
  - done.
  - done.
Defined.



(** X5.  A primer running off the start of the read is found: with [mm]
    mismatches allowed, a read that starts with the upper-cased primer less
    its first [i] bases, for [i] from 1 to [mm], matches at offset 0. *)
Theorem head_truncation_found reverse_complement set_iter records mm rc count
    rx r i rest :
  set_order set_iter →
  load_primers_as_re reverse_complement set_iter records mm rc
    = Ok (count, rx) →
  r ∈ records → 1 ≤ i ≤ mm →
  ∃ e, re_search rx
         (drop i (upper (primer_seq reverse_complement rc r)) ++ rest)
       = Some (0, e).
Proof.
  intros Hord Hload Hr Hi.
  destruct (load_primers_as_re_inv _ _ _ _ _ _ _ _ Hload Hr) as [Hmm Hv].
  remember (upper (primer_seq reverse_complement rc r)) as U eqn:HU.
  destruct (proj1 (make_reg_ex_Ok (drop i U))) as [p Hp];
    [by apply valid_seq_drop|].
  destruct (re_search_start rx (drop i U ++ rest)
              (AT_BEGINNING :: map letter_atom (drop i U)) 0
              (0 + length (drop i U))) as (s & e & Hs & Hle).
  - apply (load_primers_as_re_branch _ _ _ _ _ _ _ r (s_ "^" ++ p) _
             Hord Hload Hr).
    + rewrite <- HU. apply yields_head with i; [done|].
      by apply yields_exact.
    + apply (parses_as_app _ _ [_]); [apply parses_as_caret|].
      by apply make_reg_ex_parses.
  - lia.
  - rewrite drop_0. cbn [match_here Nat.eqb]. rewrite match_here_letters.
    rewrite letters_match_app_r; [done|].
    by apply letters_match_self, valid_seq_drop.
  - exists e. by assert (s = 0) as -> by lia.
Qed.

Lemma head_truncation_found_witness :
  ∃ rx,
    load_primers_as_re (λ s, s) remove_dups
      [FastaRecord (s_ "primer") (s_ "CCGACTCGAG")] 2 false = Ok (1, rx) ∧
    ∃ e, re_search rx (drop 2 (upper (s_ "CCGACTCGAG")) ++ s_ "TTTT")
         = Some (0, e).
Proof.
  eexists. split; [vm_compute; reflexivity|].
  apply (head_truncation_found (λ s, s) remove_dups
           [FastaRecord (s_ "primer") (s_ "CCGACTCGAG")] 2 false 1 _
           (FastaRecord (s_ "primer") (s_ "CCGACTCGAG")) 2 (s_ "TTTT")).
  - apply remove_dups_order.
  - vm_compute. reflexivity.
  - left.
  - lia.
Defined.



(** ** The primer file as a whole *)

Lemma set_order_nil set_iter : set_order set_iter → set_iter [] = [].
Proof.
  intros Hord. destruct (Hord []) as [_ Hin].
  destruct (set_iter []) as [|p l]; [done|].
  assert (Hp : p ∈ []) by (apply Hin; left). by apply elem_of_nil in Hp.
Qed.

(** X7.  An empty primer file is not an error: it compiles to the empty
    pattern, which matches every read at offset 0 with nothing consumed,
    whatever the mismatch count handed to [load_primers_as_re].  The
    forward loop then writes every read in full, upper-cased, and counts it
    as clipped, when the upper-cased sequence has at least [min_len]
    characters, and counts it in [short_clipped] otherwise. *)
Theorem empty_primer_file reverse_complement set_iter mm rc :
  set_order set_iter →
  load_primers_as_re reverse_complement set_iter [] mm rc = Ok (0, [[]]) ∧
  (∀ target, re_search [[]] target = Some (0, 0)) ∧
  (∀ min_len keep n written record,
     fastq_forward_step [[]] min_len keep (n, written) record =
     if min_len <=? length (upper (fq_sequence record))
     then (incr_clipped n,
           written ++ [FastqRecord (fq_identifier record)
                         (upper (fq_sequence record))
                         (fq_description record) (fq_quality record)])
     else (incr_short_clipped n, written)).
Proof.
  intros Hord. split; [|split].
  - unfold load_primers_as_re, primer_patterns. cbn [for_each].
    bind_step. cbn [concat]. by rewrite (set_order_nil _ Hord).
  - by intros [|c target].
  - intros min_len keep n written record. unfold fastq_forward_step.
    assert (re_search [[]] (upper (fq_sequence record)) = Some (0, 0))
      as -> by (by destruct (upper (fq_sequence record))).
    cbn [fq_set_sequence fq_set_quality fq_sequence fq_identifier
         fq_description fq_quality].
    by rewrite !drop_0.
Qed.

Lemma empty_primer_file_witness :
  load_primers_as_re (λ s, s) remove_dups [] 7 true = Ok (0, [[]]).
Proof.
  exact (proj1 (empty_primer_file (λ s, s) remove_dups 7 true
                  remove_dups_order)).
Defined.

(** Matchers with the same branches find a match in the same strings and
    at the same start offset. *)
Lemma re_search_start_ext rx1 rx2 t :
  (∀ a, a ∈ rx1 ↔ a ∈ rx2) →
  match re_search rx1 t, re_search rx2 t with
  | Some (s1, _), Some (s2, _) => s1 = s2
  | None, None => True
  | _, _ => False
  end.
Proof.
  intros Hrx.
  destruct (re_search rx1 t) as [[s1 e1]|] eqn:H1;
    destruct (re_search rx2 t) as [[s2 e2]|] eqn:H2; try done.
  - pose proof (re_search_bounds _ _ _ _ H1) as [? ?].
    pose proof (re_search_bounds _ _ _ _ H2) as [? ?].
    apply re_search_Some in H1 as [(b1 & Hb1 & Hm1) Hl1].
    apply re_search_Some in H2 as [(b2 & Hb2 & Hm2) Hl2].
    destruct (Nat.lt_trichotomy s1 s2) as [Hlt|[->|Hlt]]; [|done|].
    + rewrite (Hl2 b1 s1) in Hm1; [done | by apply Hrx | done].
    + rewrite (Hl1 b2 s2) in Hm2; [done | by apply Hrx | done].
  - pose proof (re_search_bounds _ _ _ _ H1) as [? ?].
    apply re_search_Some in H1 as [(b1 & Hb1 & Hm1) _].
    rewrite re_search_None in H2.
    rewrite (H2 b1 s1) in Hm1; [done | by apply Hrx | lia].
  - pose proof (re_search_bounds _ _ _ _ H2) as [? ?].
    apply re_search_Some in H2 as [(b2 & Hb2 & Hm2) _].
    rewrite re_search_None in H1.
    rewrite (H1 b2 s2) in Hm2; [done | by apply Hrx | lia].
Qed.

(** X8.  Where a read matches depends on the primer file only through the
    set of its upper-cased primer sequences: two files with the same
    primers up to order, repetition and letter case, compiled under any two
    iteration orders of the pattern set, match the same reads at the same
    start offset.  The reverse loop, which cuts at the start of the match,
    therefore gives the same result for both. *)
Theorem matching_depends_on_primer_set reverse_complement iter1 iter2
    records1 records2 mm rc c1 rx1 c2 rx2 :
  set_order iter1 → set_order iter2 →
  (∀ s, (∃ r, r ∈ records1 ∧ upper (primer_seq reverse_complement rc r) = s)
        ↔
        (∃ r, r ∈ records2 ∧ upper (primer_seq reverse_complement rc r) = s))
  →
  load_primers_as_re reverse_complement iter1 records1 mm rc = Ok (c1, rx1) →
  load_primers_as_re reverse_complement iter2 records2 mm rc = Ok (c2, rx2) →
  (∀ target,
     match re_search rx1 target, re_search rx2 target with
     | Some (s1, _), Some (s2, _) => s1 = s2
     | None, None => True
     | _, _ => False
     end) ∧
  (∀ min_len keep st record,
     fastq_reverse_step rx1 min_len keep st record =
     fastq_reverse_step rx2 min_len keep st record).
Proof.
  intros H1 H2 Hset Hl1 Hl2.
  destruct (load_primers_as_re_branches _ _ _ _ _ _ _ H1 Hl1)
    as (_ & Hnil1 & Hbr1).
  destruct (load_primers_as_re_branches _ _ _ _ _ _ _ H2 Hl2)
    as (_ & Hnil2 & Hbr2).
  assert (Hrx : ∀ a, a ∈ rx1 ↔ a ∈ rx2).
  { destruct records1 as [|r1 records1]; destruct records2 as [|r2 records2].
    - by rewrite Hnil1, Hnil2.
    - exfalso.
      destruct (proj2 (Hset (upper (primer_seq reverse_complement rc r2))))
        as (r & Hr & _).
      { exists r2. split; [left | done]. }
      by apply elem_of_nil in Hr.
    - exfalso.
      destruct (proj1 (Hset (upper (primer_seq reverse_complement rc r1))))
        as (r & Hr & _).
      { exists r1. split; [left | done]. }
      by apply elem_of_nil in Hr.
    - intros a. rewrite Hbr1, Hbr2 by done. split.
      + intros (r & p & Hr & Hy & Hp).
        destruct (proj1 (Hset (upper (primer_seq reverse_complement rc r))))
          as (r' & Hr' & Heq); [by exists r|].
        exists r', p. by rewrite Heq.
      + intros (r & p & Hr & Hy & Hp).
        destruct (proj2 (Hset (upper (primer_seq reverse_complement rc r))))
          as (r' & Hr' & Heq); [by exists r|].
        exists r', p. by rewrite Heq. }
  assert (Hstart : ∀ target,
     match re_search rx1 target, re_search rx2 target with
     | Some (s1, _), Some (s2, _) => s1 = s2
     | None, None => True
     | _, _ => False
     end) by (intros target; by apply re_search_start_ext).
  split; [done|].
  intros min_len keep [n written] record. unfold fastq_reverse_step.
  specialize (Hstart (upper (fq_sequence record))).
  destruct (re_search rx1 _) as [[s1 e1]|];
    destruct (re_search rx2 _) as [[s2 e2]|]; try done.
  by subst s2.
Qed.

Lemma reversed_remove_dups_order : set_order (λ l, reverse (remove_dups l)).
Proof.
  intros added. split.
  - rewrite reverse_Permutation. apply NoDup_remove_dups.
  - intros p. by rewrite elem_of_reverse, elem_of_remove_dups.
Qed.

Lemma matching_depends_on_primer_set_witness :
  ∃ rx1 rx2,
    load_primers_as_re (λ s, s) remove_dups
      [FastaRecord (s_ "a") (s_ "acgt"); FastaRecord (s_ "b") (s_ "GGN")]
      1 false = Ok (2, rx1) ∧
    load_primers_as_re (λ s, s) (λ l, reverse (remove_dups l))
      [FastaRecord (s_ "b") (s_ "ggn"); FastaRecord (s_ "a") (s_ "ACGT");
       FastaRecord (s_ "c") (s_ "GGN")]
      1 false = Ok (3, rx2) ∧
    ∀ min_len keep st record,
      fastq_reverse_step rx1 min_len keep st record =
      fastq_reverse_step rx2 min_len keep st record.
Proof.
  eexists _, _. split; [vm_compute; reflexivity|].
  split; [vm_compute; reflexivity|].
  apply (matching_depends_on_primer_set (λ s, s) remove_dups
           (λ l, reverse (remove_dups l))
           [FastaRecord (s_ "a") (s_ "acgt"); FastaRecord (s_ "b") (s_ "GGN")]
           [FastaRecord (s_ "b") (s_ "ggn"); FastaRecord (s_ "a") (s_ "ACGT");
            FastaRecord (s_ "c") (s_ "GGN")]
           1 false 2 _ 3 _).
  - apply remove_dups_order.
  - apply reversed_remove_dups_order.
  - intros s. split; intros (r & Hr & <-);
      repeat (apply elem_of_cons in Hr as [->|Hr]);
      try (by apply elem_of_nil in Hr).
    + eexists. split; [right; left | reflexivity].
    + eexists. split; [left | reflexivity].
    + eexists. split; [right; left | reflexivity].
    + eexists. split; [left | reflexivity].
    + eexists. split; [right; left | reflexivity].
  - vm_compute. reflexivity.
  - vm_compute. reflexivity.
Defined.

(** X9.  The end of the match, and with it the forward cut, is not fixed
    by the inputs: patterns of equal text length keep the iteration order
    of the pattern set, and two such patterns can match at the same offset
    with different lengths.  For the primer AC with one mismatch allowed
    and the read CC, one order of the set tries "^C" first and cuts one
    base, another tries ".C" first and cuts two. *)
Theorem forward_cut_depends_on_set_order :
  ∃ iter1 iter2 rx1 rx2,
    set_order iter1 ∧ set_order iter2 ∧
    load_primers_as_re (λ s, s) iter1
      [FastaRecord (s_ "primer") (s_ "AC")] 1 false = Ok (1, rx1) ∧
    load_primers_as_re (λ s, s) iter2
      [FastaRecord (s_ "primer") (s_ "AC")] 1 false = Ok (1, rx2) ∧
    fastq_forward_step rx1 0 false (no_counts, [])
      (FastqRecord (s_ "read") (s_ "CC") [] (s_ "IJ"))
    = (incr_clipped no_counts,
       [FastqRecord (s_ "read") (s_ "C") [] (s_ "J")]) ∧
    fastq_forward_step rx2 0 false (no_counts, [])
      (FastqRecord (s_ "read") (s_ "CC") [] (s_ "IJ"))
    = (incr_clipped no_counts, [FastqRecord (s_ "read") [] [] []]).
Proof.
  exists remove_dups, (λ l, reverse (remove_dups l)).
  eexists _, _.
  split; [apply remove_dups_order|].
  split; [apply reversed_remove_dups_order|].
  split; [vm_compute; reflexivity|].
  split; [vm_compute; reflexivity|].
  split; vm_compute; reflexivity.
Qed.

Lemma make_reg_ex_Raise_letter seq e :
  make_reg_ex seq = Raise e →
  ∃ c, c ∈ seq ∧ valid_letter c = false ∧ e = KeyError [c].
Proof.
  induction seq as [|letter seq IH]; [done|]. cbn [make_reg_ex].
  destruct (getitem ambiguous_dna_re letter) as [r|e'] eqn:Hr.
  - bind_step. destruct (make_reg_ex seq) as [rs|e'']; [done|].
    intros [= <-]. destruct (IH eq_refl) as (c & Hc & Hv & He).
    exists c. split; [by right | done].
  - intros [= <-]. exists letter. split; [left|].
    unfold valid_letter. rewrite Hr. split; [done|].
    by apply getitem_Raise in Hr.
Qed.

(** What generation makes of a primer: patterns, the refusal of a budget
    above two, or the [KeyError] of one of its letters. *)
Lemma make_reg_ex_mm_outcome seq mm :
  match make_reg_ex_mm seq mm with
  | Ok pats => mm ≤ 2 ∧ valid_seq (upper seq) = true
  | Raise e =>
      (2 < mm ∧ e = NotImplementedError) ∨
      (mm ≤ 2 ∧ ∃ c, c ∈ upper seq ∧ valid_letter c = false ∧
                      e = KeyError [c])
  end.
Proof.
  unfold make_reg_ex_mm.
  destruct (Nat.ltb_spec 2 mm) as [Hgt|Hle].
  - rewrite make_reg_ex_mm_rec_unfold.
    apply Nat.ltb_lt in Hgt as Hlt. rewrite Hlt. left. split; [lia|done].
  - destruct (valid_seq (upper seq)) eqn:Hv.
    + destruct (make_reg_ex_mm_rec_Ok mm seq mm Hle Hv) as [pats ->]. done.
    + rewrite make_reg_ex_mm_rec_unfold.
      apply Nat.ltb_ge in Hle as Hlt. rewrite Hlt.
      destruct (make_reg_ex (upper seq)) as [exact|e] eqn:Hexact.
      * assert (valid_seq (upper seq) = true)
          by (apply make_reg_ex_Ok; by eexists).
        congruence.
      * bind_step. right. split; [done|].
        by apply make_reg_ex_Raise_letter.
Qed.

Lemma load_primers_as_re_Raise_letter reverse_complement set_iter records mm
    rc e :
  set_order set_iter → mm ≤ 2 →
  load_primers_as_re reverse_complement set_iter records mm rc = Raise e →
  ∃ r c, r ∈ records ∧
         c ∈ upper (primer_seq reverse_complement rc r) ∧
         valid_letter c = false ∧ e = KeyError [c].
Proof.
  intros Hord Hmm Hload. unfold load_primers_as_re in Hload.
  destruct (primer_patterns reverse_complement records mm rc)
    as [added|e'] eqn:Hadded.
  - rewrite result_bind_l in Hload.
    destruct (primer_patterns_compile _ _ _ _ _ _ Hord Hadded) as [rx Hrx].
    by rewrite Hrx in Hload.
  - injection Hload as <-. unfold primer_patterns in Hadded.
    destruct (for_each _ records) as [pats|e''] eqn:Hpats; [done|].
    injection Hadded as <-.
    apply for_each_Raise in Hpats as (r & Hr & Hgen).
    pose proof (make_reg_ex_mm_outcome
                  (primer_seq reverse_complement rc r) mm) as Hout.
    unfold primer_seq in Hout. rewrite Hgen in Hout.
    destruct Hout as [[? _]|(_ & c & Hc & Hv & ->)]; [lia|].
    by exists r, c.
Qed.

(** X10.  Loading the primers fails in two ways only.  With a budget
    above two and at least one primer it raises [NotImplementedError];
    with a budget of at most two it raises the [KeyError] of a letter of
    some upper-cased primer that is not in the table, and returns when
    there is no such letter.  In particular [re.compile] never rejects the
    pattern text the script builds. *)
Theorem load_primers_as_re_outcome reverse_complement set_iter records mm rc :
  set_order set_iter →
  match load_primers_as_re reverse_complement set_iter records mm rc with
  | Ok (count, rx) =>
      count = length records ∧
      (records = [] ∨ mm ≤ 2) ∧
      ∀ r, r ∈ records →
           valid_seq (upper (primer_seq reverse_complement rc r)) = true
  | Raise e =>
      (2 < mm ∧ records ≠ [] ∧ e = NotImplementedError) ∨
      (mm ≤ 2 ∧
       ∃ r c, r ∈ records ∧
              c ∈ upper (primer_seq reverse_complement rc r) ∧
              valid_letter c = false ∧ e = KeyError [c])
  end.
Proof.
  intros Hord.
  destruct (load_primers_as_re reverse_complement set_iter records mm rc)
    as [[count rx]|e] eqn:Hload.
  - destruct (load_primers_as_re_branches _ _ _ _ _ _ _ Hord Hload)
      as (-> & _ & _).
    split; [done|]. split.
    + destruct records as [|r records]; [by left|]. right.
      by apply (load_primers_as_re_inv _ _ _ _ _ _ _ r Hload); left.
    + intros r Hr. by apply (load_primers_as_re_inv _ _ _ _ _ _ _ r Hload).
  - unfold load_primers_as_re in Hload.
    destruct (primer_patterns reverse_complement records mm rc)
      as [added|e'] eqn:Hadded.
    + rewrite result_bind_l in Hload.
      destruct (primer_patterns_compile _ _ _ _ _ _ Hord Hadded) as [rx Hrx].
      by rewrite Hrx in Hload.
    + injection Hload as <-. unfold primer_patterns in Hadded.
      destruct (for_each _ records) as [pats|e''] eqn:Hpats; [done|].
      injection Hadded as <-.
      apply for_each_Raise in Hpats as (r & Hr & Hgen).
      pose proof (make_reg_ex_mm_outcome
                    (primer_seq reverse_complement rc r) mm) as Hout.
      unfold primer_seq in Hout. rewrite Hgen in Hout.
      destruct Hout as [[Hmm ->]|(Hmm & c & Hc & Hv & ->)].
      * left. split; [done|]. split; [|done].
        intros ->. by apply elem_of_nil in Hr.
      * right. split; [done|]. by exists r, c.
Qed.

Lemma load_primers_as_re_outcome_witness :
  match load_primers_as_re (λ s, s) remove_dups
          [FastaRecord (s_ "p1") (s_ "acgt"); FastaRecord (s_ "p2") (s_ "AC-G")]
          1 false with
  | Ok (count, rx) =>
      count = 2 ∧
      ([FastaRecord (s_ "p1") (s_ "acgt"); FastaRecord (s_ "p2") (s_ "AC-G")]
       = [] ∨ 1 ≤ 2) ∧
      ∀ r, r ∈ [FastaRecord (s_ "p1") (s_ "acgt");
                FastaRecord (s_ "p2") (s_ "AC-G")] →
           valid_seq (upper (primer_seq (λ s, s) false r)) = true
  | Raise e =>
      (2 < 1 ∧
       [FastaRecord (s_ "p1") (s_ "acgt"); FastaRecord (s_ "p2") (s_ "AC-G")]
       ≠ [] ∧ e = NotImplementedError) ∨
      (1 ≤ 2 ∧
       ∃ r c, r ∈ [FastaRecord (s_ "p1") (s_ "acgt");
                   FastaRecord (s_ "p2") (s_ "AC-G")] ∧
              c ∈ upper (primer_seq (λ s, s) false r) ∧
              valid_letter c = false ∧ e = KeyError [c])
  end.
Proof.
  exact (load_primers_as_re_outcome (λ s, s) remove_dups
           [FastaRecord (s_ "p1") (s_ "acgt");
            FastaRecord (s_ "p2") (s_ "AC-G")] 1 false remove_dups_order).
Defined.


(** ** Whole runs *)

Lemma for_loop_pure {S A} (step : S → A → S) l st :
  for_loop (λ st a, Ok (step st a)) st l = Ok (foldl step st l).
Proof.
  revert st. induction l as [|a l IH]; intros st; simpl; [done|].
  bind_step. apply IH.
Qed.

(** A run writes, in order, one record for some of the records read. *)
Lemma for_loop_writes {R} (ident : R → str) (related : R → R → Prop) body :
  step_writes ident related body →
  ∀ records n w n' w',
    for_loop body (n, w) records = Ok (n', w') →
    ∃ out,
      w' = w ++ out ∧
      clipped n' + negs n' = clipped n + negs n + length out ∧
      map ident out `sublist_of` map ident records ∧
      ∀ r', r' ∈ out → ∃ r, r ∈ records ∧ related r r'.
Proof.
  intros Hstep.
  induction records as [|r records IH]; intros n w n' w'; simpl.
  - intros [= <- <-]. exists []. rewrite app_nil_r. simpl.
    split; [done|]. split; [lia|]. split; [done|].
    by intros r' ?%elem_of_nil.
  - destruct (body (n, w) r) as [[n1 w1]|] eqn:Hb; [|done]. bind_step.
    intros (out & -> & Hc & Hsub & Hrel)%IH.
    apply Hstep in Hb as [[-> Hn]|(r1 & -> & Hid & Hn & Hr1)].
    + exists out. split; [done|]. split; [lia|].
      split; [by apply sublist_cons|].
      intros r' (r0 & Hr0 & Hrr)%Hrel. exists r0. split; [by right|done].
    + exists (r1 :: out). rewrite <- app_assoc. split; [done|].
      simpl. split; [lia|]. split.
      * rewrite Hid. by apply sublist_skip.
      * intros r' [->|Hin]%elem_of_cons.
        -- exists r. split; [left | done].
        -- destruct (Hrel r' Hin) as (r0 & Hr0 & Hrr).
           exists r0. split; [by right | done].
Qed.

Ltac step_cases := repeat case_match; simplify_eq; simpl; eauto 10.

Lemma fastq_step_writes primer min_len keep (forward : bool) :
  step_writes fq_identifier
    (λ r r', min_len ≤ length (fq_sequence r') ∧
             (length (fq_quality r) = length (fq_sequence r) →
              length (upper (fq_sequence r)) = length (fq_sequence r) →
              length (fq_quality r') = length (fq_sequence r')))
    (λ st r, Ok ((if forward then fastq_forward_step primer min_len keep
                  else fastq_reverse_step primer min_len keep) st r)).
Proof.
  intros n w r n' w' [= Hst].
  destruct forward; unfold fastq_forward_step, fastq_reverse_step in Hst;
    repeat case_match; simplify_eq;
    cbn [fq_set_sequence fq_set_quality fq_sequence fq_identifier
         fq_description fq_quality] in *;
    try (left; split; [done | simpl; lia]);
    right; eexists; (split; [done|]); simpl; (split; [done|]);
    (split; [lia|]).
  all: match goal with
       | H : (_ <=? _) = true |- _ => apply Nat.leb_le in H
       end;
       (split; [done|]); intros Hq Hup;
       rewrite ?length_drop, ?length_take; lia.
Qed.

Lemma fasta_step_writes primer min_len keep (forward : bool) :
  step_writes fa_identifier
    (λ r r', min_len ≤ length (fa_sequence r'))
    (λ st r, Ok ((if forward then fasta_forward_step primer min_len keep
                  else fasta_reverse_step primer min_len keep) st r)).
Proof.
  intros n w r n' w' [= Hst].
  destruct forward; unfold fasta_forward_step, fasta_reverse_step in Hst;
    repeat case_match; simplify_eq;
    cbn [fa_set_sequence fa_sequence fa_identifier] in *;
    try (left; split; [done | simpl; lia]);
    right; eexists; (split; [done|]); simpl; (split; [done|]);
    (split; [lia|]).
  all: match goal with
       | H : (_ <=? _) = true |- _ => by apply Nat.leb_le in H
       end.
Qed.

(** X11.  Whatever the orientation, a FASTQ or FASTA run writes at most
    one record per record read, in the order read and under the identifier
    read; every record written has at least [min_len] bases, and the
    number of records written is the growth of [clipped] plus that of
    [negs], the two counts the script reports as kept. *)
Theorem runs_write_selected_records primer min_len keep forward n :
  (∀ reader n' out,
     clip_fastq primer min_len keep forward n reader = (n', out) →
     map fq_identifier out `sublist_of` map fq_identifier reader ∧
     clipped n' + negs n' = clipped n + negs n + length out ∧
     ∀ r', r' ∈ out → min_len ≤ length (fq_sequence r')) ∧
  (∀ reader n' out,
     clip_fasta primer min_len keep forward n reader = (n', out) →
     map fa_identifier out `sublist_of` map fa_identifier reader ∧
     clipped n' + negs n' = clipped n + negs n + length out ∧
     ∀ r', r' ∈ out → min_len ≤ length (fa_sequence r')).
Proof.
  split; intros reader n' out Hrun.
  - assert (Hloop : for_loop
      (λ st r, Ok ((if forward then fastq_forward_step primer min_len keep
                    else fastq_reverse_step primer min_len keep) st r))
      (n, []) reader = Ok (n', out)).
    { rewrite for_loop_pure, <- Hrun. unfold clip_fastq.
      by destruct forward. }
    apply (for_loop_writes _ _ _ (fastq_step_writes _ _ _ _)) in Hloop
      as (out' & -> & Hc & Hsub & Hrel).
    split; [done|]. split; [done|].
    intros r' (r & _ & Hlen & _)%Hrel. done.
  - assert (Hloop : for_loop
      (λ st r, Ok ((if forward then fasta_forward_step primer min_len keep
                    else fasta_reverse_step primer min_len keep) st r))
      (n, []) reader = Ok (n', out)).
    { rewrite for_loop_pure, <- Hrun. unfold clip_fasta.
      by destruct forward. }
    apply (for_loop_writes _ _ _ (fasta_step_writes _ _ _ _)) in Hloop
      as (out' & -> & Hc & Hsub & Hrel).
    split; [done|]. split; [done|].
    intros r' (r & _ & Hlen)%Hrel. done.
Qed.

Lemma runs_write_selected_records_witness :
  map fq_identifier
    [FastqRecord (s_ "r1") (s_ "GGGG") [] (s_ "EFGH");
     FastqRecord (s_ "r3") (s_ "ggggtt") [] (s_ "IIIIII")]
  `sublist_of`
  map fq_identifier
    [FastqRecord (s_ "r1") (s_ "ttacgggg") [] (s_ "ABCDEFGH");
     FastqRecord (s_ "r2") (s_ "tt") [] (s_ "II");
     FastqRecord (s_ "r3") (s_ "ggggtt") [] (s_ "IIIIII")] ∧
  clipped (Counters 1 0 1 1) + negs (Counters 1 0 1 1) =
  clipped no_counts + negs no_counts +
  length [FastqRecord (s_ "r1") (s_ "GGGG") [] (s_ "EFGH");
          FastqRecord (s_ "r3") (s_ "ggggtt") [] (s_ "IIIIII")] ∧
  ∀ r', r' ∈ [FastqRecord (s_ "r1") (s_ "GGGG") [] (s_ "EFGH");
              FastqRecord (s_ "r3") (s_ "ggggtt") [] (s_ "IIIIII")] →
        3 ≤ length (fq_sequence r').
Proof.
  apply (proj1 (runs_write_selected_records [[LITERAL "A"; LITERAL "C"]] 3
                  true true no_counts)
           [FastqRecord (s_ "r1") (s_ "ttacgggg") [] (s_ "ABCDEFGH");
            FastqRecord (s_ "r2") (s_ "tt") [] (s_ "II");
            FastqRecord (s_ "r3") (s_ "ggggtt") [] (s_ "IIIIII")]
           (Counters 1 0 1 1)).
  reflexivity.
Defined.

(** X12.  Qualities stay in step with the bases, for reads whose length
    upper-casing keeps (as it does for ASCII reads): if every FASTQ record
    read has as many quality characters as bases, and as many characters
    upper-cased as it has as read, then every record written, clipped or
    not, in either orientation, has as many quality characters as bases.
    The loops cut the qualities at the offset found in the upper-cased
    sequence, so the second condition is needed. *)
Theorem fastq_quality_in_step primer min_len keep forward n reader n' out :
  clip_fastq primer min_len keep forward n reader = (n', out) →
  (∀ r, r ∈ reader → length (fq_quality r) = length (fq_sequence r)) →
  (∀ r, r ∈ reader →
        length (upper (fq_sequence r)) = length (fq_sequence r)) →
  ∀ r', r' ∈ out → length (fq_quality r') = length (fq_sequence r').
Proof.
  intros Hrun Hin Hup r' Hr'.
  assert (Hloop : for_loop
    (λ st r, Ok ((if forward then fastq_forward_step primer min_len keep
                  else fastq_reverse_step primer min_len keep) st r))
    (n, []) reader = Ok (n', out)).
  { rewrite for_loop_pure, <- Hrun. unfold clip_fastq. by destruct forward. }
  apply (for_loop_writes _ _ _ (fastq_step_writes _ _ _ _)) in Hloop
    as (out' & -> & _ & _ & Hrel).
  destruct (Hrel r' Hr') as (r & Hr & _ & Hq). apply Hq; [by apply Hin|].
  by apply Hup.
Qed.

Lemma fastq_quality_in_step_witness :
  clip_fastq [[LITERAL "A"; LITERAL "C"]] 1 false false no_counts
    [FastqRecord (s_ "r1") (s_ "ttacgggg") [] (s_ "ABCDEFGH");
     FastqRecord (s_ "r2") (s_ "tt") [] (s_ "II")]
  = (Counters 0 0 1 0, [FastqRecord (s_ "r1") (s_ "TT") [] (s_ "AB")]) ∧
  ∀ r', r' ∈ [FastqRecord (s_ "r1") (s_ "TT") [] (s_ "AB")] →
        length (fq_quality r') = length (fq_sequence r').
Proof.
  split; [reflexivity|].
  apply (fastq_quality_in_step [[LITERAL "A"; LITERAL "C"]] 1 false false
           no_counts
           [FastqRecord (s_ "r1") (s_ "ttacgggg") [] (s_ "ABCDEFGH");
            FastqRecord (s_ "r2") (s_ "tt") [] (s_ "II")]
           (Counters 0 0 1 0)).
  - reflexivity.
  - intros r Hr. repeat (apply elem_of_cons in Hr as [->|Hr]); try done.
    by apply elem_of_nil in Hr.
  - intros r Hr. repeat (apply elem_of_cons in Hr as [->|Hr]); try done.
    by apply elem_of_nil in Hr.
Defined.

Lemma sff_step_writes primer min_len keep (forward : bool) :
  step_writes sff_id (sff_clip primer min_len forward)
    (if forward then sff_forward_step primer min_len keep
     else sff_reverse_step primer min_len keep).
Proof.
  intros n w r n' w' Hst. unfold sff_clip.
  destruct forward; unfold sff_forward_step, sff_reverse_step in Hst;
    (sff_clips r l rc);
    simpl in Hst;
    destruct (re_search primer _) as [[s e]|] eqn:Hsearch;
    repeat case_match; simplify_eq;
    try (left; split; [done | simpl; lia]);
    right; eexists; (split; [done|]); (split; [done|]);
    (split; [simpl; lia|]); exists l, rc; (split; [done|]); (split; [done|]);
    simpl; rewrite Hsearch;
    match goal with
    | H : (_ <=? _) = true |- _ => apply Nat.leb_le in H
    end; done.
Qed.

Lemma slice_int_move_left {A} (l rc : Z) (e : nat) (s : list A) :
  (0 ≤ l)%Z →
  slice_int (l + Z.of_nat e) rc s = drop e (slice_int l rc s).
Proof.
  intros Hl. unfold slice_int, slice, slice_index.
  destruct (Z.ltb_spec l 0) as [?|_]; [lia|].
  destruct (Z.ltb_spec (l + Z.of_nat e) 0) as [?|_]; [lia|].
  rewrite drop_drop. f_equal. lia.
Qed.

Lemma slice_int_move_right {A} (l rc : Z) (k : nat) (s : list A) :
  (0 ≤ l)%Z → k ≤ length (slice_int l rc s) →
  slice_int l (l + Z.of_nat k) s = take k (slice_int l rc s).
Proof.
  intros Hl. unfold slice_int, slice, slice_index.
  destruct (Z.ltb_spec l 0) as [?|_]; [lia|].
  destruct (Z.ltb_spec (l + Z.of_nat k) 0) as [?|_]; [lia|].
  set (b := if (rc <? 0)%Z then _ else _). clearbody b.
  rewrite length_drop, length_take. intros Hk.
  rewrite take_drop_commute, take_take.
  replace (Z.to_nat (l + Z.of_nat k)) with (Z.to_nat l + k) by lia.
  destruct (decide (k = 0)) as [->|Hk0].
  - rewrite !drop_ge; [done | rewrite length_take; lia
                      | rewrite length_take; lia].
  - by rewrite Nat.min_l by lia.
Qed.

Lemma sff_window_ints record l r :
  annotation_int record "clip_qual_left" = Ok l →
  annotation_int record "clip_qual_right" = Ok r →
  sff_window record = Ok (upper (slice_int l r (sff_seq record))).
Proof.
  unfold sff_window. intros Hl Hr. sff_clips record l' r'.
  by injection Hl as ->; injection Hr as ->.
Qed.

Lemma annotation_int_set r key v key' :
  annotation_int (sff_set_annotation r key (ann_int v)) key' =
  if decide (key = key') then Ok v else annotation_int r key'.
Proof.
  unfold annotation_int, sff_set_annotation. simpl.
  destruct (decide (key = key')) as [->|Hne].
  - by rewrite lookup_insert_eq.
  - by rewrite lookup_insert_ne.
Qed.

(** X13.  What an SFF run yields.  It yields at most one record per record
    read, in the order read and under the identifier read, as many as
    [clipped] and [negs] grow by.  Where the left clip values read are not
    negative, the record yielded for a matched read has as its clip window
    the old window after the match (forward) or before it (reverse), as the
    FASTQ and FASTA loops cut the sequence itself; an unmatched read is
    yielded as read; and the window yielded has at least [min_len]
    bases. *)
Theorem sff_run_moves_window primer min_len keep forward n records n' out :
  process primer min_len keep forward n records = Ok (n', out) →
  map sff_id out `sublist_of` map sff_id records ∧
  clipped n' + negs n' = clipped n + negs n + length out ∧
  ((∀ r left_clip,
      r ∈ records → annotation_int r "clip_qual_left" = Ok left_clip →
      (0 ≤ left_clip)%Z) →
   ∀ r', r' ∈ out →
     ∃ r seq seq',
       r ∈ records ∧ sff_window r = Ok seq ∧ sff_window r' = Ok seq' ∧
       min_len ≤ length seq' ∧
       match re_search primer seq with
       | Some (s, e) => seq' = if forward then drop e seq else take s seq
       | None => r' = r
       end).
Proof.
  intros Hrun. unfold process in Hrun.
  assert (Hloop :
    for_loop (if forward then sff_forward_step primer min_len keep
              else sff_reverse_step primer min_len keep) (n, []) records
    = Ok (n', out)) by (by destruct forward).
  apply (for_loop_writes _ _ _ (sff_step_writes _ _ _ _)) in Hloop
    as (out' & -> & Hc & Hsub & Hrel).
  split; [done|]. split; [done|].
  intros Hleft r' Hr'.
  destruct (Hrel r' Hr') as (r & Hr & l & rc & Hl & Hrc & Hclip).
  pose proof (Hleft r l Hr Hl) as Hl0.
  exists r, (upper (slice_int l rc (sff_seq r))).
  assert (Hw : sff_window r = Ok (upper (slice_int l rc (sff_seq r))))
    by (by apply sff_window_ints).
  simpl in Hclip.
  destruct (re_search primer _) as [[s e]|] eqn:Hsearch.
  - pose proof (re_search_bounds _ _ _ _ Hsearch) as Hb.
    rewrite length_upper in Hb.
    destruct forward; destruct Hclip as [Hlen ->].
    + exists (drop e (upper (slice_int l rc (sff_seq r)))).
      split; [done|]. split; [done|]. split; [|split; [|done]].
      * rewrite (sff_window_ints _ (l + Z.of_nat e) rc); simpl;
          [|by rewrite annotation_int_set | by rewrite annotation_int_set].
        by rewrite slice_int_move_left, upper_drop.
      * by rewrite length_drop.
    + exists (take s (upper (slice_int l rc (sff_seq r)))).
      split; [done|]. split; [done|]. split; [|split; [|done]].
      * rewrite (sff_window_ints _ l (l + Z.of_nat s)); simpl;
          [|by rewrite annotation_int_set | by rewrite annotation_int_set].
        by rewrite (slice_int_move_right _ rc), upper_take by lia.
      * rewrite length_take, length_upper. lia.
  - destruct Hclip as [Hlen ->].
    exists (upper (slice_int l rc (sff_seq r))). done.
Qed.

Lemma sff_run_moves_window_witness :
  map sff_id
    [SffRecord (s_ "read") (s_ "ttACgg") [30; 30; 30; 30; 30; 30]%Z
       (<["clip_qual_left"%string := ann_int 4]>
          (<["clip_qual_right"%string := ann_int 6]> ∅))]
  `sublist_of`
  map sff_id
    [SffRecord (s_ "read") (s_ "ttACgg") [30; 30; 30; 30; 30; 30]%Z
       (<["clip_qual_left"%string := ann_int 0]>
          (<["clip_qual_right"%string := ann_int 6]> ∅));
     SffRecord (s_ "other") (s_ "tttttt") [30; 30; 30; 30; 30; 30]%Z
       (<["clip_qual_left"%string := ann_int 0]>
          (<["clip_qual_right"%string := ann_int 6]> ∅))] ∧
  clipped (incr_clipped no_counts) + negs (incr_clipped no_counts) =
  clipped no_counts + negs no_counts + 1 ∧
  ∃ r seq seq',
    r ∈ [SffRecord (s_ "read") (s_ "ttACgg") [30; 30; 30; 30; 30; 30]%Z
           (<["clip_qual_left"%string := ann_int 0]>
              (<["clip_qual_right"%string := ann_int 6]> ∅));
         SffRecord (s_ "other") (s_ "tttttt") [30; 30; 30; 30; 30; 30]%Z
           (<["clip_qual_left"%string := ann_int 0]>
              (<["clip_qual_right"%string := ann_int 6]> ∅))] ∧
    sff_window r = Ok seq ∧
    sff_window
      (SffRecord (s_ "read") (s_ "ttACgg") [30; 30; 30; 30; 30; 30]%Z
         (<["clip_qual_left"%string := ann_int 4]>
            (<["clip_qual_right"%string := ann_int 6]> ∅))) = Ok seq' ∧
    1 ≤ length seq' ∧
    match re_search [[LITERAL "A"; LITERAL "C"]] seq with
    | Some (s, e) => seq' = drop e seq
    | None =>
        SffRecord (s_ "read") (s_ "ttACgg") [30; 30; 30; 30; 30; 30]%Z
          (<["clip_qual_left"%string := ann_int 4]>
             (<["clip_qual_right"%string := ann_int 6]> ∅)) = r
    end.
Proof.
  destruct (sff_run_moves_window [[LITERAL "A"; LITERAL "C"]] 1 false true
              no_counts
              [SffRecord (s_ "read") (s_ "ttACgg") [30; 30; 30; 30; 30; 30]%Z
                 (<["clip_qual_left"%string := ann_int 0]>
                    (<["clip_qual_right"%string := ann_int 6]> ∅));
               SffRecord (s_ "other") (s_ "tttttt")
                 [30; 30; 30; 30; 30; 30]%Z
                 (<["clip_qual_left"%string := ann_int 0]>
                    (<["clip_qual_right"%string := ann_int 6]> ∅))]
              (incr_clipped no_counts)
              [SffRecord (s_ "read") (s_ "ttACgg") [30; 30; 30; 30; 30; 30]%Z
                 (<["clip_qual_left"%string := ann_int 4]>
                    (<["clip_qual_right"%string := ann_int 6]> ∅))])
    as (Hsub & Hcount & Hwin); [vm_compute; reflexivity|].
  split; [exact Hsub|]. split; [exact Hcount|].
  apply Hwin; [|left].
  intros r left_clip Hr Hleft.
  repeat (apply elem_of_cons in Hr as [->|Hr]);
    [vm_compute in Hleft; by injection Hleft as <- ..
    | by apply elem_of_nil in Hr].
Defined.

Lemma sff_step_outcome primer min_len keep (forward : bool) st record :
  match (if forward then sff_forward_step primer min_len keep
         else sff_reverse_step primer min_len keep) st record with
  | Ok _ => clip_values record
  | Raise e => clip_error record e
  end.
Proof.
  destruct st as [n y]. unfold clip_values, clip_error.
  destruct forward; unfold sff_forward_step, sff_reverse_step;
    unfold annotations_getitem;
    destruct (sff_annotations record !! "clip_qual_left"%string)
      as [[l| |]|];
    destruct (sff_annotations record !! "clip_qual_right"%string)
      as [[r| |]|];
    cbn [mbind result_bind slice_bound]; try done;
    repeat case_match; simplify_eq; eauto.
Qed.

Lemma for_loop_sff_outcome primer min_len keep (forward : bool) records :
  ∀ st,
    match for_loop (if forward then sff_forward_step primer min_len keep
                    else sff_reverse_step primer min_len keep) st records with
    | Ok _ => ∀ r, r ∈ records → clip_values r
    | Raise e =>
        ∃ before r after,
          records = before ++ r :: after ∧
          (∀ r0, r0 ∈ before → clip_values r0) ∧
          clip_error r e
    end.
Proof.
  induction records as [|record records IH]; intros st; simpl.
  - intros r Hr. by apply elem_of_nil in Hr.
  - pose proof (sff_step_outcome primer min_len keep forward st record)
      as Hstep.
    destruct ((if forward then _ else _) st record) as [st1|e]; simpl.
    + specialize (IH st1).
      destruct (for_loop _ st1 records) as [st2|e].
      * intros r [->|Hr]%elem_of_cons; [done | by apply IH].
      * destruct IH as (before & r & after & -> & Hbefore & He).
        exists (record :: before), r, after. split; [done|].
        split; [|done].
        intros r0 [->|Hr0]%elem_of_cons; [done | by apply Hbefore].
    + exists [], record, records. split; [done|].
      split; [|done]. intros r0 Hr0. by apply elem_of_nil in Hr0.
Qed.

(** X14.  An SFF run fails only on the annotations.  It returns when
    every record read holds an integer under both [clip_qual_left] and
    [clip_qual_right].  Otherwise it stops at the first record that does
    not, and the error is decided in the order the loop reads the values:
    the [KeyError] of [clip_qual_left] when that key is missing; the
    [KeyError] of [clip_qual_right] when the left key is there, whatever
    its value, and the right one is missing; a [TypeError] when both keys
    are there and one of the values is not an integer.  The sequence, the
    primers and the thresholds never make it fail. *)
Theorem process_outcome primer min_len keep forward n records :
  match process primer min_len keep forward n records with
  | Ok _ =>
      ∀ r, r ∈ records →
           ∃ l rc,
             sff_annotations r !! "clip_qual_left"%string
               = Some (ann_int l) ∧
             sff_annotations r !! "clip_qual_right"%string
               = Some (ann_int rc)
  | Raise e =>
      ∃ before r after,
        records = before ++ r :: after ∧
        (∀ r0, r0 ∈ before →
               ∃ l rc,
                 sff_annotations r0 !! "clip_qual_left"%string
                   = Some (ann_int l) ∧
                 sff_annotations r0 !! "clip_qual_right"%string
                   = Some (ann_int rc)) ∧
        match sff_annotations r !! "clip_qual_left"%string,
              sff_annotations r !! "clip_qual_right"%string with
        | None, _ => e = KeyError (s_ "clip_qual_left")
        | Some _, None => e = KeyError (s_ "clip_qual_right")
        | Some (ann_int _), Some (ann_int _) => False
        | Some _, Some _ => e = TypeError
        end
  end.
Proof.
  unfold process. destruct forward.
  - apply (for_loop_sff_outcome primer min_len keep true records (n, [])).
  - apply (for_loop_sff_outcome primer min_len keep false records (n, [])).
Qed.

(** ** The report *)

Lemma for_loop_count {R}
    (body : counters * list R → R → result (counters * list R))
    (m : counters → nat) (f : R → bool) :
  (∀ n w r n' w', body (n, w) r = Ok (n', w') →
                  m n' = m n + (if f r then 1 else 0)) →
  ∀ records n w n' w',
    for_loop body (n, w) records = Ok (n', w') →
    m n' = m n + count_if f records.
Proof.
  intros Hstep. unfold count_if.
  induction records as [|r records IH]; intros n w n' w'; simpl.
  - intros [= <- <-]. lia.
  - destruct (body (n, w) r) as [[n1 w1]|] eqn:Hb; [|done]. simpl.
    intros Hl. rewrite (IH _ _ _ _ Hl), (Hstep _ _ _ _ _ Hb).
    destruct (f r); simpl; lia.
Qed.

Lemma count_if_keep {A} (keep : bool) (g : A → bool) l :
  count_if (λ r, keep && g r) l = if keep then count_if g l else 0.
Proof.
  destruct keep; [done|]. unfold count_if. by induction l.
Qed.

Ltac sort_step :=
  repeat case_match; simplify_eq; simpl; lia.

Lemma fastq_step_sorts primer min_len keep (forward : bool) n w r n' w' :
  (if forward then fastq_forward_step primer min_len keep
   else fastq_reverse_step primer min_len keep) (n, w) r = (n', w') →
  clipped n' + short_clipped n' =
    clipped n + short_clipped n +
    (if counted primer false (upper (fq_sequence r)) then 1 else 0) ∧
  negs n' + short_neg n' =
    negs n + short_neg n +
    (if keep && negb (counted primer false (upper (fq_sequence r)))
     then 1 else 0).
Proof.
  destruct forward; unfold fastq_forward_step, fastq_reverse_step, counted;
    intros H; destruct (re_search primer _) as [[s e]|];
    destruct keep; sort_step.
Qed.

Lemma fasta_step_sorts primer min_len keep (forward : bool) n w r n' w' :
  (if forward then fasta_forward_step primer min_len keep
   else fasta_reverse_step primer min_len keep) (n, w) r = (n', w') →
  clipped n' + short_clipped n' =
    clipped n + short_clipped n +
    (if counted primer false (upper (fa_sequence r)) then 1 else 0) ∧
  negs n' + short_neg n' =
    negs n + short_neg n +
    (if keep && negb (counted primer false (upper (fa_sequence r)))
     then 1 else 0).
Proof.
  destruct forward; unfold fasta_forward_step, fasta_reverse_step, counted;
    intros H; destruct (re_search primer _) as [[s e]|];
    destruct keep; sort_step.
Qed.

Lemma sff_step_sorts primer min_len keep (forward : bool) n w r n' w' :
  (if forward then sff_forward_step primer min_len keep
   else sff_reverse_step primer min_len keep) (n, w) r = Ok (n', w') →
  clipped n' + short_clipped n' =
    clipped n + short_clipped n +
    (if sff_counted primer false r then 1 else 0) ∧
  negs n' + short_neg n' =
    negs n + short_neg n +
    (if keep && negb (sff_counted primer false r) then 1 else 0).
Proof.
  destruct forward;
    unfold sff_forward_step, sff_reverse_step, sff_counted, sff_window,
      counted;
    (sff_clips r l rc);
    simpl; intros H; destruct (re_search primer _) as [[s e]|];
    destruct keep; sort_step.
Qed.

(** X15.  The report sorts the reads.  In every format and orientation
    the two counts of its first two lines, [clipped] and [short_clipped],
    together grow by the number of reads a pattern matches (for SFF,
    inside the clip window), and the two counts of its last two lines,
    [negs] and [short_neg], together by the number of reads no pattern
    matches when unmatched reads are kept; they are left untouched when
    unmatched reads are dropped, the case in which those lines are not
    printed. *)
Theorem report_sorts_reads primer min_len keep forward n :
  (∀ reader n' out,
     clip_fastq primer min_len keep forward n reader = (n', out) →
     clipped n' + short_clipped n' =
       clipped n + short_clipped n +
       count_if (λ r, counted primer false (upper (fq_sequence r))) reader ∧
     negs n' + short_neg n' =
       negs n + short_neg n +
       (if keep
        then count_if (λ r, negb (counted primer false
                                    (upper (fq_sequence r)))) reader
        else 0)) ∧
  (∀ reader n' out,
     clip_fasta primer min_len keep forward n reader = (n', out) →
     clipped n' + short_clipped n' =
       clipped n + short_clipped n +
       count_if (λ r, counted primer false (upper (fa_sequence r))) reader ∧
     negs n' + short_neg n' =
       negs n + short_neg n +
       (if keep
        then count_if (λ r, negb (counted primer false
                                    (upper (fa_sequence r)))) reader
        else 0)) ∧
  (∀ records n' out,
     process primer min_len keep forward n records = Ok (n', out) →
     clipped n' + short_clipped n' =
       clipped n + short_clipped n +
       count_if (sff_counted primer false) records ∧
     negs n' + short_neg n' =
       negs n + short_neg n +
       (if keep
        then count_if (λ r, negb (sff_counted primer false r)) records
        else 0)).
Proof.
  split; [|split].
  - intros reader n' out Hrun.
    assert (Hloop : for_loop
      (λ st r, Ok ((if forward then fastq_forward_step primer min_len keep
                    else fastq_reverse_step primer min_len keep) st r))
      (n, []) reader = Ok (n', out)).
    { rewrite for_loop_pure, <- Hrun. unfold clip_fastq.
      by destruct forward. }
    rewrite <- count_if_keep. split.
    + apply (for_loop_count _ (λ n, clipped n + short_clipped n)
               (λ r, counted primer false (upper (fq_sequence r)))) in Hloop;
        [done|].
      intros n0 w r n1 w1 [= H]. by apply fastq_step_sorts in H as [? _].
    + apply (for_loop_count _ (λ n, negs n + short_neg n)
               (λ r, keep && negb (counted primer false
                                     (upper (fq_sequence r))))) in Hloop;
        [done|].
      intros n0 w r n1 w1 [= H]. by apply fastq_step_sorts in H as [_ ?].
  - intros reader n' out Hrun.
    assert (Hloop : for_loop
      (λ st r, Ok ((if forward then fasta_forward_step primer min_len keep
                    else fasta_reverse_step primer min_len keep) st r))
      (n, []) reader = Ok (n', out)).
    { rewrite for_loop_pure, <- Hrun. unfold clip_fasta.
      by destruct forward. }
    rewrite <- count_if_keep. split.
    + apply (for_loop_count _ (λ n, clipped n + short_clipped n)
               (λ r, counted primer false (upper (fa_sequence r)))) in Hloop;
        [done|].
      intros n0 w r n1 w1 [= H]. by apply fasta_step_sorts in H as [? _].
    + apply (for_loop_count _ (λ n, negs n + short_neg n)
               (λ r, keep && negb (counted primer false
                                     (upper (fa_sequence r))))) in Hloop;
        [done|].
      intros n0 w r n1 w1 [= H]. by apply fasta_step_sorts in H as [_ ?].
  - intros records n' out Hrun. unfold process in Hrun.
    assert (Hloop :
      for_loop (if forward then sff_forward_step primer min_len keep
                else sff_reverse_step primer min_len keep) (n, []) records
      = Ok (n', out)) by (by destruct forward).
    rewrite <- count_if_keep. split.
    + apply (for_loop_count _ (λ n, clipped n + short_clipped n)
               (sff_counted primer false)) in Hloop;
        [done|].
      intros n0 w r n1 w1 H. by apply sff_step_sorts in H as [? _].
    + apply (for_loop_count _ (λ n, negs n + short_neg n)
               (λ r, keep && negb (sff_counted primer false r))) in Hloop;
        [done|].
      intros n0 w r n1 w1 H. by apply sff_step_sorts in H as [_ ?].
Qed.

Lemma report_sorts_reads_witness :
  clipped (Counters 0 1 1 0) + short_clipped (Counters 0 1 1 0) =
    clipped no_counts + short_clipped no_counts +
    count_if (λ r, counted [[LITERAL "A"; LITERAL "C"]] false
                     (upper (fq_sequence r)))
      [FastqRecord (s_ "r1") (s_ "ttacgggg") [] (s_ "ABCDEFGH");
       FastqRecord (s_ "r2") (s_ "tt") [] (s_ "II");
       FastqRecord (s_ "r3") (s_ "ggggac") [] (s_ "IIIIII")] ∧
  negs (Counters 0 1 1 0) + short_neg (Counters 0 1 1 0) =
    negs no_counts + short_neg no_counts + 0.
Proof.
  apply (proj1 (report_sorts_reads [[LITERAL "A"; LITERAL "C"]] 3 false true
                  no_counts)
           [FastqRecord (s_ "r1") (s_ "ttacgggg") [] (s_ "ABCDEFGH");
            FastqRecord (s_ "r2") (s_ "tt") [] (s_ "II");
            FastqRecord (s_ "r3") (s_ "ggggac") [] (s_ "IIIIII")]
           (Counters 0 1 1 0)
           [FastqRecord (s_ "r1") (s_ "GGGG") [] (s_ "EFGH")]).
  reflexivity.
Defined.

(** ** The script as a whole *)

Lemma check_mm_outcome mm :
  match check_mm mm with
  | Ok m => (0 ≤ mm ≤ 2)%Z ∧ m = Z.to_nat mm
  | Raise e => ((mm < 0)%Z ∧ e = SystemExit) ∨
               ((2 < mm)%Z ∧ e = NotImplementedError)
  end.
Proof.
  unfold check_mm. destruct (Z.ltb_spec mm 0) as [?|Hge]; [by left|].
  case_bool_decide as Hin.
  - split; [|done].
    repeat (apply elem_of_cons in Hin as [->|Hin]); try lia.
    by apply elem_of_nil in Hin.
  - right. split; [|done].
    destruct (decide (mm = 0%Z)) as [->|?]; [destruct Hin; set_solver|].
    destruct (decide (mm = 1%Z)) as [->|?]; [destruct Hin; set_solver|].
    destruct (decide (mm = 2%Z)) as [->|?]; [destruct Hin; set_solver|].
    lia.
Qed.

Lemma check_min_len_outcome min_len :
  match check_min_len min_len with
  | Ok m => (0 ≤ min_len)%Z ∧ m = Z.to_nat min_len
  | Raise e => (min_len < 0)%Z ∧ e = SystemExit
  end.
Proof.
  unfold check_min_len. by destruct (Z.ltb_spec min_len 0).
Qed.

Lemma valid_seq_elem s c : valid_seq s = true → c ∈ s → valid_letter c = true.
Proof.
  unfold valid_seq. rewrite forallb_forall. intros H Hc.
  by apply H, list_elem_of_In.
Qed.

(** X16.  The script on FASTQ or FASTA input.  It ends in one of four
    errors, decided in this order: [SystemExit] for a negative mismatch
    count; [NotImplementedError] for a count above two, before the minimum
    length is looked at and before any primer is loaded, so also with no
    primers; [SystemExit] for a negative minimum length; the [KeyError] of
    a primer letter that is not in the table, before any read is
    processed.  Otherwise it returns what the loop of the input's format
    makes, with the loaded pattern, of all the reads, and writes the format
    it read.  So with a count from 0 to 2, a minimum length of at least 0
    and primers over the table's letters, it always runs to the end. *)
Theorem script_outcome reverse_complement set_iter input primer_fasta type mm
    min_len keep :
  set_order set_iter →
  (∀ records, input ≠ sff_reads records) →
  (match script reverse_complement set_iter input primer_fasta type mm min_len
           keep with
   | Ok (n, out) =>
       (0 ≤ mm ≤ 2)%Z ∧ (0 ≤ min_len)%Z ∧
       ∃ rx,
         load_primers_as_re reverse_complement set_iter primer_fasta
           (Z.to_nat mm) (is_rc type) = Ok (length primer_fasta, rx) ∧
         ((∃ reader w,
             input = fastq_reads reader ∧ out = fastq_reads w ∧
             clip_fastq rx (Z.to_nat min_len) keep (is_forward type)
               no_counts reader = (n, w)) ∨
          (∃ reader w,
             input = fasta_reads reader ∧ out = fasta_reads w ∧
             clip_fasta rx (Z.to_nat min_len) keep (is_forward type)
               no_counts reader = (n, w)))
   | Raise e =>
       ((mm < 0)%Z ∧ e = SystemExit) ∨
       ((2 < mm)%Z ∧ e = NotImplementedError) ∨
       ((0 ≤ mm ≤ 2)%Z ∧ (min_len < 0)%Z ∧ e = SystemExit) ∨
       ((0 ≤ mm ≤ 2)%Z ∧ (0 ≤ min_len)%Z ∧
        ∃ r c, r ∈ primer_fasta ∧
               c ∈ upper (primer_seq reverse_complement (is_rc type) r) ∧
               valid_letter c = false ∧ e = KeyError [c])
   end) ∧
  ((0 ≤ mm ≤ 2)%Z → (0 ≤ min_len)%Z →
   (∀ r, r ∈ primer_fasta →
         valid_seq (upper (primer_seq reverse_complement (is_rc type) r))
         = true) →
   ∃ n out,
     script reverse_complement set_iter input primer_fasta type mm min_len
       keep = Ok (n, out)).
Proof.
  intros Hord Hnot.
  assert (Hcases :
    match script reverse_complement set_iter input primer_fasta type mm
            min_len keep with
    | Ok (n, out) =>
        (0 ≤ mm ≤ 2)%Z ∧ (0 ≤ min_len)%Z ∧
        ∃ rx,
          load_primers_as_re reverse_complement set_iter primer_fasta
            (Z.to_nat mm) (is_rc type) = Ok (length primer_fasta, rx) ∧
          ((∃ reader w,
              input = fastq_reads reader ∧ out = fastq_reads w ∧
              clip_fastq rx (Z.to_nat min_len) keep (is_forward type)
                no_counts reader = (n, w)) ∨
           (∃ reader w,
              input = fasta_reads reader ∧ out = fasta_reads w ∧
              clip_fasta rx (Z.to_nat min_len) keep (is_forward type)
                no_counts reader = (n, w)))
    | Raise e =>
        ((mm < 0)%Z ∧ e = SystemExit) ∨
        ((2 < mm)%Z ∧ e = NotImplementedError) ∨
        ((0 ≤ mm ≤ 2)%Z ∧ (min_len < 0)%Z ∧ e = SystemExit) ∨
        ((0 ≤ mm ≤ 2)%Z ∧ (0 ≤ min_len)%Z ∧
         ∃ r c, r ∈ primer_fasta ∧
                c ∈ upper (primer_seq reverse_complement (is_rc type) r) ∧
                valid_letter c = false ∧ e = KeyError [c])
    end); [|split; [exact Hcases|]].
  2: { intros Hmm Hmin Hvalid.
       destruct (script _ _ _ _ _ _ _ _) as [[n out]|e]; [by eauto|].
       exfalso.
       destruct Hcases
         as [[? _]|[[? _]|[(_ & ? & _)|(_ & _ & r & c & Hr & Hc & Hv & _)]]];
         try lia.
       apply Hvalid in Hr. apply (valid_seq_elem _ c) in Hr; [|done].
       congruence. }
  unfold script.
  pose proof (check_mm_outcome mm) as Hmm.
  destruct (check_mm mm) as [m|e]; simpl;
    [destruct Hmm as [Hmm ->]
    |destruct Hmm as [[? ->]|[? ->]]; [by left | by right; left]].
  pose proof (check_min_len_outcome min_len) as Hmin.
  destruct (check_min_len min_len) as [ml|e]; simpl;
    [destruct Hmin as [Hmin ->]
    |destruct Hmin as [? ->]; by right; right; left].
  assert (Hload : ∀ rc,
    match load_primers_as_re reverse_complement set_iter primer_fasta
            (Z.to_nat mm) rc with
    | Ok (count, rx) => count = length primer_fasta
    | Raise e =>
        ∃ r c, r ∈ primer_fasta ∧
               c ∈ upper (primer_seq reverse_complement rc r) ∧
               valid_letter c = false ∧ e = KeyError [c]
    end).
  { intros rc.
    destruct (load_primers_as_re reverse_complement set_iter primer_fasta
                (Z.to_nat mm) rc) as [[count rx]|e] eqn:Hl.
    - by destruct (load_primers_as_re_branches _ _ _ _ _ _ _ Hord Hl)
        as (-> & _).
    - apply (load_primers_as_re_Raise_letter _ _ _ _ _ _ Hord) in Hl;
        [done | lia]. }
  destruct type;
    [specialize (Hload false) | specialize (Hload false)
    |specialize (Hload true)];
    cbn [is_rc is_forward]; lazy beta iota zeta;
    (destruct (load_primers_as_re _ _ _ _ _) as [[count rx]|e]; simpl;
     [subst count | by right; right; right]);
    (destruct input as [records|reader|reader];
     [by destruct (Hnot records) | |]).
  all: destruct (foldl _ _ reader) as [n w] eqn:Hrun.
  all: (split; [done|]); (split; [done|]); exists rx; (split; [done|]).
  all: first [left; by exists reader, w | right; by exists reader, w].
Qed.

Lemma script_outcome_witness :
  match script (λ s, s) remove_dups
          (fastq_reads
             [FastqRecord (s_ "r1") (s_ "ttacgggg") [] (s_ "ABCDEFGH");
              FastqRecord (s_ "r2") (s_ "tt") [] (s_ "II")])
          [FastaRecord (s_ "p1") (s_ "ac")] forward_primer 0 3 false with
  | Ok (n, out) =>
      (0 ≤ 0 ≤ 2)%Z ∧ (0 ≤ 3)%Z ∧
      ∃ rx,
        load_primers_as_re (λ s, s) remove_dups
          [FastaRecord (s_ "p1") (s_ "ac")] (Z.to_nat 0)
          (is_rc forward_primer)
        = Ok (length [FastaRecord (s_ "p1") (s_ "ac")], rx) ∧
        ((∃ reader w,
            fastq_reads
              [FastqRecord (s_ "r1") (s_ "ttacgggg") [] (s_ "ABCDEFGH");
               FastqRecord (s_ "r2") (s_ "tt") [] (s_ "II")]
            = fastq_reads reader ∧ out = fastq_reads w ∧
            clip_fastq rx (Z.to_nat 3) false (is_forward forward_primer)
              no_counts reader = (n, w)) ∨
         (∃ reader w,
            fastq_reads
              [FastqRecord (s_ "r1") (s_ "ttacgggg") [] (s_ "ABCDEFGH");
               FastqRecord (s_ "r2") (s_ "tt") [] (s_ "II")]
            = fasta_reads reader ∧ out = fasta_reads w ∧
            clip_fasta rx (Z.to_nat 3) false (is_forward forward_primer)
              no_counts reader = (n, w)))
  | Raise e =>
      ((0 < 0)%Z ∧ e = SystemExit) ∨
      ((2 < 0)%Z ∧ e = NotImplementedError) ∨
      ((0 ≤ 0 ≤ 2)%Z ∧ (3 < 0)%Z ∧ e = SystemExit) ∨
      ((0 ≤ 0 ≤ 2)%Z ∧ (0 ≤ 3)%Z ∧
       ∃ r c, r ∈ [FastaRecord (s_ "p1") (s_ "ac")] ∧
              c ∈ upper (primer_seq (λ s, s) (is_rc forward_primer) r) ∧
              valid_letter c = false ∧ e = KeyError [c])
  end.
Proof.
  exact (proj1 (script_outcome (λ s, s) remove_dups
           (fastq_reads
              [FastqRecord (s_ "r1") (s_ "ttacgggg") [] (s_ "ABCDEFGH");
               FastqRecord (s_ "r2") (s_ "tt") [] (s_ "II")])
           [FastaRecord (s_ "p1") (s_ "ac")] forward_primer 0 3 false
           remove_dups_order ltac:(done))).
Defined.

(** ** The span of a match *)





(** ** A larger mismatch budget *)

Lemma yields_mono seq mm p :
  yields seq mm p → ∀ mm', mm ≤ mm' → yields seq mm' p.
Proof.
  induction 1 as [s mm p Hp|s mm i p Hi _ IH|s mm i p Hi _ IH
                  |s mm i p H1 Hi Hp|s mm i k p H2 Hi Hk Hp];
    intros mm' Hle.
  - by apply yields_exact.
  - apply yields_head with i; [lia|]. apply IH. lia.
  - apply yields_tail with i; [lia|]. apply IH. lia.
  - apply yields_one with i; [lia | done | done].
  - apply yields_two with i k; [lia | done | done | done].
Qed.

(** X18.  Allowing more mismatches never loses a match: a read that
    matches under the budget [mm] matches under any larger budget the
    script accepts, at the same offset or further left, whatever the
    iteration orders of the two pattern sets.  Under reverse orientation
    the part kept is therefore never longer. *)
Theorem larger_budget_keeps_matches reverse_complement iter1 iter2 records
    mm mm' rc c1 rx1 c2 rx2 target s e :
  set_order iter1 → set_order iter2 → mm ≤ mm' →
  load_primers_as_re reverse_complement iter1 records mm rc = Ok (c1, rx1) →
  load_primers_as_re reverse_complement iter2 records mm' rc = Ok (c2, rx2) →
  re_search rx1 target = Some (s, e) →
  ∃ s' e', re_search rx2 target = Some (s', e') ∧ s' ≤ s.
Proof.
  intros H1 H2 Hle Hl1 Hl2 Hsearch.
  destruct (load_primers_as_re_branches _ _ _ _ _ _ _ H1 Hl1)
    as (_ & Hnil1 & Hbr1).
  destruct (load_primers_as_re_branches _ _ _ _ _ _ _ H2 Hl2)
    as (_ & Hnil2 & Hbr2).
  destruct records as [|record records].
  - rewrite Hnil1 in Hsearch by done. rewrite Hnil2 by done.
    exists s, e. split; [done | lia].
  - pose proof (re_search_bounds _ _ _ _ Hsearch) as [? ?].
    apply re_search_Some in Hsearch as [(b & Hb & Hm) _].
    apply Hbr1 in Hb as (r & p & Hr & Hy & Hp); [|done].
    apply (re_search_start rx2 target b s e); [|lia|done].
    apply Hbr2; [done|]. exists r, p. split; [done|].
    split; [by apply (yields_mono _ mm) | done].
Qed.

Lemma larger_budget_keeps_matches_witness :
  ∃ s' e',
    re_search
      [[LITERAL "A"; LITERAL "C"]; [AT_BEGINNING; LITERAL "C"];
       [AT_END; LITERAL "A"]; [ANY; LITERAL "C"]; [LITERAL "A"; ANY]]
      (s_ "TCAC") = Some (s', e') ∧ s' ≤ 2.
Proof.
  apply (larger_budget_keeps_matches (λ s, s) remove_dups remove_dups
           [FastaRecord (s_ "p1") (s_ "ac")] 0 1 false 1
           [[LITERAL "A"; LITERAL "C"]] 1 _ (s_ "TCAC") 2 4
           remove_dups_order remove_dups_order);
    [lia | vm_compute; reflexivity | vm_compute; reflexivity
    | vm_compute; reflexivity].
Defined.
(** ** No minimum length *)

Lemma for_loop_invariant {R}
    (body : counters * list R → R → result (counters * list R))
    (m : counters → nat) :
  (∀ n w r n' w', body (n, w) r = Ok (n', w') → m n' = m n) →
  ∀ records n w n' w',
    for_loop body (n, w) records = Ok (n', w') → m n' = m n.
Proof.
  intros Hstep.
  induction records as [|r records IH]; intros n w n' w'; simpl.
  - by intros [= <- <-].
  - destruct (body (n, w) r) as [[n1 w1]|] eqn:Hb; [|done]. simpl.
    intros Hl. by rewrite (IH _ _ _ _ Hl), (Hstep _ _ _ _ _ Hb).
Qed.

Ltac short_step := repeat case_match; simplify_eq; simpl; auto.

Lemma fastq_step_no_short primer keep (forward : bool) n w r n' w' :
  (if forward then fastq_forward_step primer 0 keep
   else fastq_reverse_step primer 0 keep) (n, w) r = (n', w') →
  short_clipped n' = short_clipped n ∧ short_neg n' = short_neg n.
Proof.
  destruct forward; unfold fastq_forward_step, fastq_reverse_step;
    cbn [Nat.leb]; intros H; short_step.
Qed.

Lemma fasta_step_no_short primer keep (forward : bool) n w r n' w' :
  (if forward then fasta_forward_step primer 0 keep
   else fasta_reverse_step primer 0 keep) (n, w) r = (n', w') →
  short_clipped n' = short_clipped n ∧ short_neg n' = short_neg n.
Proof.
  destruct forward; unfold fasta_forward_step, fasta_reverse_step;
    cbn [Nat.leb]; intros H; short_step.
Qed.

Lemma sff_step_no_short primer keep (forward : bool) n w r n' w' :
  (if forward then sff_forward_step primer 0 keep
   else sff_reverse_step primer 0 keep) (n, w) r = Ok (n', w') →
  short_clipped n' = short_clipped n ∧ short_neg n' = short_neg n.
Proof.
  destruct forward; unfold sff_forward_step, sff_reverse_step;
    (sff_clips r l rc);
    cbn [Nat.leb]; simpl; intros H; short_step.
Qed.

(** X19.  With a minimum length of 0 nothing is discarded as short: in
    every format and orientation [short_clipped] and [short_neg] stay as
    they were, and the run writes one record for every read a pattern
    matches and, when unmatched reads are kept, for every read. *)
Theorem no_minimum_no_short primer keep forward n :
  (∀ reader n' out,
     clip_fastq primer 0 keep forward n reader = (n', out) →
     short_clipped n' = short_clipped n ∧ short_neg n' = short_neg n ∧
     length out =
       count_if (λ r, counted primer keep (upper (fq_sequence r))) reader) ∧
  (∀ reader n' out,
     clip_fasta primer 0 keep forward n reader = (n', out) →
     short_clipped n' = short_clipped n ∧ short_neg n' = short_neg n ∧
     length out =
       count_if (λ r, counted primer keep (upper (fa_sequence r))) reader) ∧
  (∀ records n' out,
     process primer 0 keep forward n records = Ok (n', out) →
     short_clipped n' = short_clipped n ∧ short_neg n' = short_neg n ∧
     length out = count_if (sff_counted primer keep) records).
Proof.
  split; [|split].
  - intros reader n' out Hrun.
    assert (Hloop : for_loop
      (λ st r, Ok ((if forward then fastq_forward_step primer 0 keep
                    else fastq_reverse_step primer 0 keep) st r))
      (n, []) reader = Ok (n', out)).
    { rewrite for_loop_pure, <- Hrun. unfold clip_fastq.
      by destruct forward. }
    assert (Hsc : short_clipped n' = short_clipped n).
    { apply (for_loop_invariant _ short_clipped) in Hloop; [done|].
      intros n0 w r n1 w1 [= H]. by apply fastq_step_no_short in H as [? _]. }
    assert (Hsn : short_neg n' = short_neg n).
    { apply (for_loop_invariant _ short_neg) in Hloop; [done|].
      intros n0 w r n1 w1 [= H]. by apply fastq_step_no_short in H as [_ ?]. }
    split; [done|]. split; [done|].
    apply (for_loop_writes _ _ _ (fastq_step_writes _ _ _ _)) in Hloop
      as (out' & -> & Hc & _).
    pose proof (foldl_total _ _
      (fastq_step_total primer 0 keep forward) reader (n, [])) as Hsum.
    replace (foldl _ (n, []) reader) with (n', [] ++ out') in Hsum
      by (rewrite <- Hrun; unfold clip_fastq; by destruct forward).
    unfold sum_counters in Hsum. simpl in *. lia.
  - intros reader n' out Hrun.
    assert (Hloop : for_loop
      (λ st r, Ok ((if forward then fasta_forward_step primer 0 keep
                    else fasta_reverse_step primer 0 keep) st r))
      (n, []) reader = Ok (n', out)).
    { rewrite for_loop_pure, <- Hrun. unfold clip_fasta.
      by destruct forward. }
    assert (Hsc : short_clipped n' = short_clipped n).
    { apply (for_loop_invariant _ short_clipped) in Hloop; [done|].
      intros n0 w r n1 w1 [= H]. by apply fasta_step_no_short in H as [? _]. }
    assert (Hsn : short_neg n' = short_neg n).
    { apply (for_loop_invariant _ short_neg) in Hloop; [done|].
      intros n0 w r n1 w1 [= H]. by apply fasta_step_no_short in H as [_ ?]. }
    split; [done|]. split; [done|].
    apply (for_loop_writes _ _ _ (fasta_step_writes _ _ _ _)) in Hloop
      as (out' & -> & Hc & _).
    pose proof (foldl_total _ _
      (fasta_step_total primer 0 keep forward) reader (n, [])) as Hsum.
    replace (foldl _ (n, []) reader) with (n', [] ++ out') in Hsum
      by (rewrite <- Hrun; unfold clip_fasta; by destruct forward).
    unfold sum_counters in Hsum. simpl in *. lia.
  - intros records n' out Hrun. unfold process in Hrun.
    assert (Hloop :
      for_loop (if forward then sff_forward_step primer 0 keep
                else sff_reverse_step primer 0 keep) (n, []) records
      = Ok (n', out)) by (by destruct forward).
    assert (Hsc : short_clipped n' = short_clipped n).
    { apply (for_loop_invariant _ short_clipped) in Hloop; [done|].
      intros n0 w r n1 w1 H. by apply sff_step_no_short in H as [? _]. }
    assert (Hsn : short_neg n' = short_neg n).
    { apply (for_loop_invariant _ short_neg) in Hloop; [done|].
      intros n0 w r n1 w1 H. by apply sff_step_no_short in H as [_ ?]. }
    split; [done|]. split; [done|].
    pose proof (for_loop_total _ _
      (sff_step_total primer 0 keep forward) _ _ _ Hloop) as Hsum.
    apply (for_loop_writes _ _ _ (sff_step_writes _ _ _ _)) in Hloop
      as (out' & -> & Hc & _).
    unfold sum_counters in Hsum. simpl in *. lia.
Qed.

Lemma no_minimum_no_short_witness :
  short_clipped (Counters 0 0 2 1) = short_clipped no_counts ∧
  short_neg (Counters 0 0 2 1) = short_neg no_counts ∧
  length [FastqRecord (s_ "r1") (s_ "GGGG") [] (s_ "EFGH");
          FastqRecord (s_ "r2") (s_ "tt") [] (s_ "II");
          FastqRecord (s_ "r3") [] [] []] =
  count_if (λ r, counted [[LITERAL "A"; LITERAL "C"]] true
                   (upper (fq_sequence r)))
    [FastqRecord (s_ "r1") (s_ "ttacgggg") [] (s_ "ABCDEFGH");
     FastqRecord (s_ "r2") (s_ "tt") [] (s_ "II");
     FastqRecord (s_ "r3") (s_ "ggggac") [] (s_ "IIIIII")].
Proof.
  apply (proj1 (no_minimum_no_short [[LITERAL "A"; LITERAL "C"]] true true
                  no_counts)
           [FastqRecord (s_ "r1") (s_ "ttacgggg") [] (s_ "ABCDEFGH");
            FastqRecord (s_ "r2") (s_ "tt") [] (s_ "II");
            FastqRecord (s_ "r3") (s_ "ggggac") [] (s_ "IIIIII")]
           (Counters 0 0 2 1)).
  reflexivity.
Defined.
